(** * External merge sort: splitter, chunk sorter, sort scheduler, k-way and
      hierarchical merger

    A shallow embedding of the JavaScript sources (index.js, splitter.js,
    sorter.js, sorter-worker.js, merger.js, utils.js).

    Conventions of the embedding.
    - A JavaScript string is the list of its UTF-16 code units ([list N]);
      [js "..."] turns an ASCII literal into such a string.
    - The file system is a finite map from paths to file contents; the content
      of a file is the string obtained by decoding it.  A directory exists
      when it leads to a file; the chunk sorters, which compute the path
      they write to, fail when its directory does not exist.
    - Arrays are lists; an array of object references (the heap of readers) is
      a list of indices into a store of records.
    - Loops whose termination is not structural carry a fuel argument; the
      entry points supply a fuel that is shown to be sufficient. *)

From Stdlib Require Import Ascii String.
From stdpp Require Import base numbers list gmap sorting pretty.

Local Open Scope list_scope.

(** ** JavaScript strings *)

Abbreviation jsstring := (list N).

Definition js (s : string) : jsstring :=
  (λ a, N_of_ascii a) <$> list_ascii_of_string s.

(** [a < b] on strings: lexicographic comparison of the code units, a proper
    prefix being smaller. *)
Fixpoint str_lt (a b : jsstring) : bool :=
  match a, b with
  | _, [] => false
  | [], _ :: _ => true
  | x :: a', y :: b' =>
      if (x <? y)%N then true
      else if (y <? x)%N then false
      else str_lt a' b'
  end.

(** [a <= b] for the order of [str_lt]. *)
Definition str_le (a b : jsstring) : Prop := str_lt b a = false.

(** The comparator shared by [Sorter.sortLines] and the worker:
    [(a, b) => { if (a < b) return -1; if (a > b) return 1; return 0; }]. *)
Definition compareLines (a b : jsstring) : Z :=
  if str_lt a b then (-1)%Z
  else if str_lt b a then 1%Z
  else 0%Z.

(** ** merger.js: the binary min-heap *)

Module MinHeap.
Section MinHeap.
Context {A : Type} (compareFn : A → A → Z).

Definition size (heap : list A) : nat := length heap.

(** [[heap[i], heap[j]] = [heap[j], heap[i]]]: the right-hand side is read
    first, then [heap[i]] and [heap[j]] are assigned in that order. *)
Definition swap (heap : list A) (i j : nat) : list A :=
  match heap !! i, heap !! j with
  | Some x, Some y => <[j:=x]> (<[i:=y]> heap)
  | _, _ => heap
  end.

(** [Math.floor((index - 1) / 2)]; only used under the guard [index > 0]. *)
Definition parent (index : nat) : nat := (index - 1) / 2.

(** The [while] loop of [_siftUp].  The index strictly decreases, so [index]
    units of fuel are never used up (see [_siftUp_loop_fuel]). *)
Fixpoint _siftUp_loop (fuel : nat) (heap : list A) (index : nat) : list A :=
  match fuel with
  | 0 => heap
  | S fuel' =>
      if 0 <? index then
        match heap !! index, heap !! parent index with
        | Some x, Some p =>
            if (compareFn x p <? 0)%Z
            then _siftUp_loop fuel' (swap heap index (parent index))
                   (parent index)
            else heap
        | _, _ => heap
        end
      else heap
  end.

Definition _siftUp (heap : list A) (index : nat) : list A :=
  _siftUp_loop index heap index.

(** [compareFn(heap[i], heap[j]) < 0] for two slots of the array. *)
Definition less_at (heap : list A) (i j : nat) : bool :=
  match heap !! i, heap !! j with
  | Some x, Some y => (compareFn x y <? 0)%Z
  | _, _ => false
  end.

(** The two [if]s of [_siftDown] that choose [smallest] among [index] and
    its children. *)
Definition smallest_of (heap : list A) (index : nat) : nat :=
  let left := 2 * index + 1 in
  let right := 2 * index + 2 in
  let smallest := index in
  let smallest :=
    if (left <? length heap) && less_at heap left smallest
    then left else smallest in
  let smallest :=
    if (right <? length heap) && less_at heap right smallest
    then right else smallest in
  smallest.

(** The recursion of [_siftDown]: the index strictly increases and stays
    below the length, so [length heap - index] units of fuel suffice (see
    [siftDown_fuel_irrel]). *)
Fixpoint _siftDown_fuel (fuel : nat) (heap : list A) (index : nat) : list A :=
  match fuel with
  | 0 => heap
  | S fuel' =>
      let smallest := smallest_of heap index in
      if negb (smallest =? index)
      then _siftDown_fuel fuel' (swap heap index smallest) smallest
      else heap
  end.

Definition _siftDown (heap : list A) (index : nat) : list A :=
  _siftDown_fuel (length heap - index) heap index.

(** [this.heap.push(element); this._siftUp(this.heap.length - 1)] *)
Definition insert (heap : list A) (element : A) : list A :=
  let heap := heap ++ [element] in
  _siftUp heap (length heap - 1).

(** [Array.prototype.pop]: the last element and the shortened array. *)
Definition pop (heap : list A) : option A * list A :=
  (last heap, take (length heap - 1) heap).

(** [extractMin] returns the extracted element ([None] for JavaScript's
    [null] on an empty heap) and the heap it leaves. *)
Definition extractMin (heap : list A) : option A * list A :=
  match heap !! 0 with
  | None => (None, heap)
  | Some min =>
      match pop heap with
      | (Some lst, heap') =>
          if 0 <? length heap'
          then (Some min, _siftDown (<[0:=lst]> heap') 0)
          else (Some min, heap')
      | (None, heap') => (Some min, heap')
      end
  end.
End MinHeap.
End MinHeap.

(** ** The run-time environment: values, files, I/O outcomes *)

(** The values a promise of this program is fulfilled with. *)
Inductive jsvalue : Type :=
| undefined
| number (n : nat).

(** Path ↦ content.  Reading a missing file fails, [unlink] of a missing file
    fails (which the program only ever logs), writing creates the file. *)
Abbreviation filesystem := (gmap (list N) (list N)).

(** The outcome of running a piece of the program from a file system:
    normal completion, an exception (a rejected promise) with its message, or
    [Unfinished] when the fuel or the schedule given to the model ends before
    the code does.  Both [Done] and [Throw] carry the file system they leave
    behind: the program never rolls back what it has written. *)
Inductive outcome (A : Type) : Type :=
| Done (fs : filesystem) (a : A)
| Throw (fs : filesystem) (message : jsstring)
| Unfinished.
Arguments Done {A} fs a.
Arguments Throw {A} fs message.
Arguments Unfinished {A}.

Definition io (A : Type) : Type := filesystem → outcome A.

Definition io_ret {A} (a : A) : io A := λ fs, Done fs a.
Definition io_throw {A} (message : jsstring) : io A := λ fs, Throw fs message.
Definition io_bind {A B} (m : io A) (k : A → io B) : io B :=
  λ fs, match m fs with
        | Done fs' a => k a fs'
        | Throw fs' message => Throw fs' message
        | Unfinished => Unfinished
        end.

Notation "'do' x <- m ; k" := (io_bind m (λ x, k))
  (at level 10, x pattern, m at level 100, k at level 200,
   format "'[v' 'do'  x  <-  m ; '/' k ']'").

(** A write stream that is created, written and ended, at a path that can be
    written: the output path the caller gave, or a file of the temporary
    directory ([writable] and [directory_free] say when that is so). *)
Definition writeFile (path data : jsstring) : io () :=
  λ fs, Done (<[path:=data]> fs) ().

(** [fs.unlink] inside [try { ... } catch { console.warn(...) }]: a failure
    leaves the file system as it is. *)
Definition unlink_best_effort (path : jsstring) : io () :=
  λ fs, Done (delete path fs) ().

Definition ENOENT (path : jsstring) : jsstring :=
  js "ENOENT: no such file or directory, open '" ++ path ++ js "'".

(** [fs.readFileSync(path, "utf-8")] *)
Definition readFile (path : jsstring) : io jsstring :=
  λ fs, match fs !! path with
        | Some data => Done fs data
        | None => Throw fs (ENOENT path)
        end.

(** *** Strings of the standard library *)

Definition LF : N := 10.
Definition CR : N := 13.

(** The lines a [readline] interface with [crlfDelay: Infinity] delivers for a
    stream with the given content: a line ends at "\n", "\r\n" or "\r"; text
    after the last terminator is delivered as a last line when non-empty. *)
Fixpoint readline_lines (data : jsstring) : list jsstring :=
  match data with
  | [] => []
  | c :: rest =>
      if (c =? LF)%N then [] :: readline_lines rest
      else if (c =? CR)%N then
        match rest with
        | d :: rest' =>
            if (d =? LF)%N then [] :: readline_lines rest'
            else [] :: readline_lines rest
        | [] => [[]]
        end
      else
        match readline_lines rest with
        | [] => [[c]]
        | l :: ls => (c :: l) :: ls
        end
  end.

(** [data.split(sep)] for a one-unit separator. *)
Fixpoint split (sep : N) (data : jsstring) : list jsstring :=
  match data with
  | [] => [[]]
  | c :: rest =>
      if (c =? sep)%N then [] :: split sep rest
      else
        match split sep rest with
        | [] => [[c]]
        | l :: ls => (c :: l) :: ls
        end
  end.

(** [lines.join(sep)] *)
Fixpoint join (sep : jsstring) (lines : list jsstring) : jsstring :=
  match lines with
  | [] => []
  | [l] => l
  | l :: ls => l ++ sep ++ join sep ls
  end.

(** What a write stream holds after [write(line + "\n")] for each line. *)
Definition lines_content (lines : list jsstring) : jsstring :=
  concat ((λ l, l ++ [LF]) <$> lines).

(** White space and line terminators, as [String.prototype.trim] strips. *)
Definition is_whitespace (c : N) : bool :=
  ((9 <=? c) && (c <=? 13) || (c =? 32) || (c =? 160) || (c =? 5760)
   || (8192 <=? c) && (c <=? 8202) || (c =? 8232) || (c =? 8233)
   || (c =? 8239) || (c =? 8287) || (c =? 12288) || (c =? 65279))%N.

Fixpoint trimStart (s : jsstring) : jsstring :=
  match s with
  | [] => []
  | c :: s' => if is_whitespace c then trimStart s' else s
  end.

Definition trim (s : jsstring) : jsstring :=
  reverse (trimStart (reverse (trimStart s))).

(** [Buffer.byteLength(s)]: the length of the UTF-8 encoding.  A surrogate
    pair encodes to four bytes, a lone surrogate to the three bytes of
    U+FFFD. *)
Fixpoint byteLength (s : jsstring) : N :=
  match s with
  | [] => 0
  | c :: rest =>
      if (c <? 128)%N then 1 + byteLength rest
      else if (c <? 2048)%N then 2 + byteLength rest
      else if ((55296 <=? c) && (c <? 56320))%N then
        match rest with
        | d :: rest' =>
            if ((56320 <=? d) && (d <? 57344))%N
            then 4 + byteLength rest'
            else 3 + byteLength rest
        | [] => 3
        end
      else 3 + byteLength rest
  end%N.

Fixpoint startsWith (s pattern : jsstring) : bool :=
  match pattern, s with
  | [], _ => true
  | _ :: _, [] => false
  | p :: pattern', c :: s' => (c =? p)%N && startsWith s' pattern'
  end.

(** [s.replace(pattern, replacement)] for a string pattern and a replacement
    without "$": the first occurrence is replaced, nothing if there is none. *)
Fixpoint replace (s pattern replacement : jsstring) : jsstring :=
  if startsWith s pattern then replacement ++ drop (length pattern) s
  else match s with
       | [] => []
       | c :: s' => c :: replace s' pattern replacement
       end.

(** [String(n)] for a non-negative integer. *)
Definition String_of_nat (n : nat) : jsstring := js (pretty (N.of_nat n)).

(** [s.padStart(targetLength, pad)] for a one-unit pad. *)
Definition padStart (targetLength : nat) (pad : N) (s : jsstring) : jsstring :=
  replicate (targetLength - length s) pad ++ s.

Definition SEP : N := 47.

(** [path.join(dir, name)] and [path.dirname(p)] on POSIX paths, where there
    is nothing to normalise: [dir] is in normal form and is neither [.] nor
    the root, [name] is a plain name, and [p] has no separator at its end
    ([resolved_path] says when that is so). *)
Definition path_join (dir name : jsstring) : jsstring := dir ++ [SEP] ++ name.

Fixpoint dirname_go (p : jsstring) : option jsstring :=
  match p with
  | [] => None
  | c :: p' =>
      match dirname_go p' with
      | Some d => Some (c :: d)
      | None => if (c =? SEP)%N then Some [] else None
      end
  end.

Definition path_dirname (p : jsstring) : jsstring :=
  match dirname_go p with
  | Some [] => [SEP]
  | Some d => d
  | None => js "."
  end.

(** [array.sort(compareFn)].  The sort is stable; for a consistent comparator
    the result is the stable sorted arrangement, computed here by insertion. *)
Fixpoint sort_insert {A} (compareFn : A → A → Z) (x : A) (l : list A) : list A :=
  match l with
  | [] => [x]
  | y :: l' =>
      if (compareFn y x <=? 0)%Z then y :: sort_insert compareFn x l'
      else x :: l
  end.

Definition array_sort {A} (compareFn : A → A → Z) (l : list A) : list A :=
  foldl (λ acc x, sort_insert compareFn x acc) [] l.

(** [results[i] = v] on an array: a write past the end extends the array and
    leaves holes ([None]) in between. *)
Definition array_set {A} (l : list (option A)) (i : nat) (v : A) : list (option A) :=
  if i <? length l then <[i:=Some v]> l
  else l ++ replicate (i - length l) None ++ [Some v].

(** [array.slice(i, j)] for [0 <= i <= j]. *)
Definition slice {A} (l : list A) (i j : nat) : list A := take (j - i) (drop i l).

(** *** Writes to a path the code computes

    Directories are not entries of the file system: the directories that
    exist are the current directory, the root, and those that lead to a
    file.  A file is created only in a directory that exists and not where a
    directory stands. *)
Definition is_directory (fs : filesystem) (path : jsstring) : bool :=
  existsb (λ entry, startsWith entry.1 (path ++ [SEP])) (map_to_list fs).

Definition directory_exists (fs : filesystem) (dir : jsstring) : bool :=
  bool_decide (dir = js ".") || bool_decide (dir = [SEP]) || is_directory fs dir.

Definition EISDIR (path : jsstring) : jsstring :=
  js "EISDIR: illegal operation on a directory, open '" ++ path ++ js "'".

(** [fs.writeFileSync(path, data)] and [fs.createWriteStream(path)] written
    and ended, for a path computed from another one. *)
Definition createFile (path data : jsstring) : io () :=
  λ fs, if is_directory fs path then Throw fs (EISDIR path)
        else if directory_exists fs (path_dirname path)
             then Done (<[path:=data]> fs) ()
             else Throw fs (ENOENT path).


(** ** splitter.js *)

Module Splitter.
Record t := { maxMemoryBytes : N; chunkSizeBytes : N }.

(** [m * 0.8] in double precision, for an integer [m] below 2^53, as the
    integer [2^52 * (m * 0.8)].  The literal [0.8] is the double
    [3602879701896397 / 2^52]; the exact product is rounded to the nearest
    number with a significand of 53 bits, a tie going to the even
    significand. *)
Definition times_0_8 (m : N) : N :=
  let exact := (m * 3602879701896397)%N in
  let ulp := (2 ^ (N.log2 exact - 52))%N in
  let q := (exact / ulp)%N in
  let r := (exact mod ulp)%N in
  if ((ulp <? 2 * r) || ((ulp =? 2 * r) && N.odd q))%N
  then ((q + 1) * ulp)%N
  else (q * ulp)%N.

(** [this.maxMemoryBytes = options.maxMemoryBytes || 400 * 1024 * 1024;
     this.chunkSizeBytes = Math.floor(this.maxMemoryBytes * 0.8)],
    for an integer budget below 2^53. *)
Definition constructor (options_maxMemoryBytes : option N) : t :=
  let m := match options_maxMemoryBytes with
           | Some m => if (m =? 0)%N then (400 * 1024 * 1024)%N else m
           | None => (400 * 1024 * 1024)%N
           end in
  {| maxMemoryBytes := m; chunkSizeBytes := (times_0_8 m / 2 ^ 52)%N |}.

Definition _getChunkPath (tempDir : jsstring) (chunkIndex : nat) : jsstring :=
  path_join tempDir
    (js "chunk_" ++ padStart 6 48 (String_of_nat chunkIndex) ++ js ".txt").

Definition _writeChunk (lines : list jsstring) (tempDir : jsstring)
    (chunkIndex : nat) : io () :=
  writeFile (_getChunkPath tempDir chunkIndex) (lines_content lines).

(** The variables of [split]. *)
Record state := {
  chunkFiles : list jsstring;
  chunkIndex : nat;
  currentChunkSize : N;
  linesBuffer : list jsstring;
}.

Definition initial : state :=
  {| chunkFiles := []; chunkIndex := 0; currentChunkSize := 0; linesBuffer := [] |}.

(** The body of [for await (const line of rl)]. *)
Definition split_step (self : t) (tempDir : jsstring) (st : state)
    (line : jsstring) : io state :=
  let lineSize := byteLength (line ++ [LF]) in
  let linesBuffer := linesBuffer st ++ [line] in
  let currentChunkSize := (currentChunkSize st + lineSize)%N in
  if (chunkSizeBytes self <=? currentChunkSize)%N then
    do _ <- _writeChunk linesBuffer tempDir (chunkIndex st);
    io_ret {| chunkFiles := chunkFiles st ++ [_getChunkPath tempDir (chunkIndex st)];
              chunkIndex := S (chunkIndex st);
              currentChunkSize := 0;
              linesBuffer := [] |}
  else
    io_ret {| chunkFiles := chunkFiles st;
              chunkIndex := chunkIndex st;
              currentChunkSize := currentChunkSize;
              linesBuffer := linesBuffer |}.

Fixpoint split_loop (self : t) (tempDir : jsstring) (lines : list jsstring)
    (st : state) : io state :=
  match lines with
  | [] => io_ret st
  | line :: rest =>
      do st' <- split_step self tempDir st line;
      split_loop self tempDir rest st'
  end.

(** [split]: the input stream delivers the lines the input file had when it
    was opened. *)
Definition split (self : t) (inputFile tempDir : jsstring) : io (list jsstring) :=
  do data <- readFile inputFile;
  do st <- split_loop self tempDir (readline_lines data) initial;
  if 0 <? length (linesBuffer st) then
    do _ <- _writeChunk (linesBuffer st) tempDir (chunkIndex st);
    io_ret (chunkFiles st ++ [_getChunkPath tempDir (chunkIndex st)])
  else io_ret (chunkFiles st).
End Splitter.

(** ** sorter-worker.js *)

Module SorterWorker.
(** [catch (error) { throw new Error("error in worker: " + error.message) }] *)
Definition rethrow {A} (m : io A) : io A :=
  λ fs, match m fs with
        | Throw fs' message => Throw fs' (js "error in worker: " ++ message)
        | o => o
        end.

(** The first statement of [sortChunk]: [fs.readFileSync(chunkPath, "utf-8")]. *)
Definition sortChunk_read (chunkPath : jsstring) : io jsstring :=
  rethrow (readFile chunkPath).

(** The rest of [sortChunk], from the data that was read. *)
Definition sortChunk_write (chunkPath data : jsstring) : io jsstring :=
  rethrow (
    let lines := split LF data in
    let filteredLines := filter (λ line, 0 < length (trim line)) lines in
    let sortedLines := array_sort compareLines filteredLines in
    let sortedChunkPath := replace chunkPath (js ".txt") (js ".sorted.txt") in
    do _ <- createFile sortedChunkPath (join [LF] sortedLines ++ [LF]);
    do _ <- unlink_best_effort chunkPath;
    io_ret sortedChunkPath).

Definition sortChunk (chunkPath : jsstring) : io jsstring :=
  do data <- sortChunk_read chunkPath;
  sortChunk_write chunkPath data.
End SorterWorker.

(** ** sorter.js *)

Module Sorter.
Definition sortLines (lines : list jsstring) : list jsstring :=
  array_sort compareLines lines.

Definition sortChunk (chunkPath : jsstring) : io jsstring :=
  do data <- readFile chunkPath;
  let lines := readline_lines data in
  let sortedLines := sortLines lines in
  let sortedChunkPath := replace chunkPath (js ".txt") (js ".sorted.txt") in
  do _ <- createFile sortedChunkPath (lines_content sortedLines);
  do _ <- unlink_best_effort chunkPath;
  io_ret sortedChunkPath.

(** The sequential branch of [sortChunks]. *)
Fixpoint sortChunks_sequential (chunkFiles sortedChunks : list jsstring)
    : io (list jsstring) :=
  match chunkFiles with
  | [] => io_ret sortedChunks
  | chunkPath :: rest =>
      do sortedChunkPath <- sortChunk chunkPath;
      sortChunks_sequential rest (sortedChunks ++ [sortedChunkPath])
  end.

(** *** The worker pool

    A worker thread runs [SorterWorker.sortChunk] on its chunk in two steps
    that other threads can interleave with: the read of the chunk, and
    everything after it.  The message a thread posts is handled by the main
    thread as part of the step that produces it. *)
Inductive phase : Type :=
| Spawned
| Loaded (data : jsstring)
| Exited.

Record thread := {
  slot : nat;             (* [availableWorker.id] *)
  chunkIndex : nat;
  chunkPath : jsstring;
  stage : phase;
}.

Inductive promise : Type :=
| Pending
| Fulfilled (value : list (option jsstring))
| Rejected (message : jsstring).

(** The variables shared by the closures of the parallel branch. *)
Record pool := {
  workerPool : list bool;              (* [busy] of the worker with id [i] *)
  results : list (option jsstring);
  completedChunks : nat;
  threads : list thread;               (* the workers created so far *)
  settled : promise;
}.

Definition resolve (p : pool) : pool :=
  match settled p with
  | Pending =>
      {| workerPool := workerPool p; results := results p;
         completedChunks := completedChunks p; threads := threads p;
         settled := Fulfilled (results p) |}
  | _ => p
  end.

Definition reject (message : jsstring) (p : pool) : pool :=
  match settled p with
  | Pending =>
      {| workerPool := workerPool p; results := results p;
         completedChunks := completedChunks p; threads := threads p;
         settled := Rejected message |}
  | _ => p
  end.

(** [workerPool.find((w) => !w.busy)] *)
Fixpoint find_free (workerPool : list bool) (id : nat) : option nat :=
  match workerPool with
  | [] => None
  | busy :: rest => if busy then find_free rest (S id) else Some id
  end.

Definition processNextChunk (chunkFiles : list jsstring) (p : pool) : pool :=
  if completedChunks p =? length chunkFiles then resolve p
  else
    match find_free (workerPool p) 0 with
    | None => p
    | Some availableWorker =>
        let chunkIndex := completedChunks p in
        match chunkFiles !! chunkIndex with
        | None => p
        | Some chunkPath =>
            {| workerPool := <[availableWorker:=true]> (workerPool p);
               results := results p;
               completedChunks := completedChunks p;
               threads := threads p ++
                 [{| slot := availableWorker; chunkIndex := chunkIndex;
                     chunkPath := chunkPath; stage := Spawned |}];
               settled := settled p |}
        end
    end.

Definition set_stage (k : nat) (s : phase) (p : pool) : pool :=
  {| workerPool := workerPool p; results := results p;
     completedChunks := completedChunks p;
     threads := alter (λ th, {| slot := slot th; chunkIndex := chunkIndex th;
                                chunkPath := chunkPath th; stage := s |}) k (threads p);
     settled := settled p |}.

(** [worker.on("message", ...)] for [{ success: true, sortedChunkPath }]. *)
Definition on_success (chunkFiles : list jsstring) (th : thread)
    (sortedChunkPath : jsstring) (p : pool) : pool :=
  processNextChunk chunkFiles
    {| workerPool := <[slot th:=false]> (workerPool p);
       results := array_set (results p) (chunkIndex th) sortedChunkPath;
       completedChunks := S (completedChunks p);
       threads := threads p;
       settled := settled p |}.

(** One step of the [k]-th worker thread. *)
Definition worker_step (chunkFiles : list jsstring) (k : nat) (p : pool) : io pool :=
  λ fs,
    match threads p !! k with
    | None => Done fs p
    | Some th =>
        match stage th with
        | Spawned =>
            match SorterWorker.sortChunk_read (chunkPath th) fs with
            | Done fs' data => Done fs' (set_stage k (Loaded data) p)
            | Throw fs' message => Done fs' (reject message (set_stage k Exited p))
            | Unfinished => Unfinished
            end
        | Loaded data =>
            match SorterWorker.sortChunk_write (chunkPath th) data fs with
            | Done fs' sortedChunkPath =>
                Done fs' (on_success chunkFiles th sortedChunkPath (set_stage k Exited p))
            | Throw fs' message => Done fs' (reject message (set_stage k Exited p))
            | Unfinished => Unfinished
            end
        | Exited => Done fs p
        end
    end.

(** The event loop until the promise of [sortChunks] is settled: [schedule]
    names the worker thread that takes the next step.  The caller is resumed
    with the [results] array as it is when the promise is fulfilled.  Worker
    threads that are still running at that point are not followed further;
    with a single worker there is none. *)
Fixpoint run_pool (chunkFiles : list jsstring) (schedule : list nat) (p : pool)
    : io (list (option jsstring)) :=
  match settled p with
  | Fulfilled value => io_ret value
  | Rejected message => io_throw message
  | Pending =>
      match schedule with
      | [] => λ _, Unfinished
      | k :: rest =>
          do p' <- worker_step chunkFiles k p;
          run_pool chunkFiles rest p'
      end
  end.

Record options := { useWorkers : option bool; maxWorkers : option nat }.

(** The pool right after [for (...) processNextChunk()]. *)
Definition start_pool (chunkFiles : list jsstring) (maxWorkers : nat) : pool :=
  Nat.iter (Nat.min maxWorkers (length chunkFiles)) (processNextChunk chunkFiles)
    {| workerPool := replicate maxWorkers false; results := [];
       completedChunks := 0; threads := []; settled := Pending |}.

(** [sortChunks]; [cpus] is [require("os").cpus().length]. *)
Definition sortChunks (cpus : nat) (schedule : list nat)
    (chunkFiles : list jsstring) (opts : options) : io (list (option jsstring)) :=
  let useWorkers := default true (useWorkers opts) in
  let maxWorkers :=
    match maxWorkers opts with
    | Some n => if n =? 0 then Nat.max 1 (Nat.min 4 cpus) else n
    | None => Nat.max 1 (Nat.min 4 cpus)
    end in
  if negb useWorkers || (length chunkFiles <=? 1) then
    do sortedChunks <- sortChunks_sequential chunkFiles [];
    io_ret (Some <$> sortedChunks)
  else run_pool chunkFiles schedule (start_pool chunkFiles maxWorkers).
End Sorter.

(** ** merger.js: the merger *)

Module Merger.
(** An entry of [readers].  [lines] is what the async iterator [reader] has
    still to deliver: the lines the chunk had when it was opened. *)
Record reader := {
  path : jsstring;
  lines : list jsstring;
  current : option jsstring;
  done : bool;
}.

(** [const next = await reader.reader.next();
     reader.done = next.done;
     reader.current = next.done ? null : next.value;] *)
Definition advance (rd : reader) : reader :=
  match lines rd with
  | [] => {| path := path rd; lines := []; current := None; done := true |}
  | value :: rest =>
      {| path := path rd; lines := rest; current := Some value; done := false |}
  end.

(** [!reader.done && reader.current !== null] *)
Definition live (rd : reader) : bool :=
  negb (done rd) && match current rd with Some _ => true | None => false end.

(** [a.current] for a reference [a] into the store of readers. *)
Definition currentOf (readers : list reader) (a : nat) : option jsstring :=
  readers !! a ≫= current.

(** The comparator given to [new MinHeap(...)]. *)
Definition compareReaders (readers : list reader) (a b : nat) : Z :=
  match currentOf readers a, currentOf readers b with
  | None, None => 0
  | None, Some _ => 1
  | Some _, None => -1
  | Some x, Some y =>
      if str_lt x y then -1 else if str_lt y x then 1 else 0
  end%Z.

(** [fs.access(chunkPath, R_OK)]; it throws on [undefined], which the
    [catch] treats like an unreadable file. *)
Definition accessible (fs : filesystem) (chunkPath : option jsstring)
    : option jsstring :=
  match chunkPath with
  | Some p => match fs !! p with Some _ => Some p | None => None end
  | None => None
  end.

Definition open_reader (fs : filesystem) (chunkPath : jsstring) : reader :=
  {| path := chunkPath;
     lines := readline_lines (default [] (fs !! chunkPath));
     current := None;
     done := false |}.

(** [for (const reader of readers) if (live) heap.insert(reader)]: the heap
    holds references (indices) into [readers]. *)
Definition initial_heap (readers : list reader) : list nat :=
  foldl (λ heap i,
           match readers !! i with
           | Some rd =>
               if live rd then MinHeap.insert (compareReaders readers) heap i
               else heap
           | None => heap
           end) [] (seq 0 (length readers)).

(** The variables of the merge loop; [written] lists the lines given to
    [writeStream.write(line + "\n")], in order. *)
Record state := {
  readers : list reader;
  heap : list nat;
  written : list jsstring;
  linesWritten : nat;
}.

(** The body of [while (heap.size() > 0)]. *)
Definition loop_step (st : state) : state :=
  match MinHeap.extractMin (compareReaders (readers st)) (heap st) with
  | (Some r, heap') =>
      match readers st !! r with
      | Some rd =>
          let line := match current rd with
                      | Some l => l
                      | None => js "null"
                      end in
          let rd' := advance rd in
          let readers' := <[r:=rd']> (readers st) in
          {| readers := readers';
             heap := if live rd'
                     then MinHeap.insert (compareReaders readers') heap' r
                     else heap';
             written := written st ++ [line];
             linesWritten := S (linesWritten st) |}
      | None => st
      end
  | (None, _) => st
  end.

Fixpoint loop (fuel : nat) (st : state) : state :=
  match fuel with
  | 0 => st
  | S fuel' =>
      if 0 <? MinHeap.size (heap st) then loop fuel' (loop_step st) else st
  end.

(** What a reader has not yet handed to the output: its current line and
    the lines its iterator has still to deliver. *)
Definition remaining (rd : reader) : list jsstring :=
  option_list (current rd) ++ lines rd.

(** The number of lines the readers still hold: every iteration of the loop
    consumes one, so this much fuel lets the loop run until the heap is
    empty (see [loop_runs_to_end]). *)
Definition pending (readers : list reader) : nat :=
  sum_list_with (λ rd, length (remaining rd)) readers.

(** The state in which the loop is entered: the readers are opened and
    primed with their first line, the live ones are in the heap. *)
Definition start (fs : filesystem) (existingChunks : list jsstring) : state :=
  let readers := advance <$> (open_reader fs <$> existingChunks) in
  {| readers := readers; heap := initial_heap readers;
     written := []; linesWritten := 0 |}.

(** From the readers being opened to the end of the loop. *)
Definition run (fs : filesystem) (existingChunks : list jsstring) : state :=
  let st := start fs existingChunks in
  loop (pending (readers st)) st.

(** [_kWayMerge].  The function has no [return]: its promise is fulfilled
    with [undefined]; [linesWritten] only goes to the log. *)
Definition _kWayMerge (sortedChunks : list (option jsstring))
    (outputFile : jsstring) : io jsvalue :=
  λ fs,
    let existingChunks := omap (accessible fs) sortedChunks in
    if length existingChunks =? 0
    then Throw fs (js "no valid chunk files found for merging")
    else
      let st := run fs existingChunks in
      let fs := <[outputFile:=lines_content (written st)]> fs in
      let fs := foldl (λ fs chunkPath, delete chunkPath fs) fs existingChunks in
      Done fs undefined.

(** [fs.rename(from, to)] *)
Definition rename (from : option jsstring) (to : jsstring) : io () :=
  λ fs, match from with
        | Some p =>
            match fs !! p with
            | Some data => Done (<[to:=data]> (delete p fs)) ()
            | None => Throw fs (ENOENT p)
            end
        | None =>
            Throw fs (js "The 'old' argument must be of type string")
        end.

Definition mergedChunkPath (tempDir : jsstring) (levelIndex group : nat) : jsstring :=
  path_join tempDir
    (js "merged_level" ++ String_of_nat levelIndex ++ js "_group"
       ++ String_of_nat group ++ js ".txt").

(** The [for] loop of one level of [_hierarchicalMerge]. *)
Fixpoint level_loop (fuel : nat) (tempDir : jsstring) (maxOpenFiles levelIndex i : nat)
    (currentLevel nextLevel : list (option jsstring))
    : io (list (option jsstring)) :=
  if i <? length currentLevel then
    match fuel with
    | 0 => λ _, Unfinished
    | S fuel' =>
        let group := slice currentLevel i (i + maxOpenFiles) in
        if (length group =? 1) && (length currentLevel <=? i + maxOpenFiles) then
          level_loop fuel' tempDir maxOpenFiles levelIndex (i + maxOpenFiles)
            currentLevel (nextLevel ++ [mjoin (group !! 0)])
        else
          let merged := mergedChunkPath tempDir levelIndex (i / maxOpenFiles) in
          do _ <- _kWayMerge group merged;
          level_loop fuel' tempDir maxOpenFiles levelIndex (i + maxOpenFiles)
            currentLevel (nextLevel ++ [Some merged])
    end
  else io_ret nextLevel.

(** The [while (currentLevel.length > 1)] loop; it returns the last level
    and the number of levels it went through. *)
Fixpoint levels_loop (fuel : nat) (tempDir : jsstring) (maxOpenFiles levelIndex : nat)
    (currentLevel : list (option jsstring))
    : io (list (option jsstring) * nat) :=
  if 1 <? length currentLevel then
    match fuel with
    | 0 => λ _, Unfinished
    | S fuel' =>
        let levelIndex := S levelIndex in
        do nextLevel <- level_loop (length currentLevel) tempDir maxOpenFiles
                          levelIndex 0 currentLevel [];
        levels_loop fuel' tempDir maxOpenFiles levelIndex nextLevel
    end
  else io_ret (currentLevel, levelIndex).

(** [_hierarchicalMerge], with the fuel of its outer loop. *)
Definition _hierarchicalMerge (fuel : nat) (sortedChunks : list (option jsstring))
    (outputFile : jsstring) (maxOpenFiles : nat) : io jsvalue :=
  match sortedChunks !! 0 with
  | Some (Some first) =>
      let tempDir := path_dirname first in
      do last <- levels_loop fuel tempDir maxOpenFiles 0 sortedChunks;
      let currentLevel := last.1 in
      if (length currentLevel =? 1)
         && negb (bool_decide (mjoin (currentLevel !! 0) = Some outputFile))
      then do _ <- rename (mjoin (currentLevel !! 0)) outputFile; io_ret undefined
      else io_ret undefined
  | _ => io_throw (js "The 'path' argument must be of type string")
  end.

(** [merge]; [options_maxOpenFiles] is [options.maxOpenFiles]. *)
Definition merge (sortedChunks : list (option jsstring)) (outputFile : jsstring)
    (options_maxOpenFiles : option nat) : io jsvalue :=
  let maxOpenFiles := match options_maxOpenFiles with
                      | Some n => if n =? 0 then 100 else n
                      | None => 100
                      end in
  if length sortedChunks <=? maxOpenFiles then
    do _ <- _kWayMerge sortedChunks outputFile; io_ret undefined
  else
    do _ <- _hierarchicalMerge (length sortedChunks) sortedChunks outputFile maxOpenFiles;
    io_ret undefined.
End Merger.

(** ** utils.js *)

Module Utils.
(** [p] names a file directly inside [dir], for [dir] and [p] given as
    absolute paths in normal form. *)
Definition in_directory (dir p : jsstring) : bool :=
  startsWith p (dir ++ [SEP])
  && (0 <? length (drop (length dir + 1) p))
  && forallb (λ c, negb (c =? SEP)%N) (drop (length dir + 1) p).

(** [createTempDir]: [mkdir] with [recursive: true], for a directory that
    can be created or exists already. *)
Definition createTempDir (tempDir : jsstring) : io jsstring := io_ret tempDir.

(** [cleanupTempDir]: every file of the directory is unlinked; nothing is
    thrown. *)
Definition cleanupTempDir (tempDir : jsstring) : io () :=
  λ fs, Done (filter (λ entry, in_directory tempDir entry.1 = false) fs) ().
End Utils.

(** ** index.js *)

Record environment := {
  cwd : jsstring;      (* [process.cwd()] *)
  cpus : nat;          (* [require("os").cpus().length] *)
}.

Record sort_options := {
  maxMemoryBytes : option N;
  tempDir : option jsstring;
  cleanup : option bool;
}.

(** [externalSort]; [schedule] is the order in which the worker threads of
    the sorting step take their steps. *)
Definition externalSort (env : environment) (schedule : list nat)
    (inputFile outputFile : jsstring) (options : sort_options) : io jsvalue :=
  let opts_maxMemoryBytes := default (400 * 1024 * 1024)%N (maxMemoryBytes options) in
  let opts_tempDir := default (path_join (cwd env) (js "temp_sort")) (tempDir options) in
  let opts_cleanup := default true (cleanup options) in
  do tempDir <- Utils.createTempDir opts_tempDir;
  let splitter := Splitter.constructor (Some opts_maxMemoryBytes) in
  do chunkFiles <- Splitter.split splitter inputFile tempDir;
  do sortedChunks <- Sorter.sortChunks (cpus env) schedule chunkFiles
                       {| Sorter.useWorkers := None; Sorter.maxWorkers := None |};
  do _ <- Merger.merge sortedChunks outputFile None;
  do _ <- (if opts_cleanup then Utils.cleanupTempDir tempDir else io_ret ());
  io_ret undefined.

(** ** Predicates used in the statements *)

(** Non-decreasing under [str_lt]: every line is at most every later one. *)
Definition nondecreasing (lines : list jsstring) : Prop :=
  StronglySorted str_le lines.

Section HeapOrder.
Context {A : Type} (compareFn : A → A → Z).

(** [x] is not after [y]: the comparator does not put [y] strictly first. *)
Definition heap_le (x y : A) : Prop := ¬ (compareFn y x < 0)%Z.

(** The heap property of the array: no slot is strictly before its parent. *)
Definition heap_ordered (heap : list A) : Prop :=
  ∀ j x y, 0 < j → heap !! j = Some y → heap !! MinHeap.parent j = Some x →
           heap_le x y.

(** The heap property with the slot [k] possibly before its parent, as it
    holds while [_siftUp] moves that slot up. *)
Definition sift_up_inv (heap : list A) (k : nat) : Prop :=
  (∀ j x y, 0 < j → j ≠ k → heap !! j = Some y →
            heap !! MinHeap.parent j = Some x → heap_le x y)
  ∧ (∀ c x y, 0 < k → 0 < c → MinHeap.parent c = k → heap !! c = Some y →
              heap !! MinHeap.parent k = Some x → heap_le x y).

(** The heap property with the slot [k] possibly after its children, as it
    holds while [_siftDown] moves that slot down. *)
Definition sift_down_inv (heap : list A) (k : nat) : Prop :=
  (∀ j x y, 0 < j → MinHeap.parent j ≠ k → heap !! j = Some y →
            heap !! MinHeap.parent j = Some x → heap_le x y)
  ∧ (∀ c x y, 0 < k → 0 < c → MinHeap.parent c = k → heap !! c = Some y →
              heap !! MinHeap.parent k = Some x → heap_le x y).
End HeapOrder.

(** ** Other orders on strings *)

(** The code points of a string: a high surrogate followed by a low one
    stands for one code point from U+10000 on. *)
Fixpoint code_points (s : jsstring) : list N :=
  match s with
  | [] => []
  | c :: rest =>
      if ((55296 <=? c) && (c <? 56320))%N then
        match rest with
        | d :: rest' =>
            if ((56320 <=? d) && (d <? 57344))%N
            then (65536 + (c - 55296) * 1024 + (d - 56320))%N :: code_points rest'
            else c :: code_points rest
        | [] => [c]
        end
      else c :: code_points rest
  end.

(** The UTF-8 bytes of a code point (a lone surrogate is encoded as U+FFFD),
    and of a string. *)
Definition utf8_of_code_point (p : N) : list N :=
  let p := if ((55296 <=? p) && (p <? 57344))%N then 65533%N else p in
  if (p <? 128)%N then [p]
  else if (p <? 2048)%N then [192 + p / 64; 128 + p mod 64]%N
  else if (p <? 65536)%N
       then [224 + p / 4096; 128 + (p / 64) mod 64; 128 + p mod 64]%N
  else [240 + p / 262144; 128 + (p / 4096) mod 64; 128 + (p / 64) mod 64;
        128 + p mod 64]%N.

Definition utf8 (s : jsstring) : list N :=
  concat (utf8_of_code_point <$> code_points s).

(** Non-decreasing for the lexicographic order of the code points, and of
    the UTF-8 bytes. *)
Definition code_point_nondecreasing (lines : list jsstring) : Prop :=
  StronglySorted (λ a b, str_lt (code_points b) (code_points a) = false) lines.

Definition byte_nondecreasing (lines : list jsstring) : Prop :=
  StronglySorted (λ a b, str_lt (utf8 b) (utf8 a) = false) lines.

(** A chunk holding the line U+FF5E and a chunk holding the line U+1F600
    (the surrogate pair D83D DE00). *)
Definition astral_chunks : list (option jsstring) :=
  [Some (js "tmp/chunk_000000.sorted.txt"); Some (js "tmp/chunk_000001.sorted.txt")].

Definition astral_chunks_fs : filesystem :=
  <[js "tmp/chunk_000000.sorted.txt" := lines_content [[65374%N]]]>
    (<[js "tmp/chunk_000001.sorted.txt" := lines_content [[55357%N; 56832%N]]]> ∅).

(** ** Invariants of the merge loop *)

(** The states the merge loop goes through, from the state it is entered in. *)
Inductive merge_reachable (fs : filesystem) (existingChunks : list jsstring)
    : Merger.state → Prop :=
| reachable_start :
    merge_reachable fs existingChunks (Merger.start fs existingChunks)
| reachable_step st :
    merge_reachable fs existingChunks st →
    Merger.heap st ≠ [] →
    merge_reachable fs existingChunks (Merger.loop_step st).

(** The heap holds every reader at most once, only live readers, and is
    ordered by the current lines. *)
Definition heap_inv (st : Merger.state) : Prop :=
  NoDup (Merger.heap st)
  ∧ (∀ r, r ∈ Merger.heap st →
          ∃ rd l, Merger.readers st !! r = Some rd
                  ∧ Merger.current rd = Some l ∧ Merger.done rd = false)
  ∧ heap_ordered (Merger.compareReaders (Merger.readers st)) (Merger.heap st).

(** What every reader still holds is non-decreasing, what was written is
    non-decreasing and not after any current line in the heap. *)
Definition order_inv (st : Merger.state) : Prop :=
  (∀ r rd, Merger.readers st !! r = Some rd → nondecreasing (Merger.remaining rd))
  ∧ nondecreasing (Merger.written st)
  ∧ (∀ w r rd l, w ∈ Merger.written st → r ∈ Merger.heap st →
                 Merger.readers st !! r = Some rd → Merger.current rd = Some l →
                 str_le w l).

(** A reader outside the heap has nothing left, and the counter counts the
    lines written. *)
Definition drain_inv (st : Merger.state) : Prop :=
  (∀ r rd, Merger.readers st !! r = Some rd → r ∉ Merger.heap st →
           Merger.remaining rd = [])
  ∧ Merger.linesWritten st = length (Merger.written st).

(** The chunk, if it can be read, holds non-decreasing lines. *)
Definition chunk_sorted (fs : filesystem) (chunkPath : option jsstring) : Prop :=
  match chunkPath with
  | Some p =>
      match fs !! p with
      | Some data => nondecreasing (readline_lines data)
      | None => True
      end
  | None => True
  end.

(** ** Concrete inputs used in examples *)

(** Three sorted chunks holding the lines (a, d), (b, e) and (c, f). *)
Definition three_chunks : list (option jsstring) :=
  [Some (js "tmp/chunk_000000.sorted.txt");
   Some (js "tmp/chunk_000001.sorted.txt");
   Some (js "tmp/chunk_000002.sorted.txt")].

Definition three_chunks_fs : filesystem :=
  <[js "tmp/chunk_000000.sorted.txt" := lines_content [js "a"; js "d"]]>
    (<[js "tmp/chunk_000001.sorted.txt" := lines_content [js "b"; js "e"]]>
       (<[js "tmp/chunk_000002.sorted.txt" := lines_content [js "c"; js "f"]]> ∅)).

(** The number of groups of at most [m] chunks that [n] chunks are cut into. *)
Definition groups (n m : nat) : nat := (n + m - 1) / m.

(** ** Predicates about the splitter *)

(** The byte size the splitter accumulates for a buffer of lines: the UTF-8
    length of every line with its separator. *)
Definition chunk_bytes (chunk : list jsstring) : N :=
  foldr (λ line acc, byteLength (line ++ [LF]) + acc)%N 0%N chunk.

(** The counter of [split] is the size of the buffer, and a buffer that is
    kept is below the threshold. *)
Definition buffer_inv (self : Splitter.t) (st : Splitter.state) : Prop :=
  Splitter.currentChunkSize st = chunk_bytes (Splitter.linesBuffer st)
  ∧ (Splitter.linesBuffer st ≠ [] →
     (Splitter.currentChunkSize st < Splitter.chunkSizeBytes self)%N).

(** ** Predicates about paths *)


(** What the two chunk sorters write for a chunk holding [data]. *)
Definition inline_sorted_content (data : jsstring) : jsstring :=
  lines_content (Sorter.sortLines (readline_lines data)).

Definition worker_sorted_content (data : jsstring) : jsstring :=
  join [LF]
    (array_sort compareLines
       (filter (λ line, 0 < length (trim line)) (split LF data)))
  ++ [LF].

(** A chunk in a directory whose name holds ".txt", alone, and beside a
    directory with the name that [replace] gives. *)
Definition directory_chunk_fs : filesystem :=
  {[ js "/data/a.txt/chunk_000000.txt" := lines_content [js "b"; js "a"] ]}.


(** A chunk beside a directory that has the name of its sorted file. *)
Definition sorted_directory_fs : filesystem :=
  {[ js "/data/b.txt" := lines_content [js "b"; js "a"];
     js "/data/b.sorted.txt/keep" := lines_content [js "x"] ]}.

(** A chunk with a blank line between two lines, and a chunk of blank lines. *)
Definition blank_line_chunk_fs : filesystem :=
  {[ js "tmp/chunk_000000.txt" := lines_content [js "b"; js ""; js "a"] ]}.

Definition blank_chunk_fs : filesystem :=
  {[ js "tmp/chunk_000000.txt" := lines_content [js ""; js "  "] ]}.

(** ** Predicates and inputs about the pipeline *)

(** The lines of a file that are not blank. *)
Definition nonblank_lines (data : jsstring) : list jsstring :=
  filter (λ line, 0 < length (trim line)) (readline_lines data).

(** Two unsorted chunks of one line each, as [split] leaves them. *)
Definition two_chunk_files : list jsstring :=
  [js "tmp/chunk_000000.txt"; js "tmp/chunk_000001.txt"].

Definition two_chunks_fs : filesystem :=
  <[js "tmp/chunk_000000.txt" := lines_content [js "b"]]>
    (<[js "tmp/chunk_000001.txt" := lines_content [js "a"]]> ∅).

(** A host with two processors, and the options of a run whose memory budget
    makes every line a chunk of its own. *)
Definition two_cpus : environment := {| cwd := js "/work"; cpus := 2 |}.

Definition default_options : sort_options :=
  {| maxMemoryBytes := None; tempDir := None; cleanup := None |}.

Definition tiny_budget : sort_options :=
  {| maxMemoryBytes := Some 2%N; tempDir := None; cleanup := None |}.

(** An input of the two lines b and a, and an empty input. *)
Definition two_lines_fs : filesystem :=
  {[ js "in.txt" := lines_content [js "b"; js "a"] ]}.

Definition empty_input_fs : filesystem := {[ js "in.txt" := [] ]}.

(** A line as [readline] delivers it: without a line terminator. *)
Definition no_eol (line : jsstring) : Prop :=
  Forall (λ c, c ≠ LF ∧ c ≠ CR) line.

(** What the readers of a merge hold together. *)
Definition held (readers : list Merger.reader) : list jsstring :=
  concat (Merger.remaining <$> readers).

(** ** Predicates about the sort scheduler *)

(** [chunkPath.replace(".txt", ".sorted.txt")], the path both chunk sorters
    write to. *)
Definition sorted_path (chunkPath : jsstring) : jsstring :=
  replace chunkPath (js ".txt") (js ".sorted.txt").

(** The pool of a single worker between two completions: [k] chunks are
    sorted, their results are in their slots, their threads have exited, and
    the worker is busy with the chunk of index [k]. *)
Definition one_worker_inv (chunkFiles : list jsstring) (p : Sorter.pool) : Prop :=
  ∃ k chunkPath s,
    chunkFiles !! k = Some chunkPath
    ∧ Sorter.completedChunks p = k
    ∧ Sorter.settled p = Sorter.Pending
    ∧ Sorter.workerPool p = [true]
    ∧ Sorter.results p = Some <$> (sorted_path <$> take k chunkFiles)
    ∧ length (Sorter.threads p) = S k
    ∧ (∀ j th, j < k → Sorter.threads p !! j = Some th → Sorter.stage th = Sorter.Exited)
    ∧ Sorter.threads p !! k
      = Some {| Sorter.slot := 0; Sorter.chunkIndex := k;
                Sorter.chunkPath := chunkPath; Sorter.stage := s |}
    ∧ s ≠ Sorter.Exited.

(** ** Predicates about the chunks of the splitter *)

(** The number a string of decimal digits stands for. *)
Definition decimal_value (digits : jsstring) : N :=
  foldl (λ acc c, acc * 10 + (c - 48))%N 0%N digits.

(** The file system [fs] holds the chunks [chunks], in this order, at the
    chunk paths of [tempDir], and is [fs0] everywhere else. *)
Definition chunks_written (tempDir : jsstring) (fs0 fs : filesystem)
    (chunks : list (list jsstring)) : Prop :=
  Forall (λ chunk, chunk ≠ []) chunks
  ∧ (∀ i chunk, chunks !! i = Some chunk →
       fs !! Splitter._getChunkPath tempDir i = Some (lines_content chunk))
  ∧ (∀ q, (∀ i, i < length chunks → q ≠ Splitter._getChunkPath tempDir i) →
       fs !! q = fs0 !! q).

(** The variables of [split] after the lines [processed]. *)
Definition split_inv (tempDir : jsstring) (fs0 : filesystem)
    (processed : list jsstring) (fs : filesystem) (st : Splitter.state)
    (chunks : list (list jsstring)) : Prop :=
  chunks_written tempDir fs0 fs chunks
  ∧ concat chunks ++ Splitter.linesBuffer st = processed
  ∧ Splitter.chunkIndex st = length chunks
  ∧ Splitter.chunkFiles st = Splitter._getChunkPath tempDir <$> seq 0 (length chunks).

(** ** Predicates about the content of chunk files *)

(** A file as [_writeChunk] writes it: lines without a terminator inside,
    each followed by a line feed. *)
Definition chunk_data (data : jsstring) : Prop :=
  ∃ lines, data = lines_content lines ∧ Forall no_eol lines.

(** Such a file with its lines in non-decreasing order. *)
Definition sorted_chunk_data (data : jsstring) : Prop :=
  ∃ lines, data = lines_content lines ∧ Forall no_eol lines ∧ nondecreasing lines.

(** The worker pool and the files while the workers run: the chunk files are
    as the splitter wrote them, the files named in [results] are sorted, and
    a worker holds the data of a chunk file. *)
Definition pool_inv (chunkFiles : list jsstring) (p : Sorter.pool)
    (fs : filesystem) : Prop :=
  (∀ chunkPath data, chunkPath ∈ chunkFiles → fs !! chunkPath = Some data →
     chunk_data data)
  ∧ (∀ sortedChunkPath data, Some sortedChunkPath ∈ Sorter.results p →
       fs !! sortedChunkPath = Some data → sorted_chunk_data data)
  ∧ (∀ th, th ∈ Sorter.threads p →
       Sorter.chunkPath th ∈ chunkFiles
       ∧ ∀ data, Sorter.stage th = Sorter.Loaded data → chunk_data data)
  ∧ (∀ value, Sorter.settled p = Sorter.Fulfilled value → value = Sorter.results p).

(** ** Predicates about the levels of the hierarchical merge *)



Definition is_digit (c : N) : Prop := (48 ≤ c ≤ 57)%N.




(** ** Predicates about the files of a single worker *)

(** The files while a single worker goes through the chunks, from the file
    system [fs0]: the chunks that are completed are replaced by their sorted
    files, the others are as they were, and the data the worker holds is that
    of its chunk. *)
Definition one_worker_files (chunkFiles : list jsstring) (fs0 : filesystem)
    (p : Sorter.pool) (fs : filesystem) : Prop :=
  (∀ i q, i < Sorter.completedChunks p → chunkFiles !! i = Some q →
     ∃ data, fs0 !! q = Some data
             ∧ fs !! q = None
             ∧ fs !! sorted_path q = Some (worker_sorted_content data))
  ∧ (∀ i q, Sorter.completedChunks p ≤ i → chunkFiles !! i = Some q →
       fs !! q = fs0 !! q)
  ∧ (∀ th data, Sorter.threads p !! Sorter.completedChunks p = Some th →
       Sorter.stage th = Sorter.Loaded data →
       fs0 !! Sorter.chunkPath th = Some data).

(** ** Predicates about the paths of a run *)



(** ** Predicates about the environment of a run *)








(** ** Inputs named by absolute paths *)









(** * Properties *)

(** ** The order on strings *)

Lemma str_lt_irrefl a : str_lt a a = false.
Proof. induction a as [|x a IH]; simpl; [done|]. by rewrite N.ltb_irrefl. Qed.

Lemma str_lt_asym a b : str_lt a b = true → str_lt b a = false.
Proof.
  revert b; induction a as [|x a IH]; intros [|y b]; simpl; try done.
  destruct (N.ltb_spec x y), (N.ltb_spec y x); intros; try done; try lia.
  by apply IH.
Qed.

Lemma str_le_trans a b c : str_le a b → str_le b c → str_le a c.
Proof.
  unfold str_le. revert b c; induction a as [|x a IH]; intros [|y b] [|z c];
    simpl; try done.
  destruct (N.ltb_spec y x), (N.ltb_spec x y), (N.ltb_spec z y),
    (N.ltb_spec y z), (N.ltb_spec z x), (N.ltb_spec x z);
    intros; try done; try lia.
  by eapply IH.
Qed.

Lemma str_le_antisym a b : str_le a b → str_le b a → a = b.
Proof.
  unfold str_le. revert b; induction a as [|x a IH]; intros [|y b]; simpl; try done.
  destruct (N.ltb_spec x y), (N.ltb_spec y x); intros; try done; try lia.
  f_equal; [lia | by apply IH].
Qed.

Lemma str_le_refl a : str_le a a.
Proof. apply str_lt_irrefl. Qed.

Lemma str_le_total a b : str_le a b ∨ str_le b a.
Proof.
  unfold str_le. destruct (str_lt b a) eqn:E; [right | by left].
  by apply str_lt_asym.
Qed.

Lemma compareLines_lt a b : (compareLines a b < 0)%Z ↔ str_lt a b = true.
Proof. unfold compareLines. repeat case_match; split; (done || lia). Qed.

Lemma compareLines_le a b : (compareLines a b ≤ 0)%Z ↔ str_le a b.
Proof.
  unfold compareLines, str_le. destruct (str_lt a b) eqn:E1.
  - apply str_lt_asym in E1. rewrite E1. split; (done || lia).
  - destruct (str_lt b a); split; (done || lia).
Qed.

(** ** The binary heap *)

Lemma parent_lt j : 0 < j → MinHeap.parent j < j.
Proof.
  unfold MinHeap.parent. intros.
  pose proof (Nat.div_mod_eq (j - 1) 2). pose proof (Nat.mod_upper_bound (j - 1) 2).
  lia.
Qed.

Lemma parent_spec j k :
  0 < j → MinHeap.parent j = k ↔ (j = 2 * k + 1 ∨ j = 2 * k + 2).
Proof.
  unfold MinHeap.parent. intros.
  pose proof (Nat.div_mod_eq (j - 1) 2). pose proof (Nat.mod_upper_bound (j - 1) 2).
  lia.
Qed.

Section MinHeapFacts.
Context {A : Type} (compareFn : A → A → Z).
Hypothesis compareFn_asym :
  ∀ x y, (compareFn x y < 0)%Z → ¬ (compareFn y x < 0)%Z.
Hypothesis compareFn_trans :
  ∀ x y z, heap_le compareFn x y → heap_le compareFn y z → heap_le compareFn x z.

Local Abbreviation le := (heap_le compareFn).
Local Abbreviation ordered := (heap_ordered compareFn).

Lemma heap_lt_le x y : (compareFn x y < 0)%Z → le x y.
Proof. apply compareFn_asym. Qed.

Lemma heap_lt_trans x y z :
  (compareFn x y < 0)%Z → (compareFn y z < 0)%Z → (compareFn x z < 0)%Z.
Proof.
  intros Hxy Hyz. destruct (Z.lt_ge_cases (compareFn x z) 0) as [|Hge]; [done|].
  exfalso. assert (le z x) as Hzx by (unfold heap_le; lia).
  by apply (compareFn_trans z x y Hzx (heap_lt_le _ _ Hxy)).
Qed.

(** *** Swapping two slots *)

Lemma swap_length (h : list A) i j : length (MinHeap.swap h i j) = length h.
Proof.
  unfold MinHeap.swap. repeat case_match; try done. by rewrite !length_insert.
Qed.

Lemma swap_lookup (h : list A) i j x y k :
  h !! i = Some x → h !! j = Some y →
  MinHeap.swap h i j !! k =
    if decide (k = j) then Some x else if decide (k = i) then Some y else h !! k.
Proof.
  intros Hi Hj. unfold MinHeap.swap. rewrite Hi, Hj.
  pose proof (lookup_lt_Some _ _ _ Hi). pose proof (lookup_lt_Some _ _ _ Hj).
  destruct (decide (k = j)) as [->|].
  { rewrite list_lookup_insert_eq; [done | by rewrite length_insert]. }
  rewrite list_lookup_insert_ne by done.
  destruct (decide (k = i)) as [->|].
  { by rewrite list_lookup_insert_eq. }
  by rewrite list_lookup_insert_ne.
Qed.

Lemma swap_perm (h : list A) i j : MinHeap.swap h i j ≡ₚ h.
Proof.
  unfold MinHeap.swap. destruct (h !! i) eqn:Hi, (h !! j) eqn:Hj; try done.
  by apply Permutation_insert_swap.
Qed.

(** *** Sifting up *)

Lemma sift_up_inv_swap (h : list A) k x p :
  0 < k → h !! k = Some x → h !! MinHeap.parent k = Some p →
  (compareFn x p < 0)%Z →
  sift_up_inv compareFn h k →
  sift_up_inv compareFn (MinHeap.swap h k (MinHeap.parent k)) (MinHeap.parent k).
Proof.
  intros Hpos Hx Hp Hlt [H1 H2].
  pose proof (parent_lt k Hpos) as Hpk.
  assert (le x p) as Hxp by by apply heap_lt_le.
  split.
  - intros j a b Hj Hne. rewrite !(swap_lookup h k _ x p) by done.
    rewrite decide_False by done.
    destruct (decide (j = k)) as [->|Hjk].
    + rewrite decide_True by done. by intros [= <-] [= <-].
    + intros Hb. destruct (decide (MinHeap.parent j = MinHeap.parent k)) as [Hpar|Hpar].
      * intros [= <-]. apply (compareFn_trans x p b Hxp).
        apply (H1 j); [done | done | done | by rewrite Hpar].
      * destruct (decide (MinHeap.parent j = k)) as [Hpar'|Hpar'].
        -- intros [= <-]. by apply (H2 j).
        -- intros Ha. by apply (H1 j).
  - intros c a b Hpos' Hc Hpar. rewrite !(swap_lookup h k _ x p) by done.
    pose proof (parent_lt c Hc). pose proof (parent_lt _ Hpos').
    rewrite (decide_False (P := c = _)) by lia.
    rewrite (decide_False (P := MinHeap.parent (MinHeap.parent k) = MinHeap.parent k)) by lia.
    rewrite (decide_False (P := MinHeap.parent (MinHeap.parent k) = k)) by lia.
    intros Hb Ha.
    assert (le a p) as Hap by (apply (H1 (MinHeap.parent k)); [done | lia | done | done]).
    destruct (decide (c = k)) as [->|Hck].
    + by injection Hb as <-.
    + apply (compareFn_trans a p b Hap).
      apply (H1 c); [done | done | done | by rewrite Hpar].
Qed.

Lemma siftUp_loop_ordered fuel : ∀ (h : list A) k,
  k ≤ fuel → k < length h → sift_up_inv compareFn h k →
  ordered (MinHeap._siftUp_loop compareFn fuel h k).
Proof.
  induction fuel as [|fuel IH]; intros h k Hfuel Hk Hinv; simpl.
  - assert (k = 0) as -> by lia. destruct Hinv as [H1 _].
    intros j x y Hj. apply H1; [done | lia].
  - destruct (Nat.ltb_spec 0 k) as [Hpos|]; last first.
    { assert (k = 0) as -> by lia. destruct Hinv as [H1 _].
      intros j x y Hj. apply H1; [done | lia]. }
    pose proof (parent_lt k Hpos) as Hpk.
    destruct (lookup_lt_is_Some_2 h k Hk) as [x Hx].
    destruct (lookup_lt_is_Some_2 h (MinHeap.parent k) ltac:(lia)) as [p Hp].
    rewrite Hx, Hp.
    destruct (Z.ltb_spec (compareFn x p) 0) as [Hlt|Hge].
    + apply IH; [lia | rewrite swap_length; lia |].
      by apply (sift_up_inv_swap h k x p).
    + destruct Hinv as [H1 _]. intros j a b Hj Hb Ha.
      destruct (decide (j = k)) as [->|]; [|by apply (H1 j)].
      simplify_eq. unfold heap_le. lia.
Qed.

Lemma siftUp_loop_perm fuel : ∀ (h : list A) k,
  MinHeap._siftUp_loop compareFn fuel h k ≡ₚ h.
Proof.
  induction fuel as [|fuel IH]; intros h k; simpl; [done|].
  repeat case_match; try done. by rewrite IH, swap_perm.
Qed.

(** The fuel given by [_siftUp] is never the reason the loop stops. *)
Lemma siftUp_loop_fuel_irrel fuel : ∀ fuel' (h : list A) k,
  k ≤ fuel → k ≤ fuel' →
  MinHeap._siftUp_loop compareFn fuel h k
  = MinHeap._siftUp_loop compareFn fuel' h k.
Proof.
  induction fuel as [|fuel IH]; intros fuel' h k Hk Hk'.
  - assert (k = 0) as -> by lia. by destruct fuel'.
  - destruct fuel' as [|fuel'].
    { by assert (k = 0) as -> by lia. }
    simpl. destruct (Nat.ltb_spec 0 k) as [Hpos|]; [|done].
    pose proof (parent_lt k Hpos).
    repeat case_match; try done. apply IH; lia.
Qed.

Lemma _siftUp_loop_fuel fuel (h : list A) k :
  k ≤ fuel →
  MinHeap._siftUp_loop compareFn fuel h k = MinHeap._siftUp compareFn h k.
Proof. intros. by apply siftUp_loop_fuel_irrel. Qed.

Lemma insert_ordered (h : list A) x :
  ordered h → ordered (MinHeap.insert compareFn h x).
Proof.
  intros Hord. unfold MinHeap.insert, MinHeap._siftUp.
  rewrite length_app. simpl. replace (length h + 1 - 1) with (length h) by lia.
  apply siftUp_loop_ordered; [done | rewrite length_app; simpl; lia |].
  split.
  - intros j a b Hj Hne Hb Ha.
    pose proof (lookup_lt_Some _ _ _ Hb) as Hlen. rewrite length_app in Hlen.
    simpl in Hlen. pose proof (parent_lt j Hj).
    rewrite lookup_app_l in Hb by lia. rewrite lookup_app_l in Ha by lia.
    by apply (Hord j).
  - intros c a b _ Hc Hpar Hb _.
    pose proof (lookup_lt_Some _ _ _ Hb) as Hlen. rewrite length_app in Hlen.
    simpl in Hlen. pose proof (parent_lt c Hc). lia.
Qed.

Lemma insert_perm (h : list A) x : MinHeap.insert compareFn h x ≡ₚ x :: h.
Proof.
  unfold MinHeap.insert, MinHeap._siftUp. rewrite siftUp_loop_perm.
  by rewrite (comm (++)).
Qed.

(** *** Sifting down *)

Lemma heap_le_refl x : le x x.
Proof. intros H. by apply (compareFn_asym x x). Qed.

Lemma less_at_true (h : list A) i j :
  MinHeap.less_at compareFn h i j = true →
  ∃ x y, h !! i = Some x ∧ h !! j = Some y ∧ (compareFn x y < 0)%Z.
Proof.
  unfold MinHeap.less_at. destruct (h !! i) as [x|], (h !! j) as [y|]; try done.
  intros ?%Z.ltb_lt. eauto.
Qed.

Lemma less_at_false (h : list A) i j x y :
  MinHeap.less_at compareFn h i j = false →
  h !! i = Some x → h !! j = Some y → le y x.
Proof.
  unfold MinHeap.less_at, heap_le. intros H Hi Hj. rewrite Hi, Hj in H.
  apply Z.ltb_ge in H. lia.
Qed.

(** What [smallest_of] chooses. *)
Lemma smallest_of_spec (h : list A) k :
  let s := MinHeap.smallest_of compareFn h k in
  (s = k ∧ ∀ c x y, 0 < c → MinHeap.parent c = k →
                    h !! c = Some y → h !! k = Some x → le x y)
  ∨ (0 < s ∧ MinHeap.parent s = k ∧
     ∃ a b, h !! k = Some a ∧ h !! s = Some b ∧ (compareFn b a < 0)%Z ∧
            ∀ c y, 0 < c → MinHeap.parent c = k → h !! c = Some y → le b y).
Proof.
  unfold MinHeap.smallest_of.
  assert (∀ c, 0 < c → MinHeap.parent c = k → c = 2 * k + 1 ∨ c = 2 * k + 2)
    as Hchild by (intros c Hc; by apply parent_spec).
  assert (MinHeap.parent (2 * k + 1) = k) as Hpl by (apply parent_spec; lia).
  assert (MinHeap.parent (2 * k + 2) = k) as Hpr by (apply parent_spec; lia).
  destruct ((2 * k + 1 <? length h) && MinHeap.less_at compareFn h (2 * k + 1) k)
    eqn:El.
  - apply andb_true_iff in El as [_ (bl & a & Hl & Hk & Hla)%less_at_true].
    destruct ((2 * k + 2 <? length h)
              && MinHeap.less_at compareFn h (2 * k + 2) (2 * k + 1)) eqn:Er.
    + apply andb_true_iff in Er as [_ (br & bl' & Hr & Hl' & Hrl)%less_at_true].
      simplify_eq. right. split; [lia|]. split; [done|].
      exists a, br. split_and!; [done | done | by eapply heap_lt_trans |].
      intros c y Hc Hpc Hy; destruct (Hchild c Hc Hpc) as [->| ->]; simplify_eq.
      * by apply heap_lt_le.
      * apply heap_le_refl.
    + right. split; [lia|]. split; [done|].
      exists a, bl. split_and!; [done..|].
      intros c y Hc Hpc Hy; destruct (Hchild c Hc Hpc) as [->| ->]; simplify_eq; [apply heap_le_refl|].
      apply andb_false_iff in Er as [Er|Er].
      * apply Nat.ltb_ge in Er. apply lookup_lt_Some in Hy. lia.
      * by eapply less_at_false.
  - destruct ((2 * k + 2 <? length h)
              && MinHeap.less_at compareFn h (2 * k + 2) k) eqn:Er.
    + apply andb_true_iff in Er as [_ (br & a & Hr & Hk & Hra)%less_at_true].
      right. split; [lia|]. split; [done|].
      exists a, br. split_and!; [done..|].
      intros c y Hc Hpc Hy; destruct (Hchild c Hc Hpc) as [->| ->]; simplify_eq; [|apply heap_le_refl].
      apply (compareFn_trans br a y); [by apply heap_lt_le|].
      apply andb_false_iff in El as [El|El].
      * apply Nat.ltb_ge in El. apply lookup_lt_Some in Hy. lia.
      * by eapply less_at_false.
    + left. split; [done|].
      intros c x y Hc Hpc Hy Hx; destruct (Hchild c Hc Hpc) as [->| ->].
      * apply andb_false_iff in El as [El|El].
        -- apply Nat.ltb_ge in El. apply lookup_lt_Some in Hy. lia.
        -- by eapply less_at_false.
      * apply andb_false_iff in Er as [Er|Er].
        -- apply Nat.ltb_ge in Er. apply lookup_lt_Some in Hy. lia.
        -- by eapply less_at_false.
Qed.

Lemma sift_down_inv_swap (h : list A) k s a b :
  0 < s → MinHeap.parent s = k →
  h !! k = Some a → h !! s = Some b → (compareFn b a < 0)%Z →
  (∀ c y, 0 < c → MinHeap.parent c = k → h !! c = Some y → le b y) →
  sift_down_inv compareFn h k →
  sift_down_inv compareFn (MinHeap.swap h k s) s.
Proof.
  intros Hs Hpar Ha Hb Hlt Hmin [H1 H2].
  pose proof (parent_lt s Hs) as Hks. rewrite Hpar in Hks.
  split.
  - intros j u v Hj Hne. rewrite !(swap_lookup h k s a b) by done.
    pose proof (parent_lt j Hj) as Hpj.
    rewrite (decide_False (P := MinHeap.parent j = s)) by done.
    destruct (decide (j = s)) as [->|Hjs].
    + rewrite Hpar. rewrite decide_True by done. intros [= <-] [= <-].
      by apply heap_lt_le.
    + destruct (decide (j = k)) as [->|Hjk].
      * rewrite (decide_False (P := MinHeap.parent k = k)) by lia.
        intros [= <-] Hu. by apply (H2 s).
      * intros Hv. destruct (decide (MinHeap.parent j = k)) as [Hpjk|Hpjk].
        -- intros [= <-]. by apply (Hmin j).
        -- intros Hu. by apply (H1 j).
  - intros c u v _ Hc Hparc. rewrite !(swap_lookup h k s a b) by done.
    pose proof (parent_lt c Hc) as Hpc.
    rewrite (decide_False (P := c = s)) by lia.
    rewrite (decide_False (P := c = k)) by lia.
    rewrite Hpar. rewrite (decide_False (P := k = s)) by lia.
    rewrite decide_True by done. intros Hv [= <-].
    apply (H1 c); [done | lia | done | by rewrite Hparc].
Qed.

Lemma siftDown_fuel_ordered fuel : ∀ (h : list A) k,
  length h - k ≤ fuel → sift_down_inv compareFn h k →
  ordered (MinHeap._siftDown_fuel compareFn fuel h k).
Proof.
  induction fuel as [|fuel IH]; intros h k Hfuel Hinv; simpl.
  - destruct Hinv as [H1 _]. intros j x y Hj Hy Hx.
    destruct (decide (MinHeap.parent j = k)) as [<-|]; [|by apply (H1 j)].
    pose proof (parent_lt j Hj). apply lookup_lt_Some in Hy. lia.
  - destruct (smallest_of_spec h k) as [[-> Hmin]|(Hs & Hpar & a & b & Ha & Hb & Hlt & Hmin)].
    + rewrite Nat.eqb_refl. simpl. destruct Hinv as [H1 _].
      intros j x y Hj Hy Hx.
      destruct (decide (MinHeap.parent j = k)) as [<-|]; [|by apply (H1 j)].
      by apply (Hmin j).
    + pose proof (parent_lt _ Hs) as Hks. rewrite Hpar in Hks.
      rewrite (proj2 (Nat.eqb_neq _ _)) by lia. simpl.
      apply IH.
      * rewrite swap_length. apply lookup_lt_Some in Hb. lia.
      * by apply (sift_down_inv_swap h k _ a b).
Qed.

Lemma siftDown_fuel_perm fuel : ∀ (h : list A) k,
  MinHeap._siftDown_fuel compareFn fuel h k ≡ₚ h.
Proof.
  induction fuel as [|fuel IH]; intros h k; simpl; [done|].
  case_match; [|done]. by rewrite IH, swap_perm.
Qed.

(** The fuel given by [_siftDown] is never the reason the recursion stops. *)
Lemma siftDown_fuel_irrel fuel : ∀ fuel' (h : list A) k,
  length h - k ≤ fuel → length h - k ≤ fuel' →
  MinHeap._siftDown_fuel compareFn fuel h k
  = MinHeap._siftDown_fuel compareFn fuel' h k.
Proof.
  induction fuel as [|fuel IH]; intros fuel' h k Hk Hk'.
  - destruct fuel' as [|fuel']; [done|]. simpl.
    destruct (smallest_of_spec h k) as [[-> _]|(Hs & Hpar & a & b & Ha & Hb & _)].
    + by rewrite Nat.eqb_refl.
    + pose proof (parent_lt _ Hs). apply lookup_lt_Some in Hb. lia.
  - destruct fuel' as [|fuel']; simpl.
    + destruct (smallest_of_spec h k) as [[-> _]|(Hs & Hpar & a & b & Ha & Hb & _)].
      * by rewrite Nat.eqb_refl.
      * pose proof (parent_lt _ Hs). apply lookup_lt_Some in Hb. lia.
    + destruct (smallest_of_spec h k) as [[-> _]|(Hs & Hpar & a & b & Ha & Hb & _)].
      * by rewrite Nat.eqb_refl.
      * pose proof (parent_lt _ Hs) as Hks. rewrite Hpar in Hks.
        rewrite (proj2 (Nat.eqb_neq _ _)) by lia. simpl.
        apply lookup_lt_Some in Hb.
        apply IH; rewrite swap_length; lia.
Qed.

(** *** The root is a minimum *)

Lemma root_min (h : list A) m :
  ordered h → h !! 0 = Some m → ∀ j y, h !! j = Some y → le m y.
Proof.
  intros Hord Hm j. induction (lt_wf j) as [j _ IH]. intros y Hy.
  destruct (decide (j = 0)) as [->|Hj].
  { simplify_eq. apply heap_le_refl. }
  pose proof (parent_lt j ltac:(lia)) as Hpj.
  destruct (lookup_lt_is_Some_2 h (MinHeap.parent j)) as [x Hx].
  { apply lookup_lt_Some in Hy. lia. }
  apply (compareFn_trans m x y); [by apply (IH (MinHeap.parent j)) |].
  apply (Hord j); [lia | done | done].
Qed.

(** *** [extractMin] *)

Lemma extractMin_nil : MinHeap.extractMin compareFn (@nil A) = (None, []).
Proof. done. Qed.

Lemma extractMin_spec (h : list A) m :
  h !! 0 = Some m → ordered h →
  ∃ h', MinHeap.extractMin compareFn h = (Some m, h')
        ∧ ordered h' ∧ h ≡ₚ m :: h' ∧ ∀ y, y ∈ h → le m y.
Proof.
  intros Hm Hord. unfold MinHeap.extractMin, MinHeap.pop. rewrite Hm.
  assert (∀ y, y ∈ h → le m y) as Hmin.
  { intros y [j Hj]%list_elem_of_lookup. by apply (root_min h m Hord Hm j). }
  destruct (last h) as [lst|] eqn:Hlast; last first.
  { apply last_None in Hlast. by subst h. }
  apply last_Some in Hlast as [h0 ->].
  rewrite length_app. simpl. replace (length h0 + 1 - 1) with (length h0) by lia.
  rewrite take_app_length.
  destruct h0 as [|m0 t0]; simpl.
  { simpl in Hm. simplify_eq. exists []. by split_and!. }
  simpl in Hm. simplify_eq. eexists. split; [done|]. split_and!; [| |done].
  - apply siftDown_fuel_ordered; [simpl; lia|]. split; [|intros; lia].
    intros j x y Hj Hpar Hy Hx. pose proof (parent_lt j Hj).
    pose proof (lookup_lt_Some _ _ _ Hy) as Hlen. simpl in Hlen.
    assert (0 < MinHeap.parent j) as Hpj by lia.
    destruct j as [|j]; [lia|]. destruct (MinHeap.parent (S j)) as [|pj] eqn:Epj; [lia|].
    simpl in Hy, Hx. apply (Hord (S j)); [lia | |].
    + simpl. by rewrite lookup_app_l by lia.
    + rewrite Epj. simpl. rewrite lookup_app_l; [done|]. lia.
  - unfold MinHeap._siftDown. rewrite siftDown_fuel_perm. simpl.
    constructor. by rewrite (comm (++)).
Qed.
End MinHeapFacts.

(** ** The merge loop *)

Lemma compareReaders_lt readers a b :
  (Merger.compareReaders readers a b < 0)%Z ↔
  match Merger.currentOf readers a, Merger.currentOf readers b with
  | Some x, Some y => str_lt x y = true
  | Some _, None => True
  | None, _ => False
  end.
Proof.
  unfold Merger.compareReaders.
  destruct (Merger.currentOf readers a) as [x|], (Merger.currentOf readers b) as [y|];
    try (split; (done || lia)).
  destruct (str_lt x y) eqn:E1; [split; (done || lia)|].
  destruct (str_lt y x); split; (done || lia).
Qed.

Lemma compareReaders_asym readers a b :
  (Merger.compareReaders readers a b < 0)%Z →
  ¬ (Merger.compareReaders readers b a < 0)%Z.
Proof.
  rewrite !compareReaders_lt.
  destruct (Merger.currentOf readers a) as [x|], (Merger.currentOf readers b) as [y|];
    try tauto.
  intros H%str_lt_asym. by rewrite H.
Qed.

Lemma compareReaders_trans readers a b c :
  heap_le (Merger.compareReaders readers) a b →
  heap_le (Merger.compareReaders readers) b c →
  heap_le (Merger.compareReaders readers) a c.
Proof.
  unfold heap_le. rewrite !compareReaders_lt.
  destruct (Merger.currentOf readers a) as [x|], (Merger.currentOf readers b) as [y|],
    (Merger.currentOf readers c) as [z|]; try tauto.
  intros H1%not_true_is_false H2%not_true_is_false.
  apply not_true_iff_false. by apply (str_le_trans x y z).
Qed.

Lemma heap_le_current readers a b x y :
  Merger.currentOf readers a = Some x → Merger.currentOf readers b = Some y →
  heap_le (Merger.compareReaders readers) a b → str_le x y.
Proof.
  unfold heap_le. rewrite compareReaders_lt. intros -> ->.
  by intros ?%not_true_is_false.
Qed.

(** The heap property only looks at the entries of the heap. *)
Lemma heap_ordered_ext {A} (cmp1 cmp2 : A → A → Z) (h : list A) :
  (∀ x y, x ∈ h → y ∈ h → cmp1 x y = cmp2 x y) →
  heap_ordered cmp1 h → heap_ordered cmp2 h.
Proof.
  intros Hext Hord j x y Hj Hy Hx. unfold heap_le.
  rewrite <-Hext by (by eapply list_elem_of_lookup_2).
  by apply (Hord j).
Qed.

Lemma currentOf_insert_ne readers r rd a :
  a ≠ r → Merger.currentOf (<[r:=rd]> readers) a = Merger.currentOf readers a.
Proof. intros. unfold Merger.currentOf. by rewrite list_lookup_insert_ne. Qed.

Lemma compareReaders_insert_ne readers r rd a b :
  a ≠ r → b ≠ r →
  Merger.compareReaders (<[r:=rd]> readers) a b = Merger.compareReaders readers a b.
Proof.
  intros. unfold Merger.compareReaders. by rewrite !currentOf_insert_ne.
Qed.

Lemma live_spec rd :
  Merger.live rd = true ↔ ∃ l, Merger.current rd = Some l ∧ Merger.done rd = false.
Proof.
  unfold Merger.live. destruct (Merger.done rd), (Merger.current rd); simpl;
    split; try done; try (by intros (? & ? & ?)). by eexists.
Qed.

Lemma remaining_advance rd :
  Merger.remaining (Merger.advance rd) = Merger.lines rd.
Proof. unfold Merger.remaining, Merger.advance. by destruct (Merger.lines rd). Qed.

Lemma live_advance rd :
  Merger.live (Merger.advance rd) = true ↔ Merger.lines rd ≠ [].
Proof. unfold Merger.live, Merger.advance. by destruct (Merger.lines rd). Qed.

(** One iteration of the loop, spelled out under the heap invariant. *)
Lemma loop_step_spec st :
  heap_inv st → Merger.heap st ≠ [] →
  ∃ r rd l heap',
    Merger.heap st !! 0 = Some r
    ∧ Merger.readers st !! r = Some rd
    ∧ Merger.current rd = Some l ∧ Merger.done rd = false
    ∧ MinHeap.extractMin (Merger.compareReaders (Merger.readers st)) (Merger.heap st)
      = (Some r, heap')
    ∧ Merger.heap st ≡ₚ r :: heap'
    ∧ heap_ordered (Merger.compareReaders (Merger.readers st)) heap'
    ∧ (∀ y, y ∈ Merger.heap st →
            heap_le (Merger.compareReaders (Merger.readers st)) r y)
    ∧ Merger.loop_step st =
        {| Merger.readers := <[r:=Merger.advance rd]> (Merger.readers st);
           Merger.heap :=
             if Merger.live (Merger.advance rd)
             then MinHeap.insert
                    (Merger.compareReaders (<[r:=Merger.advance rd]> (Merger.readers st)))
                    heap' r
             else heap';
           Merger.written := Merger.written st ++ [l];
           Merger.linesWritten := S (Merger.linesWritten st) |}.
Proof.
  intros (Hnd & Hlive & Hord) Hne.
  destruct (Merger.heap st) as [|r h] eqn:Eh; [done|].
  destruct (extractMin_spec (Merger.compareReaders (Merger.readers st))
              (compareReaders_asym _) (compareReaders_trans _) (r :: h) r eq_refl Hord)
    as (heap' & Hex & Hord' & Hperm & Hmin).
  destruct (Hlive r) as (rd & l & Hrd & Hcur & Hdone); [by left|].
  exists r, rd, l, heap'. split_and!; try done.
  unfold Merger.loop_step. rewrite Eh, Hex, Hrd, Hcur. done.
Qed.

Lemma heap_inv_step st :
  heap_inv st → Merger.heap st ≠ [] → heap_inv (Merger.loop_step st).
Proof.
  intros Hinv Hne.
  destruct (loop_step_spec st Hinv Hne)
    as (r & rd & l & heap' & H0 & Hrd & Hcur & Hdone & Hex & Hperm & Hord' & Hmin & ->).
  destruct Hinv as (Hnd & Hlive & Hord).
  rewrite Hperm in Hnd. apply NoDup_cons in Hnd as [Hr Hnd'].
  assert (r < length (Merger.readers st)) as Hlen by by eapply lookup_lt_Some.
  set (readers' := <[r:=Merger.advance rd]> (Merger.readers st)).
  assert (heap_ordered (Merger.compareReaders readers') heap') as Hord''.
  { eapply heap_ordered_ext; [|exact Hord'].
    intros x y Hx Hy. symmetry. apply compareReaders_insert_ne; set_solver. }
  assert (∀ r', r' ∈ heap' →
            ∃ rd' l', readers' !! r' = Some rd' ∧ Merger.current rd' = Some l'
                      ∧ Merger.done rd' = false) as Hlive'.
  { intros r' Hr'. destruct (Hlive r') as (rd' & l' & ? & ? & ?).
    { rewrite Hperm. by right. }
    exists rd', l'. split_and!; try done.
    unfold readers'. rewrite list_lookup_insert_ne; [done | set_solver]. }
  unfold heap_inv. simpl. fold readers'.
  destruct (Merger.live (Merger.advance rd)) eqn:Elive; [|done].
  split_and!.
  - rewrite insert_perm. by constructor.
  - intros r' Hr'. rewrite insert_perm in Hr'.
    apply elem_of_cons in Hr' as [->|Hr']; [|by apply Hlive'].
    apply live_spec in Elive as (l' & ? & ?).
    exists (Merger.advance rd), l'. split_and!; try done.
    unfold readers'. by rewrite list_lookup_insert_eq.
  - apply insert_ordered;
      [apply compareReaders_asym | apply compareReaders_trans | done].
Qed.

Lemma order_inv_step st :
  heap_inv st → order_inv st → Merger.heap st ≠ [] →
  order_inv (Merger.loop_step st).
Proof.
  intros Hinv (Hrem & Hsorted & Hbound) Hne.
  destruct (loop_step_spec st Hinv Hne)
    as (r & rd & l & heap' & H0 & Hrd & Hcur & Hdone & Hex & Hperm & Hord' & Hmin & ->).
  destruct Hinv as (Hnd & Hlive & Hord).
  assert (r < length (Merger.readers st)) as Hlen by by eapply lookup_lt_Some.
  assert (r ∈ Merger.heap st) as Hr by (rewrite Hperm; by left).
  assert (Merger.remaining rd = l :: Merger.lines rd) as Erem
    by (unfold Merger.remaining; by rewrite Hcur).
  pose proof (Hrem r rd Hrd) as Hsrd. rewrite Erem in Hsrd.
  apply StronglySorted_cons in Hsrd as [Hl Hlines].
  assert (Merger.currentOf (Merger.readers st) r = Some l) as Hcr
    by (unfold Merger.currentOf; by rewrite Hrd).
  unfold order_inv. simpl. split_and!.
  - intros r0 rd0. destruct (decide (r0 = r)) as [->|].
    + rewrite list_lookup_insert_eq by done. intros [= <-].
      by rewrite remaining_advance.
    + rewrite list_lookup_insert_ne by done. apply Hrem.
  - apply StronglySorted_app_2; [|done|repeat constructor].
    intros w ? Hw ->%list_elem_of_singleton. by apply (Hbound w r rd l).
  - intros w r0 rd0 l0 Hw Hr0 Hrd0 Hl0.
    assert (r0 = r ∨ r0 ∈ heap' ∧ r0 ≠ r) as [->|[Hin Hne0]].
    { destruct (Merger.live (Merger.advance rd)).
      - rewrite insert_perm in Hr0. apply elem_of_cons in Hr0 as [?|?]; [by left|].
        destruct (decide (r0 = r)); [by left | by right].
      - destruct (decide (r0 = r)); [by left | by right]. }
    + rewrite list_lookup_insert_eq in Hrd0 by done. injection Hrd0 as <-.
      assert (str_le l l0) as Hll0.
      { rewrite Forall_forall in Hl. apply Hl.
        unfold Merger.advance in Hl0. destruct (Merger.lines rd); [done|].
        simpl in Hl0. injection Hl0 as ->. by left. }
      apply elem_of_app in Hw as [Hw| ->%list_elem_of_singleton]; [|done].
      apply (str_le_trans w l l0); [|done]. by apply (Hbound w r rd l).
    + rewrite list_lookup_insert_ne in Hrd0 by done.
      assert (r0 ∈ Merger.heap st) as Hr0' by (rewrite Hperm; by right).
      apply elem_of_app in Hw as [Hw| ->%list_elem_of_singleton].
      * by apply (Hbound w r0 rd0 l0).
      * apply (heap_le_current (Merger.readers st) r r0); [done | | by apply Hmin].
        unfold Merger.currentOf. by rewrite Hrd0.
Qed.

Lemma drain_inv_step st :
  heap_inv st → drain_inv st → Merger.heap st ≠ [] →
  drain_inv (Merger.loop_step st).
Proof.
  intros Hinv (Hout & Hcount) Hne.
  destruct (loop_step_spec st Hinv Hne)
    as (r & rd & l & heap' & H0 & Hrd & Hcur & Hdone & Hex & Hperm & Hord' & Hmin & ->).
  assert (r < length (Merger.readers st)) as Hlen by by eapply lookup_lt_Some.
  unfold drain_inv. simpl. split.
  - intros r0 rd0. destruct (decide (r0 = r)) as [->|Hne0].
    + rewrite list_lookup_insert_eq by done. intros [= <-] Hnotin.
      rewrite remaining_advance.
      destruct (Merger.live (Merger.advance rd)) eqn:Elive.
      * exfalso. apply Hnotin. rewrite insert_perm. by left.
      * destruct (Merger.lines rd) eqn:El; [done|].
        assert (Merger.live (Merger.advance rd) = true); [|congruence].
        apply live_advance. by rewrite El.
    + rewrite list_lookup_insert_ne by done. intros Hrd0 Hnotin.
      apply (Hout r0 rd0 Hrd0). rewrite Hperm. intros [?|Hin]%elem_of_cons; [done|].
      apply Hnotin. destruct (Merger.live (Merger.advance rd)); [|done].
      rewrite insert_perm. by right.
  - rewrite length_app. simpl. lia.
Qed.

(** Every iteration hands one pending line to the output. *)
Lemma pending_step st :
  heap_inv st → Merger.heap st ≠ [] →
  S (Merger.pending (Merger.readers (Merger.loop_step st)))
  = Merger.pending (Merger.readers st).
Proof.
  intros Hinv Hne.
  destruct (loop_step_spec st Hinv Hne)
    as (r & rd & l & heap' & H0 & Hrd & Hcur & Hdone & Hex & Hperm & Hord' & Hmin & ->).
  assert (r < length (Merger.readers st)) as Hlen by by eapply lookup_lt_Some.
  simpl. rewrite insert_take_drop by done.
  rewrite <-(take_drop_middle (Merger.readers st) r rd Hrd) at 3.
  unfold Merger.pending. rewrite !sum_list_with_app. simpl.
  rewrite remaining_advance.
  assert (Merger.remaining rd = l :: Merger.lines rd) as ->
    by (unfold Merger.remaining; by rewrite Hcur).
  simpl. lia.
Qed.

Lemma size_pos_nonempty {A} (h : list A) : 0 < MinHeap.size h → h ≠ [].
Proof. destruct h; simpl; [lia | done]. Qed.

Lemma loop_heap_inv fuel st : heap_inv st → heap_inv (Merger.loop fuel st).
Proof.
  revert st; induction fuel as [|fuel IH]; intros st Hinv; simpl; [done|].
  destruct (Nat.ltb_spec 0 (MinHeap.size (Merger.heap st))); [|done].
  apply IH, heap_inv_step; [done|]. by apply size_pos_nonempty.
Qed.

Lemma loop_order_inv fuel st :
  heap_inv st → order_inv st → order_inv (Merger.loop fuel st).
Proof.
  revert st; induction fuel as [|fuel IH]; intros st Hinv Hord; simpl; [done|].
  destruct (Nat.ltb_spec 0 (MinHeap.size (Merger.heap st))); [|done].
  assert (Merger.heap st ≠ []) by by apply size_pos_nonempty.
  apply IH; [by apply heap_inv_step | by apply order_inv_step].
Qed.

Lemma loop_drain_inv fuel st :
  heap_inv st → drain_inv st → drain_inv (Merger.loop fuel st).
Proof.
  revert st; induction fuel as [|fuel IH]; intros st Hinv Hord; simpl; [done|].
  destruct (Nat.ltb_spec 0 (MinHeap.size (Merger.heap st))); [|done].
  assert (Merger.heap st ≠ []) by by apply size_pos_nonempty.
  apply IH; [by apply heap_inv_step | by apply drain_inv_step].
Qed.

(** With as much fuel as there are pending lines the loop stops because the
    heap is empty, not because the fuel is. *)
Lemma loop_runs_to_end fuel st :
  heap_inv st → Merger.pending (Merger.readers st) ≤ fuel →
  Merger.heap (Merger.loop fuel st) = [].
Proof.
  revert st; induction fuel as [|fuel IH]; intros st Hinv Hfuel; simpl.
  - destruct (Merger.heap st) as [|r h] eqn:Eh; [done|]. exfalso.
    assert (Merger.heap st ≠ []) as Hne by by rewrite Eh.
    pose proof (pending_step st Hinv Hne). lia.
  - destruct (Nat.ltb_spec 0 (MinHeap.size (Merger.heap st))) as [Hpos|Hz].
    + assert (Merger.heap st ≠ []) as Hne by by apply size_pos_nonempty.
      apply IH; [by apply heap_inv_step|].
      pose proof (pending_step st Hinv Hne). lia.
    + unfold MinHeap.size in Hz. destruct (Merger.heap st); [done | simpl in Hz; lia].
Qed.

Lemma loop_reachable fs existing fuel st :
  merge_reachable fs existing st → merge_reachable fs existing (Merger.loop fuel st).
Proof.
  revert st; induction fuel as [|fuel IH]; intros st Hst; simpl; [done|].
  destruct (Nat.ltb_spec 0 (MinHeap.size (Merger.heap st))); [|done].
  apply IH. constructor; [done|]. by apply size_pos_nonempty.
Qed.

(** *** The state the loop is entered in *)

Lemma initial_heap_upto readers n :
  n ≤ length readers →
  let h := foldl (λ heap i,
                    match readers !! i with
                    | Some rd =>
                        if Merger.live rd
                        then MinHeap.insert (Merger.compareReaders readers) heap i
                        else heap
                    | None => heap
                    end) [] (seq 0 n) in
  NoDup h
  ∧ (∀ r, r ∈ h ↔ r < n ∧ ∃ rd, readers !! r = Some rd ∧ Merger.live rd = true)
  ∧ heap_ordered (Merger.compareReaders readers) h.
Proof.
  induction n as [|n IH]; intros Hn; cbv zeta.
  - simpl. split_and!; [constructor | | by intros j x y _ ?].
    intros r. split; [by intros ?%elem_of_nil | lia].
  - rewrite seq_S, foldl_snoc. cbv zeta in IH. rewrite Nat.add_0_l.
    destruct (IH ltac:(lia)) as (Hnd & Hmem & Hord). clear IH.
    destruct (lookup_lt_is_Some_2 readers n ltac:(lia)) as [rd Hrd]. rewrite Hrd.
    destruct (Merger.live rd) eqn:Elive.
    + split_and!.
      * rewrite insert_perm. constructor; [|done]. rewrite Hmem. lia.
      * intros r. rewrite insert_perm, elem_of_cons, Hmem. split.
        -- intros [->|[? ?]]; [|split; [lia|done]]. split; [lia|]. by exists rd.
        -- intros [Hr Hlive]. destruct (decide (r = n)); [by left|].
           right. split; [lia|done].
      * apply insert_ordered;
          [apply compareReaders_asym | apply compareReaders_trans | done].
    + split_and!; [done | | done].
      intros r. rewrite Hmem. split; [intros [? ?]; split; [lia|done]|].
      intros [Hr (rd' & Hrd' & Hlive)]. split; [|by exists rd'].
      destruct (decide (r = n)) as [->|]; [|lia]. congruence.
Qed.

Lemma initial_heap_spec readers :
  NoDup (Merger.initial_heap readers)
  ∧ (∀ r, r ∈ Merger.initial_heap readers ↔
          ∃ rd, readers !! r = Some rd ∧ Merger.live rd = true)
  ∧ heap_ordered (Merger.compareReaders readers) (Merger.initial_heap readers).
Proof.
  destruct (initial_heap_upto readers (length readers) ltac:(done))
    as (Hnd & Hmem & Hord).
  split_and!; [done | | done].
  intros r. rewrite (Hmem r). split; [by intros [_ ?]|].
  intros (rd & Hrd & ?). split; [by eapply lookup_lt_Some | by exists rd].
Qed.

Lemma start_reader fs existing r rd :
  Merger.readers (Merger.start fs existing) !! r = Some rd →
  ∃ p, existing !! r = Some p ∧ rd = Merger.advance (Merger.open_reader fs p).
Proof.
  simpl. rewrite !list_lookup_fmap. destruct (existing !! r) as [p|]; [|done].
  simpl. intros [= <-]. by exists p.
Qed.

Lemma start_heap_inv fs existing : heap_inv (Merger.start fs existing).
Proof.
  destruct (initial_heap_spec (Merger.readers (Merger.start fs existing)))
    as (Hnd & Hmem & Hord).
  split_and!; [done | | done].
  intros r (rd & Hrd & (l & ? & ?)%live_spec)%Hmem. by exists rd, l.
Qed.

Lemma start_order_inv fs existing :
  Forall (λ p, nondecreasing (readline_lines (default [] (fs !! p)))) existing →
  order_inv (Merger.start fs existing).
Proof.
  intros Hsorted. split_and!.
  - intros r rd (p & Hp & ->)%start_reader. rewrite remaining_advance. simpl.
    rewrite Forall_forall in Hsorted. apply Hsorted. by eapply list_elem_of_lookup_2.
  - constructor.
  - by intros w r rd l ?%elem_of_nil.
Qed.

Lemma start_drain_inv fs existing : drain_inv (Merger.start fs existing).
Proof.
  destruct (initial_heap_spec (Merger.readers (Merger.start fs existing)))
    as (_ & Hmem & _).
  split; [|done].
  intros r rd Hrd Hnotin. destruct (start_reader _ _ _ _ Hrd) as (p & _ & ->).
  rewrite remaining_advance.
  destruct (Merger.lines (Merger.open_reader fs p)) eqn:El; [done|].
  exfalso. apply Hnotin, Hmem. eexists. split; [done|].
  apply live_advance. by rewrite El.
Qed.

Lemma reachable_heap_inv fs existing st :
  merge_reachable fs existing st → heap_inv st.
Proof.
  induction 1; [apply start_heap_inv | by apply heap_inv_step].
Qed.

Lemma reachable_order_inv fs existing st :
  Forall (λ p, nondecreasing (readline_lines (default [] (fs !! p)))) existing →
  merge_reachable fs existing st → order_inv st.
Proof.
  intros Hsorted. induction 1 as [|st Hst IH Hne]; [by apply start_order_inv|].
  apply order_inv_step; [by eapply reachable_heap_inv | done | done].
Qed.

Lemma reachable_drain_inv fs existing st :
  merge_reachable fs existing st → drain_inv st.
Proof.
  induction 1 as [|st Hst IH Hne]; [by apply start_drain_inv|].
  apply drain_inv_step; [by eapply reachable_heap_inv | done | done].
Qed.

Lemma run_reachable fs existing : merge_reachable fs existing (Merger.run fs existing).
Proof. apply loop_reachable. constructor. Qed.

Lemma run_heap_empty fs existing : Merger.heap (Merger.run fs existing) = [].
Proof. apply loop_runs_to_end; [apply start_heap_inv | done]. Qed.

Lemma existing_sorted fs (sortedChunks : list (option jsstring)) :
  Forall (chunk_sorted fs) sortedChunks →
  Forall (λ p, nondecreasing (readline_lines (default [] (fs !! p))))
    (omap (Merger.accessible fs) sortedChunks).
Proof.
  rewrite !Forall_forall. intros Hsorted p (x & Hx & Hacc)%list_elem_of_omap.
  specialize (Hsorted x Hx). unfold Merger.accessible in Hacc.
  destruct x as [q|]; [|done]. simpl in Hsorted.
  destruct (fs !! q) as [data|] eqn:Eq; [|done]. injection Hacc as <-.
  by rewrite Eq.
Qed.

(** ** Claims about the k-way merge *)



(** C1 as stated, for the order of the code points or of the UTF-8 bytes,
    fails on the code.  The chunk with the line U+FF5E and the chunk with the
    line U+1F600 are sorted in every order, each holding one line.  The merge
    compares with [<], for which the surrogate D83D is before FF5E: it writes
    U+1F600 first, and the output is not non-decreasing for the code points
    nor for the bytes. *)
Lemma kWayMerge_not_in_code_point_order :
  Forall (λ chunk, match chunk ≫= (astral_chunks_fs !!.) with
                   | Some data =>
                       code_point_nondecreasing (readline_lines data)
                       ∧ byte_nondecreasing (readline_lines data)
                   | None => True
                   end) astral_chunks
  ∧ Merger._kWayMerge astral_chunks (js "out.txt") astral_chunks_fs
    = Done {[ js "out.txt" := lines_content [[55357%N; 56832%N]; [65374%N]] ]} undefined
  ∧ readline_lines (lines_content [[55357%N; 56832%N]; [65374%N]])
    = [[55357%N; 56832%N]; [65374%N]]
  ∧ ¬ code_point_nondecreasing [[55357%N; 56832%N]; [65374%N]]
  ∧ ¬ byte_nondecreasing [[55357%N; 56832%N]; [65374%N]].
Proof.
  split_and!.
  - repeat constructor.
  - by vm_compute.
  - by vm_compute.
  - intros Hsorted. apply StronglySorted_inv in Hsorted as (_ & Hfirst).
    apply Forall_cons in Hfirst as [Hfirst _]. by vm_compute in Hfirst.
  - intros Hsorted. apply StronglySorted_inv in Hsorted as (_ & Hfirst).
    apply Forall_cons in Hfirst as [Hfirst _]. by vm_compute in Hfirst.
Qed.

(** C7.  In every state the merge loop goes through, the heap holds every
    reader at most once, every reader in the heap is not exhausted and has a
    current line, and [extractMin] on a non-empty heap returns a reader of the
    heap whose current line is not after the current line of any reader in
    the heap. *)
Theorem merge_loop_heap_invariant
    (fs : filesystem) (existingChunks : list jsstring) (st : Merger.state) :
  merge_reachable fs existingChunks st →
  NoDup (Merger.heap st)
  ∧ (∀ r, r ∈ Merger.heap st →
          ∃ rd l, Merger.readers st !! r = Some rd
                  ∧ Merger.current rd = Some l ∧ Merger.done rd = false)
  ∧ (Merger.heap st ≠ [] →
     ∃ r heap' l,
       MinHeap.extractMin (Merger.compareReaders (Merger.readers st)) (Merger.heap st)
       = (Some r, heap')
       ∧ r ∈ Merger.heap st
       ∧ Merger.currentOf (Merger.readers st) r = Some l
       ∧ ∀ r' l', r' ∈ Merger.heap st →
                  Merger.currentOf (Merger.readers st) r' = Some l' → str_le l l').
Proof.
  intros Hreach. pose proof (reachable_heap_inv _ _ _ Hreach) as Hinv.
  split_and!; [apply Hinv.. |].
  intros Hne.
  destruct (loop_step_spec st Hinv Hne)
    as (r & rd & l & heap' & H0 & Hrd & Hcur & Hdone & Hex & Hperm & Hord' & Hmin & _).
  assert (Merger.currentOf (Merger.readers st) r = Some l) as Hcr
    by (unfold Merger.currentOf; by rewrite Hrd).
  exists r, heap', l. split_and!; [done | rewrite Hperm; by left | done |].
  intros r' l' Hr' Hl'. apply (heap_le_current (Merger.readers st) r r'); auto.
Qed.

Lemma merge_loop_heap_invariant_witness :
  NoDup (Merger.heap (Merger.start three_chunks_fs
                        (omap (Merger.accessible three_chunks_fs) three_chunks))).
Proof.
  apply (merge_loop_heap_invariant three_chunks_fs
           (omap (Merger.accessible three_chunks_fs) three_chunks)).
  constructor.
Defined.

(** C9, as the code has it.  The merge counts the lines it writes to the
    output, and the counter ends up equal to the number of lines written, but
    the count only goes to the log: the operation is fulfilled with
    [undefined], or fails when no chunk can be read. *)
Theorem kWayMerge_counts_but_returns_undefined
    (fs : filesystem) (sortedChunks : list (option jsstring)) (outputFile : jsstring) :
  let st := Merger.run fs (omap (Merger.accessible fs) sortedChunks) in
  Merger.linesWritten st = length (Merger.written st)
  ∧ match Merger._kWayMerge sortedChunks outputFile fs with
    | Done _ value => value = undefined
    | Throw _ _ => omap (Merger.accessible fs) sortedChunks = []
    | Unfinished => False
    end.
Proof.
  intros st. split.
  - apply (reachable_drain_inv fs (omap (Merger.accessible fs) sortedChunks)).
    apply run_reachable.
  - unfold Merger._kWayMerge.
    by destruct (omap (Merger.accessible fs) sortedChunks).
Qed.

(** C9 as stated fails: merging the three chunks writes six lines, and the
    operation is fulfilled with [undefined], not with the number six. *)
Lemma kWayMerge_does_not_return_count :
  ∃ fs' value,
    Merger._kWayMerge three_chunks (js "out.txt") three_chunks_fs = Done fs' value
    ∧ length (Merger.written
                (Merger.run three_chunks_fs
                   (omap (Merger.accessible three_chunks_fs) three_chunks))) = 6
    ∧ value ≠ number 6.
Proof.
  eexists _, _. split_and!; [by vm_compute | by vm_compute | done].
Qed.

(** ** The hierarchical merge *)

Lemma groups_zero m : 1 ≤ m → groups 0 m = 0.
Proof. intros. unfold groups. apply Nat.div_small. lia. Qed.

Lemma groups_step n m : 1 ≤ m → 0 < n → groups n m = S (groups (n - m) m).
Proof.
  intros Hm Hn. unfold groups. destruct (decide (n ≤ m)) as [Hle|Hgt].
  - replace (n - m) with 0 by lia. replace (n + m - 1) with (n - 1 + 1 * m) by lia.
    rewrite Nat.div_add by lia. rewrite !Nat.div_small by lia. done.
  - replace (n + m - 1) with (n - m + m - 1 + 1 * m) by lia.
    rewrite Nat.div_add by lia. lia.
Qed.

Lemma groups_pos n m : 1 ≤ m → 1 ≤ n → 1 ≤ groups n m.
Proof. intros. rewrite groups_step by lia. lia. Qed.

Lemma groups_bound n m q : 1 ≤ m → n ≤ m * q → groups n m ≤ q.
Proof.
  intros Hm Hn. unfold groups.
  assert ((n + m - 1) / m < S q); [|lia].
  apply Nat.Div0.div_lt_upper_bound. lia.
Qed.

Lemma groups_lt n m : 2 ≤ m → 2 ≤ n → groups n m < n.
Proof.
  intros Hm Hn. unfold groups. apply Nat.Div0.div_lt_upper_bound. nia.
Qed.

Lemma kWayMerge_finishes sortedChunks outputFile fs :
  Merger._kWayMerge sortedChunks outputFile fs ≠ Unfinished.
Proof.
  unfold Merger._kWayMerge. by destruct (length _ =? 0).
Qed.

(** One level: with groups of at least one chunk the [for] loop ends within
    the fuel it is given, and unless a merge fails it hands one chunk per
    group to the next level. *)
Lemma level_loop_length tempDir m levelIndex currentLevel :
  1 ≤ m →
  ∀ fuel i nextLevel fs,
    length currentLevel - i ≤ fuel →
    match Merger.level_loop fuel tempDir m levelIndex i currentLevel nextLevel fs with
    | Done _ next =>
        length next = length nextLevel + groups (length currentLevel - i) m
    | Throw _ _ => True
    | Unfinished => False
    end.
Proof.
  intros Hm. induction fuel as [|fuel IH]; intros i next fs Hfuel.
  - simpl. rewrite (proj2 (Nat.ltb_ge _ _)) by lia.
    replace (length currentLevel - i) with 0 by lia.
    rewrite groups_zero by done. unfold io_ret. lia.
  - simpl. destruct (Nat.ltb_spec i (length currentLevel)) as [Hi|Hi]; last first.
    { replace (length currentLevel - i) with 0 by lia.
      rewrite groups_zero by done. unfold io_ret. lia. }
    rewrite (groups_step (length currentLevel - i) m) by lia.
    replace (length currentLevel - i - m) with (length currentLevel - (i + m)) by lia.
    match goal with |- context [if ?b then _ else _] => destruct b end.
    + specialize (IH (i + m) (next ++ [mjoin (slice currentLevel i (i + m) !! 0)]) fs
                    ltac:(lia)).
      destruct (Merger.level_loop _ _ _ _ _ _ _ _); [|done..].
      rewrite IH, length_app. simpl. lia.
    + unfold io_bind at 1.
      destruct (Merger._kWayMerge _ _ fs) as [fs' v| |] eqn:Emerge; [|done|].
      * specialize (IH (i + m)
                      (next ++ [Some (Merger.mergedChunkPath tempDir levelIndex (i / m))])
                      fs' ltac:(lia)).
        destruct (Merger.level_loop _ _ _ _ _ _ _ _); [|done..].
        rewrite IH, length_app. simpl. lia.
      * by apply kWayMerge_finishes in Emerge.
Qed.

(** The levels: with a fan-in of at least two the [while] loop ends within
    the fuel [merge] gives it; unless a merge fails it ends with exactly one
    chunk, after at most [K] levels when there are at most [m ^ K] chunks. *)
Lemma levels_loop_spec tempDir m :
  2 ≤ m →
  ∀ fuel K levelIndex currentLevel fs,
    length currentLevel ≤ fuel →
    1 ≤ length currentLevel →
    length currentLevel ≤ m ^ K →
    match Merger.levels_loop fuel tempDir m levelIndex currentLevel fs with
    | Done _ (last, levels) => length last = 1 ∧ levels ≤ levelIndex + K
    | Throw _ _ => True
    | Unfinished => False
    end.
Proof.
  intros Hm. induction fuel as [|fuel IH]; intros K lvl cur fs Hfuel Hlen HK;
    [lia|].
  simpl. destruct (Nat.ltb_spec 1 (length cur)) as [Hgt|Hle].
  - destruct K as [|K]; [simpl in HK; lia|].
    unfold io_bind at 1.
    pose proof (level_loop_length tempDir m (S lvl) cur ltac:(lia)
                  (length cur) 0 [] fs ltac:(lia)) as Hlevel.
    destruct (Merger.level_loop _ _ _ _ _ _ _ _) as [fs' next| |]; [|done..].
    simpl in Hlevel. rewrite Nat.sub_0_r in Hlevel.
    pose proof (groups_lt (length cur) m Hm ltac:(lia)).
    pose proof (groups_pos (length cur) m ltac:(lia) ltac:(lia)).
    pose proof (groups_bound (length cur) m (m ^ K) ltac:(lia) HK).
    specialize (IH K (S lvl) next fs' ltac:(lia) ltac:(lia) ltac:(lia)).
    destruct (Merger.levels_loop _ _ _ _ _ _) as [? [last levels]| |]; [|done..].
    split; [apply IH | lia].
  - unfold io_ret. split; lia.
Qed.

(** C6, as the code has it.  With a fan-in [maxOpenFiles] of at least two and
    more than one chunk, every level that completes hands one chunk per group
    to the next level, strictly fewer than it was given; the loop ends within
    the fuel [merge] gives it; unless a merge or the final rename fails it ends
    with exactly one file, after at most [K] levels when there are at most
    [maxOpenFiles ^ K] chunks, and that file is the output path or is renamed
    to it. *)
Theorem hierarchicalMerge_levels
    (fs : filesystem) (sortedChunks : list (option jsstring)) (outputFile : jsstring)
    (maxOpenFiles K fuel : nat) :
  2 ≤ maxOpenFiles →
  1 < length sortedChunks →
  length sortedChunks ≤ maxOpenFiles ^ K →
  length sortedChunks ≤ fuel →
  (∀ fs0 tempDir levelIndex currentLevel,
     1 < length currentLevel →
     match Merger.level_loop (length currentLevel) tempDir maxOpenFiles levelIndex 0
             currentLevel [] fs0 with
     | Done _ nextLevel =>
         length nextLevel = groups (length currentLevel) maxOpenFiles
         ∧ length nextLevel < length currentLevel
     | Throw _ _ => True
     | Unfinished => False
     end)
  ∧ match Merger._hierarchicalMerge fuel sortedChunks outputFile maxOpenFiles fs with
    | Done fs' _ =>
        ∃ tempDir fs1 p levels,
          Merger.levels_loop fuel tempDir maxOpenFiles 0 sortedChunks fs
          = Done fs1 ([Some p], levels)
          ∧ levels ≤ K
          ∧ (p = outputFile ∧ fs' = fs1
             ∨ p ≠ outputFile
               ∧ ∃ data, fs1 !! p = Some data
                         ∧ fs' = <[outputFile:=data]> (delete p fs1))
    | Throw _ _ => True
    | Unfinished => False
    end.
Proof.
  intros Hm Hlen HK Hfuel. split.
  - intros fs0 tempDir lvl cur Hcur.
    pose proof (level_loop_length tempDir maxOpenFiles lvl cur ltac:(lia)
                  (length cur) 0 [] fs0 ltac:(lia)) as Hlevel.
    destruct (Merger.level_loop _ _ _ _ _ _ _ _); [|done..].
    simpl in Hlevel. rewrite Nat.sub_0_r in Hlevel. split; [done|].
    rewrite Hlevel. apply groups_lt; lia.
  - unfold Merger._hierarchicalMerge.
    destruct (sortedChunks !! 0) as [[first|]|]; [|done..].
    unfold io_bind at 1.
    pose proof (levels_loop_spec (path_dirname first) maxOpenFiles Hm fuel K 0
                  sortedChunks fs Hfuel ltac:(lia) HK) as Hlevels.
    destruct (Merger.levels_loop _ _ _ _ _ _) as [fs1 [last levels]| |] eqn:Eloop;
      [|done..].
    destruct Hlevels as [Hlast Hlevels]. simpl.
    destruct last as [|x [|]]; [done| |done]. simpl.
    destruct x as [p|]; simpl; [|done].
    case_bool_decide as Hp; simpl.
    + injection Hp as ->. unfold io_ret.
      exists (path_dirname first), fs1, outputFile, levels. split_and!; auto.
    + unfold io_bind, Merger.rename.
      destruct (fs1 !! p) as [data|] eqn:Ep; [|done]. unfold io_ret.
      exists (path_dirname first), fs1, p, levels. split_and!; [done | done |].
      right. split; [congruence|]. by exists data.
Qed.

Lemma hierarchicalMerge_levels_witness :
  match Merger._hierarchicalMerge 3 three_chunks (js "out.txt") 2 three_chunks_fs with
  | Done fs' _ =>
      ∃ tempDir fs1 p levels,
        Merger.levels_loop 3 tempDir 2 0 three_chunks three_chunks_fs
        = Done fs1 ([Some p], levels)
        ∧ levels ≤ 2
        ∧ (p = js "out.txt" ∧ fs' = fs1
           ∨ p ≠ js "out.txt"
             ∧ ∃ data, fs1 !! p = Some data
                       ∧ fs' = <[js "out.txt":=data]> (delete p fs1))
  | Throw _ _ => True
  | Unfinished => False
  end.
Proof.
  refine (proj2 (hierarchicalMerge_levels three_chunks_fs three_chunks (js "out.txt")
                   2 2 3 _ _ _ _)); simpl; lia.
Defined.

(** Three chunks with a fan-in of two: two levels, and the output holds all
    six lines in order. *)
Lemma hierarchicalMerge_three_chunks :
  Merger._hierarchicalMerge 3 three_chunks (js "out.txt") 2 three_chunks_fs
  = Done {[ js "out.txt" :=
              lines_content [js "a"; js "b"; js "c"; js "d"; js "e"; js "f"] ]}
      undefined.
Proof. by vm_compute. Qed.

(** C6 as stated fails for a fan-in of one: a level then hands on as many
    chunks as it was given, and the merge has not ended after a hundred
    levels. *)
Lemma hierarchicalMerge_fan_in_one :
  (∃ fs' nextLevel,
     Merger.level_loop 2 (js "tmp") 1 1 0 (take 2 three_chunks) [] three_chunks_fs
     = Done fs' nextLevel
     ∧ length nextLevel = length (take 2 three_chunks))
  ∧ Merger._hierarchicalMerge 100 (take 2 three_chunks) (js "out.txt") 1 three_chunks_fs
    = Unfinished.
Proof.
  split; [eexists _, _; split; by vm_compute | by vm_compute].
Qed.

(** ** The splitter *)

Lemma chunk_bytes_snoc chunk line :
  chunk_bytes (chunk ++ [line]) = (chunk_bytes chunk + byteLength (line ++ [LF]))%N.
Proof.
  unfold chunk_bytes. induction chunk as [|l chunk IH]; simpl; [lia|].
  rewrite IH. lia.
Qed.

(** One iteration of the loop of [split], spelled out. *)
Lemma split_step_spec self tempDir st line fs :
  let buffer := Splitter.linesBuffer st ++ [line] in
  let size := (Splitter.currentChunkSize st + byteLength (line ++ [LF]))%N in
  Splitter.split_step self tempDir st line fs =
    if (Splitter.chunkSizeBytes self <=? size)%N
    then Done (<[Splitter._getChunkPath tempDir (Splitter.chunkIndex st)
                 :=lines_content buffer]> fs)
           {| Splitter.chunkFiles :=
                Splitter.chunkFiles st
                ++ [Splitter._getChunkPath tempDir (Splitter.chunkIndex st)];
              Splitter.chunkIndex := S (Splitter.chunkIndex st);
              Splitter.currentChunkSize := 0;
              Splitter.linesBuffer := [] |}
    else Done fs
           {| Splitter.chunkFiles := Splitter.chunkFiles st;
              Splitter.chunkIndex := Splitter.chunkIndex st;
              Splitter.currentChunkSize := size;
              Splitter.linesBuffer := buffer |}.
Proof. unfold Splitter.split_step. by case_match. Qed.

Lemma split_step_buffer_inv self tempDir st line fs :
  buffer_inv self st →
  ∃ fs' st', Splitter.split_step self tempDir st line fs = Done fs' st'
             ∧ buffer_inv self st'.
Proof.
  intros [Hsize Hbelow]. rewrite split_step_spec.
  destruct (N.leb_spec (Splitter.chunkSizeBytes self)
              (Splitter.currentChunkSize st + byteLength (line ++ [LF]))).
  - eexists _, _. split; [done|]. by split.
  - eexists _, _. split; [done|]. split; simpl.
    + by rewrite chunk_bytes_snoc, Hsize.
    + done.
Qed.

Lemma split_loop_buffer_inv self tempDir lines : ∀ st fs,
  buffer_inv self st →
  ∃ fs' st', Splitter.split_loop self tempDir lines st fs = Done fs' st'
             ∧ buffer_inv self st'.
Proof.
  induction lines as [|line lines IH]; intros st fs Hinv; simpl.
  - by exists fs, st.
  - destruct (split_step_buffer_inv self tempDir st line fs Hinv)
      as (fs1 & st1 & Hstep & Hinv1).
    unfold io_bind. rewrite Hstep. by apply IH.
Qed.

Lemma split_loop_app self tempDir pre rest st fs :
  Splitter.split_loop self tempDir (pre ++ rest) st fs =
  match Splitter.split_loop self tempDir pre st fs with
  | Done fs' st' => Splitter.split_loop self tempDir rest st' fs'
  | Throw fs' message => Throw fs' message
  | Unfinished => Unfinished
  end.
Proof.
  revert st fs; induction pre as [|line pre IH]; intros st fs; simpl; [done|].
  unfold io_bind. destruct (Splitter.split_step self tempDir st line fs); [|done..].
  apply IH.
Qed.

Lemma floor_four_fifths (m : N) :
  (5 * (m * 4 / 5) ≤ 4 * m < 5 * (m * 4 / 5) + 5)%N.
Proof.
  pose proof (N.div_mod (m * 4) 5 ltac:(lia)) as Hdiv.
  pose proof (N.mod_upper_bound (m * 4) 5 ltac:(lia)) as Hmod.
  revert Hdiv Hmod.
  generalize (m * 4 / 5)%N as q. generalize ((m * 4) `mod` 5)%N as r. lia.
Qed.

(** Up to a budget of 2^50 bytes the rounding of the product does not reach
    the next integer: the floor of the double is the integer part of 4m/5. *)
Lemma times_0_8_floor (m : N) :
  (m ≤ 2 ^ 50 → Splitter.times_0_8 m / 2 ^ 52 = m * 4 / 5)%N.
Proof.
  intros Hm. unfold Splitter.times_0_8.
  set (exact := (m * 3602879701896397)%N).
  set (ulp := (2 ^ (N.log2 exact - 52))%N).
  set (k := (m * 4 / 5)%N).
  assert (m * 4 = 5 * k + (m * 4) mod 5 ∧ (m * 4) mod 5 < 5)%N as [Hk Ht].
  { split; [apply N.div_mod; lia | apply N.mod_lt; lia]. }
  revert Hk Ht. generalize ((m * 4) mod 5)%N as t. intros t Hk Ht.
  assert (5 * exact = (5 * k + t) * 2 ^ 52 + m)%N as Hexact.
  { unfold exact. rewrite <-Hk. change (2 ^ 52)%N with 4503599627370496%N. lia. }
  assert (N.log2 exact - 52 ≤ 49)%N as Hshift.
  { destruct (decide (exact = 0%N)) as [->|Hpos]; [simpl; lia|].
    assert (N.log2 exact < 102)%N; [|lia].
    apply N.log2_lt_pow2; [lia|].
    change (2 ^ 102)%N with 5070602400912917605986812821504%N.
    change (2 ^ 50)%N with 1125899906842624%N in Hm. unfold exact. lia. }
  assert (∃ c, 2 ^ 52 = c * ulp ∧ 2 * ulp ≤ 2 ^ 50 ∧ 0 < ulp)%N as (c & Hc & Hulp & Hulp0).
  { exists (2 ^ (52 - (N.log2 exact - 52)))%N. unfold ulp. split_and!.
    - rewrite <-N.pow_add_r. f_equal. lia.
    - change 2%N with (2 ^ 1)%N at 1. rewrite <-N.pow_add_r.
      apply N.pow_le_mono_r; lia.
    - apply N.neq_0_lt_0, N.pow_nonzero. lia. }
  clearbody ulp.
  assert (exact = ulp * (exact / ulp) + exact mod ulp ∧ exact mod ulp < ulp)%N
    as [Hq Hr].
  { split; [apply N.div_mod; lia | apply N.mod_lt; lia]. }
  assert (k * c ≤ exact / ulp)%N as Hlow.
  { apply N.div_le_lower_bound; [lia|].
    assert (ulp * (k * c) = k * 2 ^ 52)%N as -> by (rewrite Hc; lia).
    change (2 ^ 52)%N with 4503599627370496%N in *. lia. }
  revert Hq Hr Hlow.
  generalize (exact / ulp)%N as q. generalize (exact mod ulp)%N as r.
  intros r q Hq Hr Hlow.
  assert (k * 2 ^ 52 ≤ ulp * q)%N as Hlow'.
  { rewrite Hc. nia. }
  clearbody exact.
  change (2 ^ 52)%N with 4503599627370496%N in *.
  change (2 ^ 50)%N with 1125899906842624%N in *.
  set (result := if ((ulp <? 2 * r) || ((ulp =? 2 * r) && N.odd q))%N
                 then ((q + 1) * ulp)%N else (q * ulp)%N).
  assert (ulp * q ≤ result ∧ 2 * result ≤ 2 * exact + ulp)%N as [Hres1 Hres2].
  { unfold result. destruct (N.ltb_spec ulp (2 * r)); simpl.
    - lia.
    - destruct (N.eqb_spec ulp (2 * r)); simpl; [destruct (N.odd q)|]; lia. }
  clearbody result.
  symmetry. apply (N.div_unique result 4503599627370496 k (result - k * 4503599627370496)); lia.
Qed.

Lemma initial_buffer_inv self : buffer_inv self Splitter.initial.
Proof. by split. Qed.

(** C8, as the code has it.  The chunk size is the floor of the double
    [maxMemoryBytes * 0.8]; up to a budget of 2^50 bytes this is the integer
    part of 80% of the budget.  At every iteration of the loop of [split]
    (after the lines [pre], on the line [line], before the lines [rest]) in
    which a chunk is flushed, the chunk is the buffer with that line, its
    accumulated byte size is at least the chunk size and exceeds it by at
    most the byte size of the last line, and by less than that when the chunk
    size is positive. *)
Theorem split_flushed_chunk_size
    (options_maxMemoryBytes : option N) (tempDir : jsstring) (fs : filesystem)
    (pre : list jsstring) (line : jsstring) (rest : list jsstring) :
  let self := Splitter.constructor options_maxMemoryBytes in
  let threshold := Splitter.chunkSizeBytes self in
  ((Splitter.maxMemoryBytes self ≤ 2 ^ 50)%N →
   (5 * threshold ≤ 4 * Splitter.maxMemoryBytes self < 5 * threshold + 5)%N)
  ∧ ∃ fs1 st fs2 st',
      Splitter.split_loop self tempDir pre Splitter.initial fs = Done fs1 st
      ∧ Splitter.split_step self tempDir st line fs1 = Done fs2 st'
      ∧ Splitter.split_loop self tempDir (pre ++ line :: rest) Splitter.initial fs
        = Splitter.split_loop self tempDir rest st' fs2
      ∧ (Splitter.chunkIndex st' ≠ Splitter.chunkIndex st →
         let chunk := Splitter.linesBuffer st ++ [line] in
         let chunkPath := Splitter._getChunkPath tempDir (Splitter.chunkIndex st) in
         Splitter.chunkFiles st' = Splitter.chunkFiles st ++ [chunkPath]
         ∧ fs2 !! chunkPath = Some (lines_content chunk)
         ∧ (threshold ≤ chunk_bytes chunk)%N
         ∧ (chunk_bytes chunk - threshold ≤ byteLength (line ++ [LF]))%N
         ∧ (0 < threshold →
            chunk_bytes chunk - threshold < byteLength (line ++ [LF]))%N).
Proof.
  intros self threshold. split.
  { intros Hbudget. unfold threshold, self, Splitter.constructor.
    cbn [Splitter.chunkSizeBytes Splitter.maxMemoryBytes] in *.
    rewrite times_0_8_floor by done. apply floor_four_fifths. }
  destruct (split_loop_buffer_inv self tempDir pre Splitter.initial fs
              (initial_buffer_inv self)) as (fs1 & st & Hloop & [Hsize Hbelow]).
  pose proof (split_step_spec self tempDir st line fs1) as Hstep. cbv zeta in Hstep.
  exists fs1, st. rewrite split_loop_app, Hloop. simpl. unfold io_bind.
  rewrite Hstep.
  destruct (N.leb_spec (Splitter.chunkSizeBytes self)
              (Splitter.currentChunkSize st + byteLength (line ++ [LF]))) as [Hge|Hlt].
  - eexists _, _. split_and!; [done..|]. simpl. intros _.
    rewrite chunk_bytes_snoc, <-Hsize. fold threshold in Hge, Hbelow |- *.
    split_and!; [done | by rewrite lookup_insert_eq | lia | |].
    + destruct (decide (Splitter.linesBuffer st = [])) as [Hnil|Hne]; [|specialize (Hbelow Hne); lia].
      rewrite Hnil in Hsize. simpl in Hsize. lia.
    + intros Hpos.
      destruct (decide (Splitter.linesBuffer st = [])) as [Hnil|Hne]; [|specialize (Hbelow Hne); lia].
      rewrite Hnil in Hsize. simpl in Hsize. lia.
  - eexists _, _. split_and!; [done..|]. simpl. done.
Qed.

(** C8 as stated fails for a memory budget of one byte: the chunk size is
    zero, the first line is flushed as a chunk of its own, and that chunk
    exceeds the chunk size by exactly the size of its last line. *)
Lemma split_excess_not_below_last_line :
  let self := Splitter.constructor (Some 1%N) in
  ∃ fs' st',
    Splitter.split_step self (js "tmp") Splitter.initial (js "a") ∅ = Done fs' st'
    ∧ Splitter.chunkFiles st' = [Splitter._getChunkPath (js "tmp") 0]
    ∧ fs' !! Splitter._getChunkPath (js "tmp") 0 = Some (lines_content [js "a"])
    ∧ ¬ (chunk_bytes [js "a"] - Splitter.chunkSizeBytes self
         < byteLength (js "a" ++ [LF]))%N.
Proof.
  eexists _, _. split_and!; [by vm_compute.. |]. vm_compute. by intros [=].
Qed.

(** With a budget of ten bytes the chunk size is eight: after the line ab
    (three bytes) the line cdefg (six bytes) brings the buffer to nine bytes
    and is flushed with it, one byte over the chunk size. *)
Lemma split_flushed_chunk_size_witness :
  (5 * 8 ≤ 4 * 10 < 5 * 8 + 5)%N
  ∧ (8 ≤ chunk_bytes [js "ab"; js "cdefg"])%N
  ∧ (chunk_bytes [js "ab"; js "cdefg"] - 8 < byteLength (js "cdefg" ++ [LF]))%N.
Proof.
  destruct (split_flushed_chunk_size (Some 10%N) (js "tmp") ∅ [js "ab"] (js "cdefg") [])
    as (Hbudget & fs1 & st & fs2 & st' & Hloop & Hstep & _ & Hflush).
  vm_compute in Hloop. injection Hloop as <- <-.
  vm_compute in Hstep. injection Hstep as <- <-.
  destruct Hflush as (_ & _ & Hge & _ & Hlt); [by vm_compute|].
  assert (Splitter.chunkSizeBytes (Splitter.constructor (Some 10%N)) = 8%N) as Hsize
    by (by vm_compute).
  assert (Splitter.maxMemoryBytes (Splitter.constructor (Some 10%N)) = 10%N) as Hmax
    by (by vm_compute).
  rewrite Hsize in Hge, Hlt. rewrite Hsize, Hmax in Hbudget.
  split; [apply Hbudget; by vm_compute|].
  split; [exact Hge | apply Hlt; by vm_compute].
Defined.

(** ** The chunk sorters *)





(** *** The directory of a path *)







(** *** The two chunk sorters on a chunk that can be read *)







(** C10 as stated fails when the first ".txt" is in the name of the directory
    and no directory has the new name: for the chunk
    /data/a.txt/chunk_000000.txt the sorted path is
    /data/a.sorted.txt/chunk_000000.txt, nothing is written there, both
    sorters fail and the chunk is left in place.  It also fails for the chunk
    /data/b.txt beside a directory /data/b.sorted.txt: the only ".txt" is the
    final suffix, and the write fails on the directory. *)
Lemma sortChunk_directory_not_found :
  replace (js "/data/a.txt/chunk_000000.txt") (js ".txt") (js ".sorted.txt")
  = js "/data/a.sorted.txt/chunk_000000.txt"
  ∧ Sorter.sortChunk (js "/data/a.txt/chunk_000000.txt") directory_chunk_fs
    = Throw directory_chunk_fs (ENOENT (js "/data/a.sorted.txt/chunk_000000.txt"))
  ∧ SorterWorker.sortChunk (js "/data/a.txt/chunk_000000.txt") directory_chunk_fs
    = Throw directory_chunk_fs
        (js "error in worker: "
         ++ ENOENT (js "/data/a.sorted.txt/chunk_000000.txt"))
  ∧ directory_chunk_fs !! js "/data/a.sorted.txt/chunk_000000.txt" = None
  ∧ directory_chunk_fs !! js "/data/a.txt/chunk_000000.txt"
    = Some (lines_content [js "b"; js "a"])
  ∧ Sorter.sortChunk (js "/data/b.txt") sorted_directory_fs
    = Throw sorted_directory_fs (EISDIR (js "/data/b.sorted.txt"))
  ∧ SorterWorker.sortChunk (js "/data/b.txt") sorted_directory_fs
    = Throw sorted_directory_fs
        (js "error in worker: " ++ EISDIR (js "/data/b.sorted.txt")).
Proof. split_and!; by vm_compute. Qed.

(** C5 fails on the inline path.  The sorter of sorter.js keeps the blank line
    of the chunk (b, blank, a) and writes (blank, a, b); the worker, given the
    same chunk, drops it and writes (a, b).  For a chunk of blank lines only,
    the worker writes a file holding one empty line. *)
Lemma inline_sortChunk_keeps_blank_lines :
  Sorter.sortChunk (js "tmp/chunk_000000.txt") blank_line_chunk_fs
  = Done {[ js "tmp/chunk_000000.sorted.txt" := lines_content [js ""; js "a"; js "b"] ]}
      (js "tmp/chunk_000000.sorted.txt")
  ∧ SorterWorker.sortChunk (js "tmp/chunk_000000.txt") blank_line_chunk_fs
    = Done {[ js "tmp/chunk_000000.sorted.txt" := lines_content [js "a"; js "b"] ]}
        (js "tmp/chunk_000000.sorted.txt")
  ∧ SorterWorker.sortChunk (js "tmp/chunk_000000.txt") blank_chunk_fs
    = Done {[ js "tmp/chunk_000000.sorted.txt" := lines_content [js ""] ]}
        (js "tmp/chunk_000000.sorted.txt").
Proof. split_and!; by vm_compute. Qed.

(** ** The sort scheduler *)

Lemma find_free_replicate (j n id : nat) :
  j < n →
  Sorter.find_free (replicate j true ++ replicate (n - j) false) id = Some (id + j).
Proof.
  revert n id; induction j as [|j IH]; intros n id Hj; simpl.
  - destruct n as [|n]; [lia|]. simpl. f_equal. lia.
  - destruct n as [|n]; [lia|]. simpl. rewrite IH by lia. f_equal. lia.
Qed.

(** The synchronous loop that starts the workers hands the first chunk to
    every worker it starts: [completedChunks], from which the chunk index is
    taken, is still zero at every call. *)
Lemma start_pool_threads chunkFiles maxWorkers first :
  chunkFiles !! 0 = Some first →
  2 ≤ length chunkFiles →
  ∀ k, k ≤ maxWorkers →
    Nat.iter k (Sorter.processNextChunk chunkFiles)
      {| Sorter.workerPool := replicate maxWorkers false; Sorter.results := [];
         Sorter.completedChunks := 0; Sorter.threads := [];
         Sorter.settled := Sorter.Pending |}
    = {| Sorter.workerPool := replicate k true ++ replicate (maxWorkers - k) false;
         Sorter.results := [];
         Sorter.completedChunks := 0;
         Sorter.threads :=
           (λ id, {| Sorter.slot := id; Sorter.chunkIndex := 0;
                     Sorter.chunkPath := first; Sorter.stage := Sorter.Spawned |})
           <$> seq 0 k;
         Sorter.settled := Sorter.Pending |}.
Proof.
  intros Hfirst Hlen. induction k as [|k IH]; intros Hk.
  - simpl. by rewrite Nat.sub_0_r.
  - rewrite Nat.iter_succ, IH by lia. unfold Sorter.processNextChunk.
    cbn [Sorter.completedChunks Sorter.workerPool Sorter.threads Sorter.results
         Sorter.settled].
    rewrite (proj2 (Nat.eqb_neq 0 (length chunkFiles))) by lia.
    rewrite find_free_replicate by lia. rewrite Hfirst. rewrite Nat.add_0_l. f_equal.
    + rewrite insert_app_r_alt by (rewrite length_replicate; lia).
      rewrite length_replicate, Nat.sub_diag.
      destruct (maxWorkers - k) as [|d] eqn:Ed; [lia|]. simpl.
      replace (maxWorkers - S k) with d by lia.
      by rewrite cons_middle, app_assoc, <-replicate_S_end.
    + by rewrite seq_S, fmap_app.
Qed.

Lemma start_pool_all_on_first_chunk (chunkFiles : list jsstring) (maxWorkers : nat) :
  2 ≤ length chunkFiles →
  length (Sorter.threads (Sorter.start_pool chunkFiles maxWorkers))
  = Nat.min maxWorkers (length chunkFiles)
  ∧ ∀ th, th ∈ Sorter.threads (Sorter.start_pool chunkFiles maxWorkers) →
          Sorter.chunkIndex th = 0.
Proof.
  intros Hlen. destruct chunkFiles as [|first chunkFiles]; [simpl in Hlen; lia|].
  unfold Sorter.start_pool.
  rewrite (start_pool_threads (first :: chunkFiles) maxWorkers first) by (done || lia).
  simpl Sorter.threads. split.
  - by rewrite length_fmap, length_seq.
  - by intros th (id & -> & _)%list_elem_of_fmap.
Qed.

(** C3 fails on the code.  With two chunks and two workers, both workers are
    started on the first chunk and none on the second.  When both workers
    read the chunk before either deletes it, their two completions bring
    [completedChunks] to the number of chunks, and the promise is fulfilled
    with a result that has a slot for the first chunk only, while the second
    chunk is still unsorted. *)
Lemma sortChunks_dispatches_first_chunk_twice :
  Sorter.threads (Sorter.start_pool two_chunk_files 2)
  = [ {| Sorter.slot := 0; Sorter.chunkIndex := 0;
         Sorter.chunkPath := js "tmp/chunk_000000.txt"; Sorter.stage := Sorter.Spawned |};
      {| Sorter.slot := 1; Sorter.chunkIndex := 0;
         Sorter.chunkPath := js "tmp/chunk_000000.txt"; Sorter.stage := Sorter.Spawned |} ]
  ∧ Sorter.sortChunks 2 [0; 1; 0; 1] two_chunk_files
      {| Sorter.useWorkers := None; Sorter.maxWorkers := None |} two_chunks_fs
    = Done (<[js "tmp/chunk_000000.sorted.txt" := lines_content [js "b"]]>
              (<[js "tmp/chunk_000001.txt" := lines_content [js "a"]]> ∅))
        [Some (js "tmp/chunk_000000.sorted.txt")].
Proof. split; by vm_compute. Qed.

(** ** The pipeline *)

(** C2 fails on the code.  An input of the lines b and a, cut into two chunks,
    is sorted by two workers that both take the first chunk; with the schedule
    above the run completes and the output holds the line b only.  With the
    schedule in which the first worker finishes before the second starts, the
    second worker fails and the run is rejected. *)
Lemma externalSort_loses_a_line :
  externalSort two_cpus [0; 1; 0; 1] (js "in.txt") (js "out.txt") tiny_budget two_lines_fs
  = Done (<[js "out.txt" := lines_content [js "b"]]> two_lines_fs) undefined
  ∧ ¬ (nonblank_lines (lines_content [js "b"])
       ≡ₚ nonblank_lines (lines_content [js "b"; js "a"]))
  ∧ ∃ fs',
      externalSort two_cpus [0; 0; 1; 1] (js "in.txt") (js "out.txt") tiny_budget
        two_lines_fs
      = Throw fs'
          (js "error in worker: "
             ++ ENOENT (js "/work/temp_sort/chunk_000000.txt"))
      ∧ fs' !! js "out.txt" = None.
Proof.
  split_and!.
  - by vm_compute.
  - intros Hperm%Permutation_length. vm_compute in Hperm. done.
  - eexists. split; by vm_compute.
Qed.

(** The scenario of the lines banana, apple, Cherry, apple with the default
    budget: one chunk, sorted inline, with the upper-case line first. *)
Lemma externalSort_scenario :
  externalSort two_cpus [] (js "in.txt") (js "out.txt") default_options
    {[ js "in.txt" := lines_content [js "banana"; js "apple"; js "Cherry"; js "apple"] ]}
  = Done (<[js "out.txt" :=
              lines_content [js "Cherry"; js "apple"; js "apple"; js "banana"]]>
            {[ js "in.txt" :=
                 lines_content [js "banana"; js "apple"; js "Cherry"; js "apple"] ]})
      undefined.
Proof. by vm_compute. Qed.

Lemma split_empty (self : Splitter.t) (inputFile tempDir : jsstring) (fs : filesystem) :
  fs !! inputFile = Some [] →
  Splitter.split self inputFile tempDir fs = Done fs [].
Proof.
  intros Hin. unfold Splitter.split, io_bind, readFile. by rewrite Hin.
Qed.

Lemma sortChunks_empty (cpus : nat) (schedule : list nat) (opts : Sorter.options)
    (fs : filesystem) :
  Sorter.sortChunks cpus schedule [] opts fs = Done fs [].
Proof.
  unfold Sorter.sortChunks. simpl. by rewrite orb_true_r.
Qed.

(** C4, as the code has it.  For an empty input file, whatever the options,
    the host and the schedule, [split] produces no chunk and [sortChunks]
    returns an empty list, both without error; [merge] then fails because it
    has no chunk to read, before it creates the output: the run is rejected
    and the file system is left as it was. *)
Theorem externalSort_empty_input
    (env : environment) (schedule : list nat) (inputFile outputFile : jsstring)
    (options : sort_options) (fs : filesystem) :
  fs !! inputFile = Some [] →
  (∀ (self : Splitter.t) (tempDir : jsstring),
     Splitter.split self inputFile tempDir fs = Done fs [])
  ∧ (∀ opts, Sorter.sortChunks (cpus env) schedule [] opts fs = Done fs [])
  ∧ Merger.merge [] outputFile None fs
    = Throw fs (js "no valid chunk files found for merging")
  ∧ externalSort env schedule inputFile outputFile options fs
    = Throw fs (js "no valid chunk files found for merging").
Proof.
  intros Hin. split_and!.
  - intros. by apply split_empty.
  - intros. apply sortChunks_empty.
  - done.
  - unfold externalSort, io_bind, Utils.createTempDir, io_ret.
    rewrite split_empty by done. by rewrite sortChunks_empty.
Qed.

Lemma externalSort_empty_input_witness :
  externalSort two_cpus [] (js "in.txt") (js "out.txt") default_options empty_input_fs
  = Throw empty_input_fs (js "no valid chunk files found for merging").
Proof.
  refine (proj2 (proj2 (proj2 (externalSort_empty_input two_cpus [] (js "in.txt")
                                 (js "out.txt") default_options empty_input_fs _)))).
  by vm_compute.
Defined.

(** C4 as stated fails: for an empty input the run raises an error and no
    output file exists afterwards. *)
Lemma externalSort_empty_input_throws :
  ∃ fs' message,
    externalSort two_cpus [] (js "in.txt") (js "out.txt") default_options empty_input_fs
    = Throw fs' message
    ∧ fs' !! js "out.txt" = None.
Proof. eexists _, _. split; by vm_compute. Qed.

(** ** Sorting, lines and files *)

Lemma sort_insert_perm {A} (compareFn : A → A → Z) x l :
  sort_insert compareFn x l ≡ₚ x :: l.
Proof.
  induction l as [|y l IH]; simpl; [done|].
  case_match; [|done]. by rewrite IH, Permutation_swap.
Qed.

Lemma array_sort_perm {A} (compareFn : A → A → Z) l :
  array_sort compareFn l ≡ₚ l.
Proof.
  unfold array_sort.
  assert (∀ acc, foldl (λ acc x, sort_insert compareFn x acc) acc l ≡ₚ l ++ acc)
    as Hgen; [|by rewrite Hgen, app_nil_r].
  induction l as [|x l IH]; intros acc; simpl; [done|].
  rewrite IH, sort_insert_perm. by rewrite Permutation_middle.
Qed.

Lemma sort_insert_sorted x l :
  nondecreasing l → nondecreasing (sort_insert compareLines x l).
Proof.
  unfold nondecreasing. induction l as [|y l IH]; intros Hl; simpl.
  { repeat constructor. }
  apply StronglySorted_cons in Hl as [Hy Hl].
  destruct (Z.leb_spec (compareLines y x) 0) as [Hle|Hgt].
  - apply StronglySorted_cons. split; [|by apply IH].
    rewrite sort_insert_perm. constructor; [by apply compareLines_le | done].
  - assert (str_le x y) as Hxy.
    { destruct (str_le_total x y) as [|Hyx]; [done|].
      apply compareLines_le in Hyx. lia. }
    apply StronglySorted_cons. split; [|by apply StronglySorted_cons].
    constructor; [done|]. eapply Forall_impl; [exact Hy|].
    intros z Hyz. by apply (str_le_trans x y z).
Qed.

Lemma array_sort_sorted l : nondecreasing (array_sort compareLines l).
Proof.
  unfold array_sort.
  assert (∀ acc, nondecreasing acc →
            nondecreasing (foldl (λ acc x, sort_insert compareLines x acc) acc l))
    as Hgen; [|apply Hgen; constructor].
  induction l as [|x l IH]; intros acc Hacc; simpl; [done|].
  by apply IH, sort_insert_sorted.
Qed.

(** Two non-decreasing arrangements of the same lines are equal. *)
Lemma nondecreasing_unique l1 l2 :
  nondecreasing l1 → nondecreasing l2 → l1 ≡ₚ l2 → l1 = l2.
Proof.
  intros H1 H2 Hperm.
  assert (AntiSymm (=) str_le) by (intros x y; apply str_le_antisym).
  by apply (StronglySorted_unique str_le).
Qed.

Lemma readline_lines_line line data :
  no_eol line → readline_lines (line ++ LF :: data) = line :: readline_lines data.
Proof.
  induction 1 as [|c line [Hlf Hcr] Hline IH]; simpl; [done|].
  rewrite (proj2 (N.eqb_neq c LF)), (proj2 (N.eqb_neq c CR)) by done.
  by rewrite IH.
Qed.

Lemma lines_content_cons line lines :
  lines_content (line :: lines) = line ++ LF :: lines_content lines.
Proof. unfold lines_content. simpl. by rewrite <-app_assoc. Qed.

(** Reading back what was written line by line gives the lines. *)
Lemma readline_lines_content lines :
  Forall no_eol lines → readline_lines (lines_content lines) = lines.
Proof.
  induction 1 as [|line lines Hline Hlines IH]; [done|].
  by rewrite lines_content_cons, readline_lines_line, IH.
Qed.

Lemma readline_lines_no_eol_aux n : ∀ data,
  length data ≤ n → Forall no_eol (readline_lines data).
Proof.
  induction n as [|n IH]; intros [|c data] Hlen; simpl in *; try lia;
    try (by constructor).
  destruct (N.eqb_spec c LF) as [->|Hlf].
  { constructor; [constructor | apply IH; lia]. }
  destruct (N.eqb_spec c CR) as [->|Hcr].
  { destruct data as [|d data]; [repeat constructor|].
    destruct (N.eqb_spec d LF).
    - constructor; [constructor | apply IH; simpl in *; lia].
    - constructor; [constructor | apply IH; simpl in *; lia]. }
  pose proof (IH data ltac:(lia)) as Hrest.
  destruct (readline_lines data) as [|l ls]; [repeat constructor; done|].
  apply Forall_cons in Hrest as [Hl Hls].
  constructor; [by constructor | done].
Qed.

Lemma readline_lines_no_eol data : Forall no_eol (readline_lines data).
Proof. by apply (readline_lines_no_eol_aux (length data)). Qed.

Lemma split_line line data :
  Forall (λ c, c ≠ LF) line →
  split LF (line ++ LF :: data) = line :: split LF data.
Proof.
  induction 1 as [|c line Hlf Hline IH]; simpl; [done|].
  rewrite (proj2 (N.eqb_neq c LF)) by done. by rewrite IH.
Qed.

(** Splitting at the newlines what was written line by line gives the lines
    and one empty string after the last newline. *)
Lemma split_content lines :
  Forall no_eol lines → split LF (lines_content lines) = lines ++ [[]].
Proof.
  induction 1 as [|line lines Hline Hlines IH]; [done|].
  rewrite lines_content_cons, split_line, IH; [done|].
  eapply Forall_impl; [exact Hline|]. by intros c [? _].
Qed.

Lemma join_content lines :
  lines ≠ [] → join [LF] lines ++ [LF] = lines_content lines.
Proof.
  induction lines as [|l lines IH]; intros Hne; [done|].
  rewrite lines_content_cons.
  destruct lines as [|l' lines]; [done|].
  rewrite <-IH by done. simpl. by rewrite <-!app_assoc.
Qed.


(** The worker writes the lines of the chunk that are not blank, sorted; when
    all are blank it writes a single newline. *)
Lemma worker_sorted_content_lines lines :
  Forall no_eol lines →
  let kept := filter (λ line, 0 < length (trim line)) lines in
  worker_sorted_content (lines_content lines)
  = if decide (kept = []) then [LF]
    else lines_content (array_sort compareLines kept).
Proof.
  intros Hlines kept. unfold worker_sorted_content.
  rewrite split_content by done. rewrite filter_app.
  replace (filter (λ line, 0 < length (trim line)) [[]]) with (@nil jsstring)
    by done.
  rewrite app_nil_r. fold kept.
  destruct (decide (kept = [])) as [->|Hne]; [done|].
  apply join_content. intros Hnil. apply Hne.
  apply Permutation_nil_r. rewrite <-Hnil. by rewrite array_sort_perm.
Qed.

(** ** What the merge writes *)

Lemma held_insert readers r rd rd' :
  readers !! r = Some rd →
  ∃ before after,
    held readers = before ++ Merger.remaining rd ++ after
    ∧ held (<[r:=rd']> readers) = before ++ Merger.remaining rd' ++ after.
Proof.
  intros Hrd. pose proof (lookup_lt_Some _ _ _ Hrd) as Hlen.
  exists (held (take r readers)), (held (drop (S r) readers)).
  unfold held. rewrite insert_take_drop by done.
  rewrite <-(take_drop_middle readers r rd Hrd) at 1.
  by rewrite !fmap_app, !concat_app.
Qed.

(** Every iteration moves one line from the readers to the output. *)
Lemma content_step st :
  heap_inv st → Merger.heap st ≠ [] →
  Merger.written (Merger.loop_step st) ++ held (Merger.readers (Merger.loop_step st))
  ≡ₚ Merger.written st ++ held (Merger.readers st).
Proof.
  intros Hinv Hne.
  destruct (loop_step_spec st Hinv Hne)
    as (r & rd & l & heap' & H0 & Hrd & Hcur & Hdone & Hex & Hperm & Hord' & Hmin & ->).
  simpl.
  destruct (held_insert (Merger.readers st) r rd (Merger.advance rd) Hrd)
    as (before & after & -> & ->).
  rewrite remaining_advance.
  assert (Merger.remaining rd = l :: Merger.lines rd) as ->
    by (unfold Merger.remaining; by rewrite Hcur).
  rewrite <-app_assoc. apply Permutation_app_head. simpl.
  by rewrite Permutation_middle.
Qed.

Lemma reachable_content fs existing st :
  merge_reachable fs existing st →
  Merger.written st ++ held (Merger.readers st)
  ≡ₚ concat ((λ p, readline_lines (default [] (fs !! p))) <$> existing).
Proof.
  induction 1 as [|st Hst IH Hne].
  - simpl. unfold held. rewrite <-!list_fmap_compose.
    erewrite list_fmap_ext; [done|]. intros i p _. simpl.
    by rewrite remaining_advance.
  - rewrite content_step; [done | by eapply reachable_heap_inv | done].
Qed.

Lemma held_drained readers :
  (∀ r rd, readers !! r = Some rd → Merger.remaining rd = []) → held readers = [].
Proof.
  unfold held. induction readers as [|rd readers IH]; intros Hall; simpl; [done|].
  rewrite (Hall 0 rd eq_refl). simpl. apply IH. intros r rd'. apply (Hall (S r)).
Qed.

(** The lines the k-way merge writes are the lines of the chunks it could
    read, each as often as it occurs in them. *)
Lemma kWayMerge_written_perm fs existing :
  Merger.written (Merger.run fs existing)
  ≡ₚ concat ((λ p, readline_lines (default [] (fs !! p))) <$> existing).
Proof.
  rewrite <-(reachable_content fs existing (Merger.run fs existing))
    by apply run_reachable.
  rewrite held_drained; [by rewrite app_nil_r|].
  intros r rd Hrd.
  destruct (reachable_drain_inv fs existing _ (run_reachable fs existing)) as [Hout _].
  apply (Hout r rd Hrd). rewrite run_heap_empty. apply not_elem_of_nil.
Qed.

(** ** A run that needs a single chunk *)








(** * Further properties of the code *)

(** ** The binary heap, for any consistent comparator *)

(** X1.  [insert] on a heap-ordered array, for a comparator that orders its
    arguments consistently (never both ways, and transitively): the array
    stays heap-ordered, it holds the old elements and the new one, each as
    often as before, and it is one longer. *)
Theorem heap_insert_keeps_heap {A} (compareFn : A → A → Z) (heap : list A) (element : A) :
  (∀ x y, (compareFn x y < 0)%Z → ¬ (compareFn y x < 0)%Z) →
  (∀ x y z, heap_le compareFn x y → heap_le compareFn y z → heap_le compareFn x z) →
  heap_ordered compareFn heap →
  heap_ordered compareFn (MinHeap.insert compareFn heap element)
  ∧ MinHeap.insert compareFn heap element ≡ₚ element :: heap
  ∧ MinHeap.size (MinHeap.insert compareFn heap element) = S (MinHeap.size heap).
Proof.
  intros Hasym Htrans Hord. split_and!.
  - by apply insert_ordered.
  - apply insert_perm.
  - unfold MinHeap.size. by rewrite insert_perm.
Qed.

Lemma heap_insert_keeps_heap_witness :
  heap_ordered (λ a b : nat, Z.of_nat a - Z.of_nat b)%Z
    (MinHeap.insert (λ a b : nat, Z.of_nat a - Z.of_nat b)%Z [1; 3] 2).
Proof.
  refine (proj1 (heap_insert_keeps_heap (λ a b : nat, Z.of_nat a - Z.of_nat b)%Z
                   [1; 3] 2 _ _ _)).
  - intros x y. lia.
  - unfold heap_le. intros x y z. lia.
  - intros j x y Hj Hy Hx. destruct j as [|[|j]]; [lia | | done].
    vm_compute in Hy, Hx. injection Hy as <-. injection Hx as <-.
    unfold heap_le. lia.
Defined.

(** X2.  [extractMin] on a non-empty heap-ordered array, for a consistent
    comparator: it returns the element at the root, which no element of the
    heap is strictly before, and leaves a heap-ordered array holding the other
    elements.  On an empty heap it returns [null] and leaves the heap empty. *)
Theorem heap_extractMin_returns_minimum {A} (compareFn : A → A → Z) (heap : list A) :
  (∀ x y, (compareFn x y < 0)%Z → ¬ (compareFn y x < 0)%Z) →
  (∀ x y z, heap_le compareFn x y → heap_le compareFn y z → heap_le compareFn x z) →
  heap_ordered compareFn heap →
  match MinHeap.extractMin compareFn heap with
  | (Some min, heap') =>
      heap !! 0 = Some min
      ∧ (∀ y, y ∈ heap → ¬ (compareFn y min < 0)%Z)
      ∧ heap_ordered compareFn heap'
      ∧ heap ≡ₚ min :: heap'
      ∧ S (MinHeap.size heap') = MinHeap.size heap
  | (None, heap') => heap = [] ∧ heap' = []
  end.
Proof.
  intros Hasym Htrans Hord. destruct heap as [|m heap].
  { by rewrite extractMin_nil. }
  destruct (extractMin_spec compareFn Hasym Htrans (m :: heap) m eq_refl Hord)
    as (heap' & -> & Hord' & Hperm & Hmin).
  split_and!; try done. unfold MinHeap.size. by rewrite Hperm.
Qed.

Lemma heap_extractMin_returns_minimum_witness :
  match MinHeap.extractMin (λ a b : nat, Z.of_nat a - Z.of_nat b)%Z [1; 3; 2] with
  | (Some min, heap') =>
      [1; 3; 2] !! 0 = Some min
      ∧ (∀ y, y ∈ [1; 3; 2] → ¬ (Z.of_nat y - Z.of_nat min < 0)%Z)
      ∧ heap_ordered (λ a b : nat, Z.of_nat a - Z.of_nat b)%Z heap'
      ∧ [1; 3; 2] ≡ₚ min :: heap'
      ∧ S (MinHeap.size heap') = MinHeap.size [1; 3; 2]
  | (None, heap') => [1; 3; 2] = [] ∧ heap' = []
  end.
Proof.
  refine (heap_extractMin_returns_minimum (λ a b : nat, Z.of_nat a - Z.of_nat b)%Z
            [1; 3; 2] _ _ _).
  - intros x y. lia.
  - unfold heap_le. intros x y z. lia.
  - intros j x y Hj Hy Hx. destruct j as [|[|[|j]]]; [lia | | | done].
    + vm_compute in Hy, Hx. injection Hy as <-. injection Hx as <-.
      unfold heap_le. lia.
    + vm_compute in Hy, Hx. injection Hy as <-. injection Hx as <-.
      unfold heap_le. lia.
Defined.

(** ** What the k-way merge does to the lines and to the files *)

Lemma lookup_foldl_delete (fs : filesystem) (paths : list jsstring) (q : jsstring) :
  foldl (λ fs p, delete p fs) fs paths !! q
  = if decide (q ∈ paths) then None else fs !! q.
Proof.
  revert fs; induction paths as [|p paths IH]; intros fs.
  { destruct (decide (q ∈ [])) as [Hin|]; [by apply elem_of_nil in Hin | done]. }
  change (foldl (λ fs p, delete p fs) fs (p :: paths))
    with (foldl (λ fs p, delete p fs) (delete p fs) paths).
  rewrite IH. destruct (decide (q ∈ paths)) as [Hin|Hnotin].
  - destruct (decide (q ∈ p :: paths)) as [|Hn]; [done|].
    exfalso. apply Hn. by right.
  - destruct (decide (q = p)) as [->|Hne].
    + rewrite lookup_delete_eq.
      destruct (decide (p ∈ p :: paths)) as [|Hn]; [done|].
      exfalso. apply Hn. by left.
    + rewrite lookup_delete_ne by done.
      destruct (decide (q ∈ p :: paths)) as [[?|?]%elem_of_cons|]; done.
Qed.

Lemma written_no_eol fs existing :
  Forall no_eol (Merger.written (Merger.run fs existing)).
Proof.
  rewrite kWayMerge_written_perm. apply Forall_concat, Forall_fmap, Forall_true.
  intros p. apply readline_lines_no_eol.
Qed.

Lemma accessible_Some fs x p :
  Merger.accessible fs x = Some p ↔ x = Some p ∧ is_Some (fs !! p).
Proof.
  unfold Merger.accessible. destruct x as [q|]; [|by split; [|intros []]].
  destruct (fs !! q) eqn:E; split.
  - intros [= ->]. by rewrite E.
  - by intros [[= ->] _].
  - done.
  - intros [[= ->] [? ?]]. congruence.
Qed.

(** X3.  The lines the k-way merge writes are the lines of the chunks it can
    read, each as often as it occurs in them: no line is lost, repeated or
    made up.  The counter [linesWritten] ends up as their number. *)
Theorem kWayMerge_writes_every_line_once
    (fs : filesystem) (sortedChunks : list (option jsstring)) :
  let existing := omap (Merger.accessible fs) sortedChunks in
  let all_lines :=
    concat ((λ p, readline_lines (default [] (fs !! p))) <$> existing) in
  Merger.written (Merger.run fs existing) ≡ₚ all_lines
  ∧ Merger.linesWritten (Merger.run fs existing) = length all_lines.
Proof.
  intros existing all_lines. split; [apply kWayMerge_written_perm|].
  destruct (reachable_drain_inv fs existing _ (run_reachable fs existing)) as [_ ->].
  by rewrite kWayMerge_written_perm.
Qed.

(** X4.  When at least one chunk can be read, the k-way merge completes; the
    chunks it read are deleted; unless the output path is one of them, the
    output file holds the written lines, one per line, and reading it line by
    line gives them back; every other file is left as it was. *)
Theorem kWayMerge_file_system_effect
    (fs : filesystem) (sortedChunks : list (option jsstring)) (outputFile : jsstring) :
  let existing := omap (Merger.accessible fs) sortedChunks in
  let written := Merger.written (Merger.run fs existing) in
  existing ≠ [] →
  ∃ fs',
    Merger._kWayMerge sortedChunks outputFile fs = Done fs' undefined
    ∧ (∀ p, p ∈ existing → fs' !! p = None)
    ∧ (outputFile ∉ existing →
       fs' !! outputFile = Some (lines_content written)
       ∧ readline_lines (lines_content written) = written)
    ∧ (∀ q, q ∉ existing → q ≠ outputFile → fs' !! q = fs !! q).
Proof.
  intros existing written Hne.
  exists (foldl (λ fs p, delete p fs) (<[outputFile:=lines_content written]> fs) existing).
  split_and!.
  - unfold Merger._kWayMerge. fold existing. by destruct existing.
  - intros p Hp. rewrite lookup_foldl_delete. by rewrite decide_True.
  - intros Hout. rewrite lookup_foldl_delete, decide_False by done.
    rewrite lookup_insert_eq. split; [done|].
    apply readline_lines_content, written_no_eol.
  - intros q Hq Hne'. rewrite lookup_foldl_delete, decide_False by done.
    by rewrite lookup_insert_ne.
Qed.

Lemma kWayMerge_file_system_effect_witness :
  ∃ fs',
    Merger._kWayMerge three_chunks (js "out.txt") three_chunks_fs = Done fs' undefined
    ∧ (∀ p, p ∈ omap (Merger.accessible three_chunks_fs) three_chunks → fs' !! p = None)
    ∧ (js "out.txt" ∉ omap (Merger.accessible three_chunks_fs) three_chunks →
       fs' !! js "out.txt"
       = Some (lines_content
                 (Merger.written
                    (Merger.run three_chunks_fs
                       (omap (Merger.accessible three_chunks_fs) three_chunks))))
       ∧ readline_lines
           (lines_content
              (Merger.written
                 (Merger.run three_chunks_fs
                    (omap (Merger.accessible three_chunks_fs) three_chunks))))
         = Merger.written
             (Merger.run three_chunks_fs
                (omap (Merger.accessible three_chunks_fs) three_chunks)))
    ∧ (∀ q, q ∉ omap (Merger.accessible three_chunks_fs) three_chunks →
            q ≠ js "out.txt" → fs' !! q = three_chunks_fs !! q).
Proof.
  refine (kWayMerge_file_system_effect three_chunks_fs three_chunks (js "out.txt") _).
  by vm_compute.
Defined.

Lemma omap_accessible_idem fs (sortedChunks : list (option jsstring)) :
  omap (Merger.accessible fs) (Some <$> omap (Merger.accessible fs) sortedChunks)
  = omap (Merger.accessible fs) sortedChunks.
Proof.
  induction sortedChunks as [|x l IH]; csimpl; [done|].
  destruct (Merger.accessible fs x) as [p|] eqn:E; [|done]. csimpl.
  apply accessible_Some in E as [-> [data Hdata]].
  rewrite Hdata. by rewrite IH.
Qed.

(** X5.  Chunks that cannot be read (missing files, [undefined] entries) are
    skipped: the merge does exactly what it does on the list of the chunks it
    can read.  It fails only when it can read none, and then it leaves the
    file system as it was, without creating the output file. *)
Theorem kWayMerge_skips_unreadable_chunks
    (fs : filesystem) (sortedChunks : list (option jsstring)) (outputFile : jsstring) :
  let existing := omap (Merger.accessible fs) sortedChunks in
  Merger._kWayMerge sortedChunks outputFile fs
  = Merger._kWayMerge (Some <$> existing) outputFile fs
  ∧ (existing = [] ↔
     Merger._kWayMerge sortedChunks outputFile fs
     = Throw fs (js "no valid chunk files found for merging")).
Proof.
  intros existing. split.
  - unfold Merger._kWayMerge. unfold existing. by rewrite omap_accessible_idem.
  - unfold Merger._kWayMerge. fold existing. by destruct existing.
Qed.

(** The scenario of one of three sorted chunks deleted before the merge: the
    output holds the lines of the two chunks that are left. *)
Lemma kWayMerge_missing_chunk_scenario :
  Merger._kWayMerge three_chunks (js "out.txt")
    (delete (js "tmp/chunk_000001.sorted.txt") three_chunks_fs)
  = Done {[ js "out.txt" := lines_content [js "a"; js "c"; js "d"; js "f"] ]} undefined.
Proof. by vm_compute. Qed.

(** ** [merge] and the hierarchical merge *)

Lemma pow_ge_self m n : 2 ≤ m → n ≤ m ^ n.
Proof. intros Hm. pose proof (Nat.pow_gt_lin_r m n ltac:(lia)). lia. Qed.

(** X6.  Unless the option [maxOpenFiles] is one, [merge] comes to an end,
    completing or failing, whatever the chunks and the files: the loops of
    the hierarchical merge end within the number of chunks. *)
Theorem merge_terminates
    (fs : filesystem) (sortedChunks : list (option jsstring)) (outputFile : jsstring)
    (options_maxOpenFiles : option nat) :
  options_maxOpenFiles ≠ Some 1 →
  Merger.merge sortedChunks outputFile options_maxOpenFiles fs ≠ Unfinished.
Proof.
  intros Hopt. unfold Merger.merge.
  set (m := match options_maxOpenFiles with
            | Some n => if n =? 0 then 100 else n
            | None => 100
            end).
  assert (2 ≤ m) as Hm.
  { unfold m. destruct options_maxOpenFiles as [[|[|n]]|]; simpl; try lia. done. }
  destruct (Nat.leb_spec (length sortedChunks) m) as [Hle|Hgt]; unfold io_bind.
  - pose proof (kWayMerge_finishes sortedChunks outputFile fs).
    by destruct (Merger._kWayMerge sortedChunks outputFile fs).
  - unfold Merger._hierarchicalMerge.
    destruct (sortedChunks !! 0) as [[first|]|]; [|done..].
    unfold io_bind.
    pose proof (levels_loop_spec (path_dirname first) m Hm (length sortedChunks)
                  (length sortedChunks) 0 sortedChunks fs ltac:(done) ltac:(lia)
                  (pow_ge_self m _ Hm)) as Hlevels.
    destruct (Merger.levels_loop _ _ _ _ _ _) as [fs1 [last levels]| |]; [|done..].
    simpl. destruct (_ && _); [|done].
    unfold Merger.rename. destruct (mjoin (last !! 0)) as [p|]; [|done].
    by destruct (fs1 !! p).
Qed.

Lemma merge_terminates_witness :
  Merger.merge three_chunks (js "out.txt") None three_chunks_fs ≠ Unfinished.
Proof.
  refine (merge_terminates three_chunks_fs three_chunks (js "out.txt") None _).
  discriminate.
Defined.

(** A k-way merge of sorted chunks leaves every file that held sorted lines
    holding sorted lines: a file is deleted, or it is the merged output, or it
    is untouched. *)
Lemma kWayMerge_keeps_sorted fs group merged fs' v :
  Forall (chunk_sorted fs) group →
  Merger._kWayMerge group merged fs = Done fs' v →
  (∀ x, chunk_sorted fs x → chunk_sorted fs' x) ∧ chunk_sorted fs' (Some merged).
Proof.
  intros Hgroup Hmerge. unfold Merger._kWayMerge in Hmerge.
  set (existing := omap (Merger.accessible fs) group) in *.
  destruct (length existing =? 0); [done|]. injection Hmerge as <- _.
  assert (nondecreasing
            (readline_lines (lines_content (Merger.written (Merger.run fs existing)))))
    as Hout.
  { rewrite readline_lines_content by apply written_no_eol.
    apply (reachable_order_inv fs existing); [by apply existing_sorted|].
    apply run_reachable. }
  assert (∀ p, chunk_sorted fs (Some p) ∨ p = merged →
               chunk_sorted
                 (foldl (λ fs p, delete p fs)
                    (<[merged:=lines_content (Merger.written (Merger.run fs existing))]> fs)
                    existing) (Some p)) as Hall.
  { intros p Hp. unfold chunk_sorted. rewrite lookup_foldl_delete.
    destruct (decide (p ∈ existing)); [done|].
    destruct (decide (p = merged)) as [->|Hne].
    - by rewrite lookup_insert_eq.
    - rewrite lookup_insert_ne by done. by destruct Hp. }
  split; [|apply Hall; by right].
  intros [p|] Hx; [|done]. apply Hall. by left.
Qed.

Lemma level_loop_sorted tempDir m levelIndex currentLevel :
  ∀ fuel i nextLevel fs,
    Forall (chunk_sorted fs) currentLevel →
    Forall (chunk_sorted fs) nextLevel →
    match Merger.level_loop fuel tempDir m levelIndex i currentLevel nextLevel fs with
    | Done fs' next =>
        Forall (chunk_sorted fs') next
        ∧ (∀ x, chunk_sorted fs x → chunk_sorted fs' x)
        ∧ length nextLevel ≤ length next
        ∧ (i < length currentLevel → length nextLevel < length next)
    | _ => True
    end.
Proof.
  induction fuel as [|fuel IH]; intros i next fs Hcur Hnext; simpl.
  - destruct (Nat.ltb_spec i (length currentLevel)); [done|].
    unfold io_ret. split_and!; [done | done | done | lia].
  - destruct (Nat.ltb_spec i (length currentLevel)) as [Hi|Hi]; last first.
    { unfold io_ret. split_and!; [done | done | done | lia]. }
    set (group := slice currentLevel i (i + m)).
    assert (Forall (chunk_sorted fs) group) as Hgroup
      by (unfold group, slice; by apply Forall_take, Forall_drop).
    destruct (_ && _).
    + assert (chunk_sorted fs (mjoin (group !! 0))) as Hfirst.
      { destruct (group !! 0) as [x|] eqn:E; [|done]. simpl.
        rewrite Forall_forall in Hgroup. apply Hgroup.
        by eapply list_elem_of_lookup_2. }
      specialize (IH (i + m) (next ++ [mjoin (group !! 0)]) fs Hcur
                    ltac:(apply Forall_app; split; [done | by constructor])).
      destruct (Merger.level_loop _ _ _ _ _ _ _ _) as [fs' next'| |]; [|done..].
      destruct IH as (? & ? & Hlen & _). rewrite length_app in Hlen. simpl in Hlen.
      split_and!; [done | done | lia | lia].
    + unfold io_bind at 1.
      destruct (Merger._kWayMerge _ _ fs) as [fs1 v| |] eqn:Emerge; [|done..].
      destruct (kWayMerge_keeps_sorted _ _ _ _ _ Hgroup Emerge) as [Hmono Hmerged].
      specialize (IH (i + m)
                    (next ++ [Some (Merger.mergedChunkPath tempDir levelIndex (i / m))])
                    fs1).
      destruct (Merger.level_loop _ _ _ _ _ _ _ _) as [fs' next'| |]; [|done..].
      destruct IH as (? & Hmono' & Hlen & _).
      { eapply Forall_impl; [exact Hcur | done]. }
      { apply Forall_app. split; [|by constructor].
        eapply Forall_impl; [exact Hnext | done]. }
      rewrite length_app in Hlen. simpl in Hlen.
      split_and!; [done | by auto | lia | lia].
Qed.

Lemma levels_loop_sorted tempDir m :
  ∀ fuel levelIndex currentLevel fs,
    Forall (chunk_sorted fs) currentLevel →
    currentLevel ≠ [] →
    match Merger.levels_loop fuel tempDir m levelIndex currentLevel fs with
    | Done fs' (last, _) => Forall (chunk_sorted fs') last ∧ length last = 1
    | _ => True
    end.
Proof.
  induction fuel as [|fuel IH]; intros lvl cur fs Hcur Hne; simpl.
  - destruct (Nat.ltb_spec 1 (length cur)); [done|]. unfold io_ret.
    split; [done|]. destruct cur; [done | simpl in *; lia].
  - destruct (Nat.ltb_spec 1 (length cur)) as [Hgt|Hle]; last first.
    { unfold io_ret. split; [done|]. destruct cur; [done | simpl in *; lia]. }
    unfold io_bind at 1.
    pose proof (level_loop_sorted tempDir m (S lvl) cur (length cur) 0 [] fs Hcur
                  ltac:(constructor)) as Hlevel.
    destruct (Merger.level_loop _ _ _ _ _ _ _ _) as [fs1 next| |]; [|done..].
    destruct Hlevel as (Hnext & _ & _ & Hlen).
    specialize (Hlen ltac:(lia)). simpl in Hlen.
    apply IH; [done|]. destruct next; [simpl in Hlen; lia | done].
Qed.

Lemma hierarchicalMerge_keeps_sorted
    (fs fs' : filesystem) (sortedChunks : list (option jsstring)) (outputFile : jsstring)
    (maxOpenFiles fuel : nat) (value : jsvalue) :
  Forall (chunk_sorted fs) sortedChunks →
  Merger._hierarchicalMerge fuel sortedChunks outputFile maxOpenFiles fs
  = Done fs' value →
  match fs' !! outputFile with
  | Some data => nondecreasing (readline_lines data)
  | None => True
  end.
Proof.
  intros Hsorted. unfold Merger._hierarchicalMerge.
  destruct (sortedChunks !! 0) as [[first|]|] eqn:Efirst; [|done..].
  unfold io_bind at 1.
  pose proof (levels_loop_sorted (path_dirname first) maxOpenFiles fuel 0 sortedChunks
                fs Hsorted ltac:(by destruct sortedChunks)) as Hlevels.
  destruct (Merger.levels_loop _ _ _ _ _ _) as [fs1 [last levels]| |]; [|done..].
  destruct Hlevels as [Hlast Hlen]. simpl.
  destruct last as [|x [|]]; [done | | done]. simpl.
  apply Forall_cons in Hlast as [Hx _]. destruct x as [p|]; simpl; [|done].
  case_bool_decide as Hp; simpl.
  - injection Hp as ->. unfold io_ret. intros [= <- _]. exact Hx.
  - unfold io_bind, Merger.rename. simpl in Hx.
    destruct (fs1 !! p) as [data|]; [|done]. unfold io_ret. intros [= <- _].
    by rewrite lookup_insert_eq.
Qed.

(** X7.  When every chunk that can be read holds non-decreasing lines and the
    hierarchical merge completes, the output file holds non-decreasing lines;
    the loop ends with a single file, which is the output path or is renamed
    to it. *)
Theorem hierarchicalMerge_output_sorted
    (fs fs' : filesystem) (sortedChunks : list (option jsstring)) (outputFile : jsstring)
    (maxOpenFiles fuel : nat) (value : jsvalue) :
  Forall (chunk_sorted fs) sortedChunks →
  Merger._hierarchicalMerge fuel sortedChunks outputFile maxOpenFiles fs
  = Done fs' value →
  match fs' !! outputFile with
  | Some data => nondecreasing (readline_lines data)
  | None => True
  end.
Proof. apply hierarchicalMerge_keeps_sorted. Qed.

Lemma hierarchicalMerge_output_sorted_witness :
  match ({[ js "out.txt" :=
              lines_content [js "a"; js "b"; js "c"; js "d"; js "e"; js "f"] ]}
           : filesystem) !! js "out.txt" with
  | Some data => nondecreasing (readline_lines data)
  | None => True
  end.
Proof.
  refine (hierarchicalMerge_output_sorted three_chunks_fs
            {[ js "out.txt" :=
                 lines_content [js "a"; js "b"; js "c"; js "d"; js "e"; js "f"] ]}
            three_chunks (js "out.txt") 2 3 undefined _ _).
  - repeat constructor.
  - by vm_compute.
Defined.


(** ** The chunk sorters and the sort scheduler *)

(** X8.  [sortLines] returns the lines it is given in non-decreasing order for
    [<] on strings, each as often as it was given; lines already in order
    come back unchanged. *)
Theorem sortLines_sorts (lines : list jsstring) :
  nondecreasing (Sorter.sortLines lines)
  ∧ Sorter.sortLines lines ≡ₚ lines
  ∧ (nondecreasing lines → Sorter.sortLines lines = lines).
Proof.
  unfold Sorter.sortLines. split_and!.
  - apply array_sort_sorted.
  - apply array_sort_perm.
  - intros Hsorted. apply nondecreasing_unique;
      [apply array_sort_sorted | done | apply array_sort_perm].
Qed.







(** ** The sort scheduler *)

(** The write of the worker completes, or fails and leaves the file system
    as it is. *)
Lemma sortChunk_write_spec (chunkPath data : jsstring) (fs : filesystem) :
  SorterWorker.sortChunk_write chunkPath data fs
  = Done (delete chunkPath (<[sorted_path chunkPath := worker_sorted_content data]> fs))
      (sorted_path chunkPath)
  ∨ ∃ message, SorterWorker.sortChunk_write chunkPath data fs = Throw fs message.
Proof.
  unfold SorterWorker.sortChunk_write, SorterWorker.rethrow, io_bind, createFile.
  fold (sorted_path chunkPath).
  destruct (is_directory fs (sorted_path chunkPath)); [right; by eexists|].
  destruct (directory_exists fs (path_dirname (sorted_path chunkPath)));
    [by left | right; by eexists].
Qed.

(** So does the inline sorter. *)
Lemma inline_sortChunk_cases (chunkPath : jsstring) (fs : filesystem) :
  (∃ data, fs !! chunkPath = Some data
           ∧ Sorter.sortChunk chunkPath fs
             = Done (delete chunkPath
                       (<[sorted_path chunkPath := inline_sorted_content data]> fs))
                 (sorted_path chunkPath))
  ∨ ∃ message, Sorter.sortChunk chunkPath fs = Throw fs message.
Proof.
  unfold Sorter.sortChunk, io_bind, readFile, createFile.
  fold (sorted_path chunkPath).
  destruct (fs !! chunkPath) as [data|]; [|right; by eexists].
  cbv beta iota zeta.
  destruct (is_directory fs (sorted_path chunkPath)); [right; by eexists|].
  destruct (directory_exists fs (path_dirname (sorted_path chunkPath)));
    [left; by exists data | right; by eexists].
Qed.

Lemma inline_sortChunk_path (chunkPath sortedChunkPath : jsstring) (fs fs' : filesystem) :
  Sorter.sortChunk chunkPath fs = Done fs' sortedChunkPath →
  sortedChunkPath = sorted_path chunkPath.
Proof.
  destruct (inline_sortChunk_cases chunkPath fs) as [(data & _ & ->)|[message ->]];
    [|done].
  by intros [= _ <-].
Qed.

Lemma sortChunks_sequential_paths (chunkFiles : list jsstring) :
  ∀ (sortedChunks result : list jsstring) (fs fs' : filesystem),
    Sorter.sortChunks_sequential chunkFiles sortedChunks fs = Done fs' result →
    result = sortedChunks ++ (sorted_path <$> chunkFiles).
Proof.
  induction chunkFiles as [|chunkPath rest IH]; intros sortedChunks result fs fs'; simpl.
  - intros [= _ <-]. by rewrite app_nil_r.
  - unfold io_bind at 1.
    destruct (Sorter.sortChunk chunkPath fs) as [fs1 p| |] eqn:Hsort; [|done..].
    apply inline_sortChunk_path in Hsort as ->.
    intros ->%IH. by rewrite <-app_assoc.
Qed.

Lemma sortChunks_sequential_mode
    (cpus : nat) (schedule : list nat) (chunkFiles : list jsstring)
    (opts : Sorter.options) (fs fs' : filesystem) (result : list (option jsstring)) :
  Sorter.useWorkers opts = Some false ∨ length chunkFiles ≤ 1 →
  Sorter.sortChunks cpus schedule chunkFiles opts fs = Done fs' result →
  result = Some <$> (sorted_path <$> chunkFiles).
Proof.
  intros Hmode. unfold Sorter.sortChunks.
  assert (negb (default true (Sorter.useWorkers opts)) || (length chunkFiles <=? 1)
          = true) as ->.
  { destruct Hmode as [->|Hlen]; [done|].
    apply orb_true_iff. right. by apply Nat.leb_le. }
  unfold io_bind.
  destruct (Sorter.sortChunks_sequential chunkFiles [] fs) as [fs1 paths| |] eqn:Hseq;
    [|done..].
  apply sortChunks_sequential_paths in Hseq as ->. by intros [= _ <-].
Qed.

(** X12.  Without workers, or with at most one chunk, [sortChunks] sorts the
    chunks one after the other: a result it returns holds, in the order of
    the chunks, the sorted path of every chunk. *)
Theorem sortChunks_sequential_keeps_order
    (cpus : nat) (schedule : list nat) (chunkFiles : list jsstring)
    (opts : Sorter.options) (fs fs' : filesystem) (result : list (option jsstring)) :
  Sorter.useWorkers opts = Some false ∨ length chunkFiles ≤ 1 →
  Sorter.sortChunks cpus schedule chunkFiles opts fs = Done fs' result →
  result = Some <$> (sorted_path <$> chunkFiles).
Proof. apply sortChunks_sequential_mode. Qed.

Lemma sortChunks_sequential_keeps_order_witness :
  [Some (js "tmp/chunk_000000.sorted.txt"); Some (js "tmp/chunk_000001.sorted.txt")]
  = Some <$> (sorted_path <$> two_chunk_files).
Proof.
  refine (sortChunks_sequential_keeps_order 2 [] two_chunk_files
            {| Sorter.useWorkers := Some false; Sorter.maxWorkers := None |}
            two_chunks_fs
            {[ js "tmp/chunk_000000.sorted.txt" := lines_content [js "b"];
               js "tmp/chunk_000001.sorted.txt" := lines_content [js "a"] ]}
            _ _ _).
  - by left.
  - by vm_compute.
Defined.

Lemma one_worker_start (chunkFiles : list jsstring) :
  2 ≤ length chunkFiles → one_worker_inv chunkFiles (Sorter.start_pool chunkFiles 1).
Proof.
  intros Hlen. destruct chunkFiles as [|first chunkFiles]; [simpl in Hlen; lia|].
  unfold Sorter.start_pool.
  replace (Nat.min 1 (length (first :: chunkFiles))) with 1 by (simpl; lia).
  rewrite (start_pool_threads (first :: chunkFiles) 1 first) by (done || lia).
  exists 0, first, Sorter.Spawned. simpl. split_and!; try done.
  intros j th Hj. lia.
Qed.

Lemma one_worker_step (chunkFiles : list jsstring) (j : nat) (p : Sorter.pool)
    (fs : filesystem) :
  one_worker_inv chunkFiles p →
  ∃ fs' p',
    Sorter.worker_step chunkFiles j p fs = Done fs' p'
    ∧ (one_worker_inv chunkFiles p'
       ∨ Sorter.settled p' = Sorter.Fulfilled (Some <$> (sorted_path <$> chunkFiles))
       ∨ ∃ message, Sorter.settled p' = Sorter.Rejected message).
Proof.
  intros (k & path & s & Hpath & Hk & Hsettled & Hpool & Hresults & Hlen & Hexited
          & Hthread & Hs).
  assert (k < length chunkFiles) as Hklt by (by eapply lookup_lt_Some).
  unfold Sorter.worker_step.
  destruct (Sorter.threads p !! j) as [th|] eqn:Hth; cycle 1.
  { eexists _, _. split; [done|]. left. by exists k, path, s. }
  destruct (decide (j < k)) as [Hjk|Hjk].
  { rewrite (Hexited j th Hjk Hth). eexists _, _. split; [done|].
    left. by exists k, path, s. }
  assert (j = k) as ->.
  { apply lookup_lt_Some in Hth. lia. }
  rewrite Hthread in Hth. injection Hth as <-.
  cbn [Sorter.stage Sorter.chunkPath].
  destruct s as [|data|]; [| |done].
  - (* the read of the chunk *)
    unfold SorterWorker.sortChunk_read, SorterWorker.rethrow, readFile.
    destruct (fs !! path) as [data|].
    + eexists _, _. split; [done|]. left.
      exists k, path, (Sorter.Loaded data). unfold Sorter.set_stage.
      cbn [Sorter.completedChunks Sorter.settled Sorter.workerPool Sorter.results
           Sorter.threads].
      split_and!; try done.
      * by rewrite length_alter.
      * intros i th Hi. rewrite list_lookup_alter_ne by lia. by apply Hexited.
      * rewrite list_lookup_alter_eq, Hthread. done.
    + eexists _, _. split; [done|]. right; right.
      unfold Sorter.reject, Sorter.set_stage.
      cbn [Sorter.settled]. rewrite Hsettled. by eexists.
  - (* the write, and the message to the main thread *)
    destruct (sortChunk_write_spec path data fs) as [->|[message ->]]; cycle 1.
    { eexists _, _. split; [done|]. right; right.
      unfold Sorter.reject, Sorter.set_stage.
      cbn [Sorter.settled]. rewrite Hsettled. by eexists. }
    eexists _, _. split; [done|].
    unfold Sorter.on_success, Sorter.set_stage, Sorter.processNextChunk.
    cbn [Sorter.completedChunks Sorter.settled Sorter.workerPool Sorter.results
         Sorter.threads Sorter.slot Sorter.chunkIndex].
    rewrite Hk, Hpool, Hresults, Hsettled.
    assert (array_set (Some <$> (sorted_path <$> take k chunkFiles)) k (sorted_path path)
            = Some <$> (sorted_path <$> take (S k) chunkFiles)) as ->.
    { unfold array_set. rewrite !length_fmap, length_take.
      replace (k `min` length chunkFiles) with k by lia.
      rewrite (proj2 (Nat.ltb_ge k k)) by lia. rewrite Nat.sub_diag. simpl.
      rewrite (take_S_r _ _ _ Hpath). by rewrite !fmap_app. }
    destruct (Nat.eqb_spec (S k) (length chunkFiles)) as [Hlast|Hmore].
    + right; left. unfold Sorter.resolve. cbn [Sorter.settled Sorter.results].
      rewrite Hlast. by rewrite firstn_all.
    + left. simpl Sorter.find_free.
      destruct (chunkFiles !! S k) as [next|] eqn:Hnext; cycle 1.
      { apply lookup_ge_None in Hnext. lia. }
      exists (S k), next, Sorter.Spawned.
      cbn [Sorter.completedChunks Sorter.settled Sorter.workerPool Sorter.results
           Sorter.threads].
      assert (length (alter (λ th, {| Sorter.slot := Sorter.slot th;
                                      Sorter.chunkIndex := Sorter.chunkIndex th;
                                      Sorter.chunkPath := Sorter.chunkPath th;
                                      Sorter.stage := Sorter.Exited |}) k
                        (Sorter.threads p)) = S k) as Hlen'.
      { by rewrite length_alter. }
      split_and!; try done.
      * rewrite length_app, Hlen'. simpl. lia.
      * intros i th Hi. rewrite lookup_app_l by lia.
        destruct (decide (i = k)) as [->|Hik].
        -- rewrite list_lookup_alter_eq, Hthread. by intros [= <-].
        -- rewrite list_lookup_alter_ne by done. apply Hexited. lia.
      * rewrite lookup_app_r by lia. rewrite Hlen', Nat.sub_diag. done.
Qed.

Lemma one_worker_run (chunkFiles : list jsstring) (schedule : list nat) :
  ∀ (p : Sorter.pool) (fs fs' : filesystem) (result : list (option jsstring)),
    one_worker_inv chunkFiles p →
    Sorter.run_pool chunkFiles schedule p fs = Done fs' result →
    result = Some <$> (sorted_path <$> chunkFiles).
Proof.
  induction schedule as [|j rest IH]; intros p fs fs' result Hinv.
  - destruct Hinv as (k & path & s & _ & _ & Hsettled & _). simpl. by rewrite Hsettled.
  - destruct (one_worker_step chunkFiles j p fs Hinv) as (fs1 & p1 & Hstep & Hp1).
    destruct Hinv as (k & path & s & _ & _ & Hsettled & _).
    simpl. rewrite Hsettled. unfold io_bind. rewrite Hstep.
    destruct Hp1 as [Hinv1|[Hdone|[message Hfailed]]].
    + by apply IH.
    + destruct rest; simpl; rewrite Hdone; by intros [= _ <-].
    + destruct rest; simpl; by rewrite Hfailed.
Qed.

(** X13.  With one worker (asked for by [maxWorkers], or by default on a
    host with one processor), [sortChunks] is right for every order in which
    the worker threads run: a result it returns holds, in the order of the
    chunks, the sorted path of every chunk. *)
Theorem sortChunks_one_worker_keeps_order
    (cpus : nat) (schedule : list nat) (chunkFiles : list jsstring)
    (opts : Sorter.options) (fs fs' : filesystem)
    (result : list (option jsstring)) :
  Sorter.maxWorkers opts = Some 1
  ∨ cpus ≤ 1 ∧ (Sorter.maxWorkers opts = None ∨ Sorter.maxWorkers opts = Some 0) →
  Sorter.sortChunks cpus schedule chunkFiles opts fs = Done fs' result →
  result = Some <$> (sorted_path <$> chunkFiles).
Proof.
  intros Hone Hrun.
  destruct (decide (Sorter.useWorkers opts = Some false ∨ length chunkFiles ≤ 1))
    as [Hseq|Hpar].
  { eapply sortChunks_sequential_mode; [|exact Hrun]. exact Hseq. }
  revert Hrun. unfold Sorter.sortChunks.
  assert (negb (default true (Sorter.useWorkers opts)) || (length chunkFiles <=? 1)
          = false) as ->.
  { apply orb_false_iff. split.
    - destruct (Sorter.useWorkers opts) as [[]|]; try done. destruct Hpar. by left.
    - apply Nat.leb_gt. lia. }
  assert (match Sorter.maxWorkers opts with
          | Some n => if n =? 0 then Nat.max 1 (Nat.min 4 cpus) else n
          | None => Nat.max 1 (Nat.min 4 cpus)
          end = 1) as ->.
  { destruct Hone as [->|[Hcpus [->| ->]]]; [done|lia|].
    change (0 =? 0) with true. cbv iota. lia. }
  apply one_worker_run, one_worker_start. lia.
Qed.

Lemma sortChunks_one_worker_keeps_order_witness :
  [Some (js "tmp/chunk_000000.sorted.txt"); Some (js "tmp/chunk_000001.sorted.txt")]
  = Some <$> (sorted_path <$> two_chunk_files).
Proof.
  refine (sortChunks_one_worker_keeps_order 1 [0; 0; 1; 1] two_chunk_files
            {| Sorter.useWorkers := None; Sorter.maxWorkers := None |}
            two_chunks_fs
            {[ js "tmp/chunk_000000.sorted.txt" := lines_content [js "b"];
               js "tmp/chunk_000001.sorted.txt" := lines_content [js "a"] ]}
            _ _ _).
  - right. split; [lia|]. by left.
  - by vm_compute.
Defined.

(** X14.  With two chunks or more, the loop that starts the workers starts
    as many workers as [maxWorkers] and the number of chunks allow, and gives
    every one of them the first chunk: no other chunk is being sorted when
    [sortChunks] starts to wait. *)
Theorem sortChunks_starts_every_worker_on_first_chunk
    (chunkFiles : list jsstring) (maxWorkers : nat) (first : jsstring) :
  chunkFiles !! 0 = Some first →
  2 ≤ length chunkFiles →
  Sorter.threads (Sorter.start_pool chunkFiles maxWorkers)
  = (λ id, {| Sorter.slot := id; Sorter.chunkIndex := 0;
              Sorter.chunkPath := first; Sorter.stage := Sorter.Spawned |})
    <$> seq 0 (Nat.min maxWorkers (length chunkFiles))
  ∧ Sorter.completedChunks (Sorter.start_pool chunkFiles maxWorkers) = 0
  ∧ Sorter.settled (Sorter.start_pool chunkFiles maxWorkers) = Sorter.Pending.
Proof.
  intros Hfirst Hlen. unfold Sorter.start_pool.
  by rewrite (start_pool_threads chunkFiles maxWorkers first) by (done || lia).
Qed.

Lemma sortChunks_starts_every_worker_on_first_chunk_witness :
  Sorter.threads (Sorter.start_pool two_chunk_files 4)
  = (λ id, {| Sorter.slot := id; Sorter.chunkIndex := 0;
              Sorter.chunkPath := js "tmp/chunk_000000.txt";
              Sorter.stage := Sorter.Spawned |})
    <$> seq 0 (Nat.min 4 (length two_chunk_files))
  ∧ Sorter.completedChunks (Sorter.start_pool two_chunk_files 4) = 0
  ∧ Sorter.settled (Sorter.start_pool two_chunk_files 4) = Sorter.Pending.
Proof.
  refine (sortChunks_starts_every_worker_on_first_chunk two_chunk_files 4
            (js "tmp/chunk_000000.txt") _ _).
  - done.
  - simpl. lia.
Defined.

(** ** The chunks of the splitter *)

Lemma pretty_N_char_value (d : N) :
  (d < 10)%N → (N_of_ascii (pretty_N_char d) - 48 = d)%N.
Proof.
  intros Hd.
  assert (d = 0 ∨ d = 1 ∨ d = 2 ∨ d = 3 ∨ d = 4 ∨ d = 5 ∨ d = 6 ∨ d = 7 ∨ d = 8
          ∨ d = 9)%N as Hcases by lia.
  destruct_or!; subst d; reflexivity.
Qed.

Lemma decimal_value_pretty_go (x : N) : ∀ s : string,
  foldl (λ acc c, acc * 10 + (c - 48))%N 0%N (js (pretty_N_go x s))
  = foldl (λ acc c, acc * 10 + (c - 48))%N x (js s).
Proof.
  induction (N.lt_wf_0 x) as [x _ IH]; intros s.
  assert (x = 0 ∨ 0 < x)%N as [->|Hpos] by lia.
  { by rewrite pretty_N_go_0. }
  rewrite pretty_N_go_step by done.
  rewrite IH by (apply N.div_lt; lia).
  unfold js. simpl. rewrite pretty_N_char_value by (apply N.mod_lt; lia).
  f_equal. pose proof (N.div_mod x 10 ltac:(lia)). lia.
Qed.

Lemma decimal_value_String (n : nat) :
  decimal_value (String_of_nat n) = N.of_nat n.
Proof.
  unfold decimal_value, String_of_nat, pretty, pretty_N.
  destruct (decide (N.of_nat n = 0)%N) as [->|Hn]; [done|].
  by rewrite decimal_value_pretty_go.
Qed.

Lemma decimal_value_padStart (targetLength : nat) (s : jsstring) :
  decimal_value (padStart targetLength 48 s) = decimal_value s.
Proof.
  unfold decimal_value, padStart. rewrite foldl_app. f_equal.
  induction (targetLength - length s) as [|k IH]; [done|]. simpl. exact IH.
Qed.

Lemma getChunkPath_inj (tempDir : jsstring) (i j : nat) :
  Splitter._getChunkPath tempDir i = Splitter._getChunkPath tempDir j → i = j.
Proof.
  unfold Splitter._getChunkPath, path_join. intros Hpath.
  do 3 apply app_inv_head in Hpath. apply app_inv_tail in Hpath.
  apply (f_equal decimal_value) in Hpath.
  rewrite !decimal_value_padStart, !decimal_value_String in Hpath. lia.
Qed.

Lemma chunks_written_nil (tempDir : jsstring) (fs : filesystem) :
  chunks_written tempDir fs fs [].
Proof. split_and!; [constructor| |]; done. Qed.

Lemma chunks_written_snoc (tempDir : jsstring) (fs0 fs : filesystem)
    (chunks : list (list jsstring)) (chunk : list jsstring) :
  chunks_written tempDir fs0 fs chunks →
  chunk ≠ [] →
  chunks_written tempDir fs0
    (<[Splitter._getChunkPath tempDir (length chunks) := lines_content chunk]> fs)
    (chunks ++ [chunk]).
Proof.
  intros (Hne & Hheld & Hother) Hchunk. split_and!.
  - apply Forall_app. split; [done|]. by constructor.
  - intros i c Hi. destruct (decide (i = length chunks)) as [->|Hil].
    + rewrite lookup_app_r, Nat.sub_diag in Hi by lia. injection Hi as <-.
      apply lookup_insert_eq.
    + rewrite lookup_insert_ne by (intros Heq%getChunkPath_inj; done).
      apply Hheld. apply lookup_lt_Some in Hi as Hlt.
      rewrite length_app in Hlt. simpl in Hlt. by rewrite lookup_app_l in Hi by lia.
  - intros q Hq. rewrite length_app in Hq. simpl in Hq.
    rewrite lookup_insert_ne by (intros Heq; apply (Hq (length chunks)); [lia|done]).
    apply Hother. intros i Hi. apply Hq. lia.
Qed.

Lemma split_step_inv (self : Splitter.t) (tempDir : jsstring) (fs0 : filesystem)
    (processed : list jsstring) (fs : filesystem) (st : Splitter.state)
    (chunks : list (list jsstring)) (line : jsstring) :
  split_inv tempDir fs0 processed fs st chunks →
  ∃ fs' st' chunks',
    Splitter.split_step self tempDir st line fs = Done fs' st'
    ∧ split_inv tempDir fs0 (processed ++ [line]) fs' st' chunks'.
Proof.
  intros (Hwritten & Hlines & Hindex & Hfiles). rewrite split_step_spec.
  destruct (Splitter.chunkSizeBytes self
            <=? Splitter.currentChunkSize st + byteLength (line ++ [LF]))%N.
  - eexists _, _, (chunks ++ [Splitter.linesBuffer st ++ [line]]).
    split; [done|]. rewrite Hindex. split_and!; simpl.
    + apply chunks_written_snoc; [done|]. by destruct (Splitter.linesBuffer st).
    + rewrite concat_app. simpl. rewrite !app_nil_r, <-Hlines. by rewrite app_assoc.
    + rewrite length_app. simpl. lia.
    + rewrite Hfiles, length_app. simpl. rewrite Nat.add_1_r, seq_S, fmap_app. done.
  - eexists _, _, chunks. split; [done|]. split_and!; simpl; try done.
    by rewrite <-Hlines, app_assoc.
Qed.

Lemma split_loop_inv (self : Splitter.t) (tempDir : jsstring) (fs0 : filesystem)
    (lines : list jsstring) :
  ∀ (processed : list jsstring) (fs : filesystem) (st : Splitter.state)
    (chunks : list (list jsstring)),
    split_inv tempDir fs0 processed fs st chunks →
    ∃ fs' st' chunks',
      Splitter.split_loop self tempDir lines st fs = Done fs' st'
      ∧ split_inv tempDir fs0 (processed ++ lines) fs' st' chunks'.
Proof.
  induction lines as [|line lines IH]; intros processed fs st chunks Hinv; simpl.
  - exists fs, st, chunks. by rewrite app_nil_r.
  - destruct (split_step_inv self tempDir fs0 processed fs st chunks line Hinv)
      as (fs1 & st1 & chunks1 & Hstep & Hinv1).
    unfold io_bind. rewrite Hstep.
    destruct (IH _ _ _ _ Hinv1) as (fs2 & st2 & chunks2 & Hloop & Hinv2).
    exists fs2, st2, chunks2. split; [done|]. by rewrite <-app_assoc in Hinv2.
Qed.

(** What [split] does on an input that can be read. *)
Lemma split_spec (self : Splitter.t) (inputFile tempDir : jsstring)
    (fs : filesystem) (data : jsstring) :
  fs !! inputFile = Some data →
  ∃ fs' chunks,
    Splitter.split self inputFile tempDir fs
    = Done fs' (Splitter._getChunkPath tempDir <$> seq 0 (length chunks))
    ∧ chunks_written tempDir fs fs' chunks
    ∧ concat chunks = readline_lines data.
Proof.
  intros Hdata. unfold Splitter.split, io_bind at 1, readFile. rewrite Hdata.
  destruct (split_loop_inv self tempDir fs (readline_lines data) [] fs
              Splitter.initial [])
    as (fs1 & st & chunks & Hloop & Hwritten & Hlines & Hindex & Hfiles).
  { split_and!; [apply chunks_written_nil|done..]. }
  unfold io_bind at 1. rewrite Hloop. simpl in Hlines.
  destruct (Splitter.linesBuffer st) as [|line buffer] eqn:Hbuffer.
  - exists fs1, chunks. rewrite app_nil_r in Hlines. simpl. by rewrite Hfiles.
  - exists (<[Splitter._getChunkPath tempDir (length chunks)
               := lines_content (line :: buffer)]> fs1), (chunks ++ [line :: buffer]).
    simpl. split_and!.
    + unfold io_bind, Splitter._writeChunk, writeFile. simpl.
      rewrite Hfiles, Hindex, length_app. simpl.
      by rewrite Nat.add_1_r, seq_S, fmap_app.
    + by apply chunks_written_snoc.
    + rewrite concat_app. simpl. by rewrite app_nil_r.
Qed.

Lemma concat_nonempty_length {A} (chunks : list (list A)) :
  Forall (λ chunk, chunk ≠ []) chunks → length chunks ≤ length (concat chunks).
Proof.
  induction 1 as [|chunk chunks Hchunk _ IH]; simpl; [done|].
  rewrite length_app. destruct chunk; [done|]. simpl. lia.
Qed.

Lemma Forall_concat_lookup {A} (P : A → Prop) (chunks : list (list A)) :
  ∀ (i : nat) (chunk : list A),
    Forall P (concat chunks) → chunks !! i = Some chunk → Forall P chunk.
Proof.
  induction chunks as [|c chunks IH]; intros i chunk Hall Hi; [done|].
  simpl in Hall. apply Forall_app in Hall as [Hc Hrest].
  destruct i as [|i]; simpl in Hi.
  - by injection Hi as <-.
  - by apply (IH i).
Qed.

Lemma readline_lines_nil (data : jsstring) : readline_lines data = [] ↔ data = [].
Proof.
  split; [|by intros ->]. destruct data as [|c data]; [done|]. simpl.
  repeat case_match; done.
Qed.

(** X15.  [split] on an input that can be read completes and returns the
    chunk paths of indices 0, 1, ... in this order; it returns no chunk
    exactly when the input is empty, and never more chunks than the input has
    lines. *)
Theorem split_chunk_paths (self : Splitter.t) (inputFile tempDir : jsstring)
    (fs : filesystem) (data : jsstring) :
  fs !! inputFile = Some data →
  ∃ fs' n,
    Splitter.split self inputFile tempDir fs
    = Done fs' (Splitter._getChunkPath tempDir <$> seq 0 n)
    ∧ (n = 0 ↔ data = [])
    ∧ n ≤ length (readline_lines data).
Proof.
  intros Hdata.
  destruct (split_spec self inputFile tempDir fs data Hdata)
    as (fs' & chunks & Hsplit & (Hne & _) & Hlines).
  exists fs', (length chunks). split; [done|].
  pose proof (concat_nonempty_length chunks Hne) as Hlen. rewrite Hlines in Hlen.
  split; [|done]. rewrite <-readline_lines_nil, <-Hlines. split.
  - by intros ->%length_zero_iff_nil.
  - intros Hconcat. rewrite <-Hlines, Hconcat in Hlen. simpl in Hlen. lia.
Qed.

Lemma split_chunk_paths_witness :
  ∃ fs' n,
    Splitter.split (Splitter.constructor (Some 10%N)) (js "in.txt") (js "tmp")
      {[ js "in.txt" := js "ab" ++ [LF] ++ js "cdefg" ++ [LF] ++ js "h" ]}
    = Done fs' (Splitter._getChunkPath (js "tmp") <$> seq 0 n)
    ∧ (n = 0 ↔ js "ab" ++ [LF] ++ js "cdefg" ++ [LF] ++ js "h" = [])
    ∧ n ≤ length (readline_lines (js "ab" ++ [LF] ++ js "cdefg" ++ [LF] ++ js "h")).
Proof.
  refine (split_chunk_paths (Splitter.constructor (Some 10%N)) (js "in.txt") (js "tmp")
            _ (js "ab" ++ [LF] ++ js "cdefg" ++ [LF] ++ js "h") _).
  by vm_compute.
Defined.

(** X16.  [split] loses no line and adds none: the chunks it writes are
    non-empty, joined in the order of their paths they are the lines of the
    input in the order of the input, every chunk file read line by line gives
    back its chunk, and no file other than the chunk files is changed. *)
Theorem split_preserves_lines (self : Splitter.t) (inputFile tempDir : jsstring)
    (fs : filesystem) (data : jsstring) :
  fs !! inputFile = Some data →
  ∃ fs' chunks,
    Splitter.split self inputFile tempDir fs
    = Done fs' (Splitter._getChunkPath tempDir <$> seq 0 (length chunks))
    ∧ concat chunks = readline_lines data
    ∧ Forall (λ chunk, chunk ≠ []) chunks
    ∧ (∀ i chunk, chunks !! i = Some chunk →
         ∃ content,
           fs' !! Splitter._getChunkPath tempDir i = Some content
           ∧ content = lines_content chunk
           ∧ readline_lines content = chunk)
    ∧ (∀ q, (∀ i, i < length chunks → q ≠ Splitter._getChunkPath tempDir i) →
         fs' !! q = fs !! q).
Proof.
  intros Hdata.
  destruct (split_spec self inputFile tempDir fs data Hdata)
    as (fs' & chunks & Hsplit & (Hne & Hheld & Hother) & Hlines).
  exists fs', chunks. split_and!; try done.
  intros i chunk Hi. exists (lines_content chunk). split_and!; [by apply Hheld|done|].
  apply readline_lines_content.
  apply (Forall_concat_lookup _ chunks i); [|done].
  rewrite Hlines. apply readline_lines_no_eol.
Qed.

Lemma split_preserves_lines_witness :
  ∃ fs' chunks,
    Splitter.split (Splitter.constructor (Some 10%N)) (js "in.txt") (js "tmp")
      {[ js "in.txt" := js "ab" ++ [LF] ++ js "cdefg" ++ [LF] ++ js "h" ]}
    = Done fs' (Splitter._getChunkPath (js "tmp") <$> seq 0 (length chunks))
    ∧ concat chunks
      = readline_lines (js "ab" ++ [LF] ++ js "cdefg" ++ [LF] ++ js "h")
    ∧ Forall (λ chunk, chunk ≠ []) chunks
    ∧ (∀ i chunk, chunks !! i = Some chunk →
         ∃ content,
           fs' !! Splitter._getChunkPath (js "tmp") i = Some content
           ∧ content = lines_content chunk
           ∧ readline_lines content = chunk)
    ∧ (∀ q, (∀ i, i < length chunks → q ≠ Splitter._getChunkPath (js "tmp") i) →
         fs' !! q
         = ({[ js "in.txt" := js "ab" ++ [LF] ++ js "cdefg" ++ [LF] ++ js "h" ]}
              : filesystem) !! q).
Proof.
  refine (split_preserves_lines (Splitter.constructor (Some 10%N)) (js "in.txt")
            (js "tmp") _ (js "ab" ++ [LF] ++ js "cdefg" ++ [LF] ++ js "h") _).
  by vm_compute.
Defined.

(** ** What the sort scheduler leaves for the merge *)

Lemma sorted_chunk_data_chunk_data (data : jsstring) :
  sorted_chunk_data data → chunk_data data.
Proof. intros (lines & -> & Hlines & _). by exists lines. Qed.

Lemma sorted_chunk_data_lines (data : jsstring) :
  sorted_chunk_data data → nondecreasing (readline_lines data).
Proof. intros (lines & -> & Hlines & Hsorted). by rewrite readline_lines_content. Qed.

Lemma worker_sorted_content_sorted (data : jsstring) :
  chunk_data data → sorted_chunk_data (worker_sorted_content data).
Proof.
  intros (lines & -> & Hlines). rewrite worker_sorted_content_lines by done.
  case_decide as Hkept.
  - exists [[]]. split_and!; [done| |]; repeat constructor.
  - eexists. split_and!; [done| |].
    + rewrite array_sort_perm. apply Forall_forall.
      intros line [_ Hline]%list_elem_of_filter.
      by apply (proj1 (Forall_forall _ _) Hlines).
    + apply array_sort_sorted.
Qed.

Lemma elem_of_array_set {A} (l : list (option A)) (i : nat) (v x : A) :
  Some x ∈ array_set l i v → Some x ∈ l ∨ x = v.
Proof.
  unfold array_set. destruct (i <? length l) eqn:Hi.
  - intros (j & Hj)%list_elem_of_lookup_1.
    destruct (decide (j = i)) as [->|Hne].
    + apply Nat.ltb_lt in Hi. rewrite list_lookup_insert_eq in Hj by done.
      right. by injection Hj.
    + rewrite list_lookup_insert_ne in Hj by done. left.
      by eapply list_elem_of_lookup_2.
  - rewrite !elem_of_app. intros [Hl|[Hhole|Hv]].
    + by left.
    + by apply elem_of_replicate in Hhole as [? _].
    + apply list_elem_of_singleton in Hv. right. by injection Hv.
Qed.

Lemma pool_inv_set_stage (chunkFiles : list jsstring) (p : Sorter.pool)
    (fs : filesystem) (k : nat) (s : Sorter.phase) :
  pool_inv chunkFiles p fs →
  (∀ data, s = Sorter.Loaded data → chunk_data data) →
  pool_inv chunkFiles (Sorter.set_stage k s p) fs.
Proof.
  intros (Hchunks & Hresults & Hthreads & Hvalue) Hs.
  split_and!; try done. simpl.
  intros th (i & Hi)%list_elem_of_lookup_1.
  destruct (decide (i = k)) as [->|Hne].
  - rewrite list_lookup_alter_eq in Hi.
    destruct (Sorter.threads p !! k) as [th0|] eqn:Hth0; [|done].
    injection Hi as <-. simpl. split; [|done].
    by apply (Hthreads th0), list_elem_of_lookup_2 with k.
  - rewrite list_lookup_alter_ne in Hi by done.
    by apply Hthreads, list_elem_of_lookup_2 with i.
Qed.

Lemma pool_inv_reject (chunkFiles : list jsstring) (p : Sorter.pool)
    (fs : filesystem) (message : jsstring) :
  pool_inv chunkFiles p fs → pool_inv chunkFiles (Sorter.reject message p) fs.
Proof.
  intros Hinv. unfold Sorter.reject.
  destruct (Sorter.settled p) eqn:Hsettled; [|done..].
  destruct Hinv as (Hchunks & Hresults & Hthreads & Hvalue).
  split_and!; done.
Qed.

Lemma pool_inv_processNextChunk (chunkFiles : list jsstring) (p : Sorter.pool)
    (fs : filesystem) :
  pool_inv chunkFiles p fs →
  pool_inv chunkFiles (Sorter.processNextChunk chunkFiles p) fs.
Proof.
  intros Hinv. pose proof Hinv as (Hchunks & Hresults & Hthreads & Hvalue).
  unfold Sorter.processNextChunk. destruct (_ =? _).
  { unfold Sorter.resolve. destruct (Sorter.settled p) eqn:Hsettled; [|done..].
    split_and!; try done. simpl. by intros value [= <-]. }
  destruct (Sorter.find_free _ _) as [availableWorker|]; [|done].
  destruct (chunkFiles !! Sorter.completedChunks p) as [chunkPath|] eqn:Hpath; [|done].
  split_and!; try done. simpl.
  intros th [Hth|Hth%list_elem_of_singleton]%elem_of_app; [by apply Hthreads|].
  subst th. simpl. split; [|done]. by eapply list_elem_of_lookup_2.
Qed.

Lemma pool_inv_start (chunkFiles : list jsstring) (fs : filesystem) :
  (∀ chunkPath data, chunkPath ∈ chunkFiles → fs !! chunkPath = Some data →
     chunk_data data) →
  ∀ (n maxWorkers : nat),
    pool_inv chunkFiles
      (Nat.iter n (Sorter.processNextChunk chunkFiles)
         {| Sorter.workerPool := replicate maxWorkers false; Sorter.results := [];
            Sorter.completedChunks := 0; Sorter.threads := [];
            Sorter.settled := Sorter.Pending |}) fs.
Proof.
  intros Hchunks n maxWorkers. induction n as [|n IH].
  - simpl. split_and!; try done; simpl.
    + intros ?? Hin. by apply elem_of_nil in Hin.
    + intros ? Hin. by apply elem_of_nil in Hin.
  - rewrite Nat.iter_succ. by apply pool_inv_processNextChunk.
Qed.

Lemma pool_inv_step (chunkFiles : list jsstring) (k : nat) (p p' : Sorter.pool)
    (fs fs' : filesystem) :
  pool_inv chunkFiles p fs →
  Sorter.settled p = Sorter.Pending →
  Sorter.worker_step chunkFiles k p fs = Done fs' p' →
  pool_inv chunkFiles p' fs'.
Proof.
  intros Hinv Hpending. pose proof Hinv as (Hchunks & Hresults & Hthreads & Hvalue).
  unfold Sorter.worker_step.
  destruct (Sorter.threads p !! k) as [th|] eqn:Hth; [|by intros [= <- <-]].
  destruct (Hthreads th) as [Hpath Hloaded]; [by eapply list_elem_of_lookup_2|].
  destruct (Sorter.stage th) as [|data|] eqn:Hstage; [| |by intros [= <- <-]].
  - unfold SorterWorker.sortChunk_read, SorterWorker.rethrow, readFile.
    destruct (fs !! Sorter.chunkPath th) as [data|] eqn:Hdata; intros [= <- <-].
    + apply pool_inv_set_stage; [done|]. intros d [= <-]. by eapply Hchunks.
    + apply pool_inv_reject, pool_inv_set_stage; done.
  - destruct (sortChunk_write_spec (Sorter.chunkPath th) data fs)
      as [->|[message ->]]; intros [= <- <-]; cycle 1.
    { apply pool_inv_reject, pool_inv_set_stage; done. }
    apply pool_inv_processNextChunk.
    specialize (Hloaded data eq_refl).
    pose proof (worker_sorted_content_sorted data Hloaded) as Hsorted.
    assert (∀ q d, (<[sorted_path (Sorter.chunkPath th)
                      := worker_sorted_content data]> fs) !! q = Some d →
                   q = sorted_path (Sorter.chunkPath th)
                   ∧ d = worker_sorted_content data
                   ∨ q ≠ sorted_path (Sorter.chunkPath th) ∧ fs !! q = Some d) as Hfile.
    { intros q d. destruct (decide (q = sorted_path (Sorter.chunkPath th))) as [->|Hq].
      - rewrite lookup_insert_eq. intros [= <-]. by left.
      - rewrite lookup_insert_ne by done. by right. }
    split_and!; simpl.
    + intros q d Hq [_ Hd]%lookup_delete_Some.
      apply Hfile in Hd as [[_ ->]|[_ Hd]]; [by apply sorted_chunk_data_chunk_data|].
      by eapply Hchunks.
    + intros q d Hq [_ Hd]%lookup_delete_Some.
      apply Hfile in Hd as [[_ ->]|[Hne Hd]]; [done|].
      apply elem_of_array_set in Hq as [Hq|Hq]; [by eapply Hresults | done].
    + apply (pool_inv_set_stage chunkFiles p fs k Sorter.Exited Hinv). done.
    + by rewrite Hpending.
Qed.

Lemma pool_inv_run (chunkFiles : list jsstring) (schedule : list nat) :
  ∀ (p : Sorter.pool) (fs fs' : filesystem) (result : list (option jsstring)),
    pool_inv chunkFiles p fs →
    Sorter.run_pool chunkFiles schedule p fs = Done fs' result →
    Forall (chunk_sorted fs') result.
Proof.
  assert (∀ p fs, pool_inv chunkFiles p fs →
                  Forall (chunk_sorted fs) (Sorter.results p)) as Hdone.
  { intros p fs (_ & Hresults & _). apply Forall_forall. intros [q|] Hq; [|done].
    simpl. destruct (fs !! q) as [d|] eqn:Hd; [|done].
    by eapply sorted_chunk_data_lines, Hresults. }
  induction schedule as [|k rest IH]; intros p fs fs' result Hinv; simpl.
  - destruct (Sorter.settled p) as [|value|] eqn:Hsettled; [done| |done].
    intros [= <- <-]. destruct Hinv as (? & ? & ? & Hvalue) eqn:E.
    rewrite (Hvalue value Hsettled). by apply Hdone.
  - destruct (Sorter.settled p) as [|value|] eqn:Hsettled; [| |done].
    + unfold io_bind.
      destruct (Sorter.worker_step chunkFiles k p fs) as [fs1 p1| |] eqn:Hstep;
        [|done..].
      apply IH. by eapply pool_inv_step.
    + intros [= <- <-]. pose proof Hinv as (? & ? & ? & Hvalue).
      rewrite (Hvalue value Hsettled). by apply Hdone.
Qed.

Lemma inline_sortChunk_keeps_sorted (chunkPath sortedChunkPath : jsstring)
    (fs fs' : filesystem) :
  Sorter.sortChunk chunkPath fs = Done fs' sortedChunkPath →
  (∀ x, chunk_sorted fs x → chunk_sorted fs' x)
  ∧ chunk_sorted fs' (Some sortedChunkPath).
Proof.
  destruct (inline_sortChunk_cases chunkPath fs) as [(data & _ & ->)|[message ->]];
    [|done].
  intros [= <- <-].
  assert (nondecreasing (readline_lines (inline_sorted_content data))) as Hsorted.
  { unfold inline_sorted_content. rewrite readline_lines_content.
    - apply array_sort_sorted.
    - unfold Sorter.sortLines. rewrite array_sort_perm. apply readline_lines_no_eol. }
  assert (∀ q, chunk_sorted fs (Some q) ∨ q = sorted_path chunkPath →
               chunk_sorted
                 (delete chunkPath
                    (<[sorted_path chunkPath := inline_sorted_content data]> fs))
                 (Some q)) as Hall.
  { intros q Hq. simpl. destruct (decide (q = chunkPath)) as [->|Hne].
    { by rewrite lookup_delete_eq. }
    rewrite lookup_delete_ne by done.
    destruct (decide (q = sorted_path chunkPath)) as [->|Hne'].
    { by rewrite lookup_insert_eq. }
    rewrite lookup_insert_ne by done. by destruct Hq. }
  split; [|apply Hall; by right].
  intros [q|] Hq; [|done]. apply Hall. by left.
Qed.

Lemma sortChunks_sequential_sorted (chunkFiles : list jsstring) :
  ∀ (sortedChunks result : list jsstring) (fs fs' : filesystem),
    Forall (λ q, chunk_sorted fs (Some q)) sortedChunks →
    Sorter.sortChunks_sequential chunkFiles sortedChunks fs = Done fs' result →
    Forall (λ q, chunk_sorted fs' (Some q)) result.
Proof.
  induction chunkFiles as [|chunkPath rest IH]; intros sortedChunks result fs fs' Hacc;
    simpl.
  - by intros [= <- <-].
  - unfold io_bind at 1.
    destruct (Sorter.sortChunk chunkPath fs) as [fs1 q| |] eqn:Hsort; [|done..].
    apply inline_sortChunk_keeps_sorted in Hsort as [Hmono Hq].
    apply IH. apply Forall_app. split; [|by constructor].
    eapply Forall_impl; [exact Hacc|]. intros x Hx. by apply Hmono.
Qed.

Lemma sortChunks_keeps_sorted
    (cpus : nat) (schedule : list nat) (chunkFiles : list jsstring)
    (opts : Sorter.options) (fs fs' : filesystem) (result : list (option jsstring)) :
  (∀ chunkPath data, chunkPath ∈ chunkFiles → fs !! chunkPath = Some data →
     chunk_data data) →
  Sorter.sortChunks cpus schedule chunkFiles opts fs = Done fs' result →
  Forall (chunk_sorted fs') result.
Proof.
  intros Hchunks. unfold Sorter.sortChunks. destruct (_ || _).
  - unfold io_bind.
    destruct (Sorter.sortChunks_sequential chunkFiles [] fs) as [fs1 paths| |] eqn:Hseq;
      [|done..].
    apply sortChunks_sequential_sorted in Hseq; [|constructor].
    intros [= <- <-]. by apply Forall_fmap.
  - apply pool_inv_run. unfold Sorter.start_pool. by apply pool_inv_start.
Qed.

(** X17.  For chunk files as the splitter writes them, whatever the options,
    the number of processors and the order in which the workers run: every
    path in a result of [sortChunks] names a file whose lines are in
    non-decreasing order, or no file. *)
Theorem sortChunks_results_are_sorted_files
    (cpus : nat) (schedule : list nat) (chunkFiles : list jsstring)
    (opts : Sorter.options) (fs fs' : filesystem) (result : list (option jsstring)) :
  (∀ chunkPath data, chunkPath ∈ chunkFiles → fs !! chunkPath = Some data →
     ∃ lines, data = lines_content lines ∧ Forall no_eol lines) →
  Sorter.sortChunks cpus schedule chunkFiles opts fs = Done fs' result →
  ∀ sortedChunkPath data,
    Some sortedChunkPath ∈ result →
    fs' !! sortedChunkPath = Some data →
    nondecreasing (readline_lines data).
Proof.
  intros Hchunks Hrun q data Hq Hdata.
  pose proof (sortChunks_keeps_sorted cpus schedule chunkFiles opts fs fs' result
                Hchunks Hrun) as Hsorted.
  rewrite Forall_forall in Hsorted. specialize (Hsorted (Some q) Hq).
  simpl in Hsorted. by rewrite Hdata in Hsorted.
Qed.

Lemma sortChunks_results_are_sorted_files_witness :
  nondecreasing (readline_lines (lines_content [js "b"])).
Proof.
  refine (sortChunks_results_are_sorted_files 2 [0; 1; 0; 1] two_chunk_files
            {| Sorter.useWorkers := None; Sorter.maxWorkers := None |} two_chunks_fs
            (<[js "tmp/chunk_000000.sorted.txt" := lines_content [js "b"]]>
               (<[js "tmp/chunk_000001.txt" := lines_content [js "a"]]> ∅))
            [Some (js "tmp/chunk_000000.sorted.txt")] _ _
            (js "tmp/chunk_000000.sorted.txt") (lines_content [js "b"]) _ _).
  - intros chunkPath data [->|[->|[]%elem_of_nil]%elem_of_cons]%elem_of_cons Hdata;
      vm_compute in Hdata; injection Hdata as <-.
    + exists [js "b"]. split; [done|]. repeat constructor; by vm_compute.
    + exists [js "a"]. split; [done|]. repeat constructor; by vm_compute.
  - by vm_compute.
  - apply list_elem_of_singleton. done.
  - by vm_compute.
Defined.

(** ** The pipeline *)





(** ** The hierarchical merge keeps every line *)

Lemma pretty_N_char_digit (d : N) : (d < 10)%N → is_digit (N_of_ascii (pretty_N_char d)).
Proof.
  intros Hd.
  assert (d = 0 ∨ d = 1 ∨ d = 2 ∨ d = 3 ∨ d = 4 ∨ d = 5 ∨ d = 6 ∨ d = 7 ∨ d = 8
          ∨ d = 9)%N as Hcases by lia.
  unfold is_digit. destruct_or!; subst d; simpl; lia.
Qed.

Lemma pretty_N_go_digits (x : N) : ∀ s : string,
  Forall is_digit (js s) → Forall is_digit (js (pretty_N_go x s)).
Proof.
  induction (N.lt_wf_0 x) as [x _ IH]; intros s Hs.
  assert (x = 0 ∨ 0 < x)%N as [->|Hpos] by lia.
  { by rewrite pretty_N_go_0. }
  rewrite pretty_N_go_step by done.
  apply IH; [apply N.div_lt; lia|].
  unfold js. simpl. constructor; [|done].
  apply pretty_N_char_digit, N.mod_lt. lia.
Qed.

Lemma String_of_nat_digits (n : nat) : Forall is_digit (String_of_nat n).
Proof.
  unfold String_of_nat, pretty, pretty_N.
  destruct (decide (N.of_nat n = 0)%N) as [Hz|Hn].
  - repeat constructor; unfold is_digit; simpl; lia.
  - apply pretty_N_go_digits. constructor.
Qed.

Lemma String_of_nat_inj (n n' : nat) : String_of_nat n = String_of_nat n' → n = n'.
Proof.
  intros Heq%(f_equal decimal_value). rewrite !decimal_value_String in Heq. lia.
Qed.

Lemma digits_sep_inj (sep : N) (d1 : jsstring) : ∀ (d2 r1 r2 : jsstring),
  ¬ is_digit sep →
  Forall is_digit d1 → Forall is_digit d2 →
  d1 ++ sep :: r1 = d2 ++ sep :: r2 → d1 = d2 ∧ r1 = r2.
Proof.
  induction d1 as [|c d1 IH]; intros [|c' d2] r1 r2 Hsep Hd1 Hd2; simpl.
  - by intros [= ->].
  - intros [= <- _]. by apply Forall_cons in Hd2 as [? _].
  - intros [= -> _]. by apply Forall_cons in Hd1 as [? _].
  - intros [= <- Heq]. apply Forall_cons in Hd1 as [_ Hd1].
    apply Forall_cons in Hd2 as [_ Hd2].
    by destruct (IH d2 r1 r2 Hsep Hd1 Hd2 Heq) as [-> ->].
Qed.

Lemma mergedChunkPath_inj (tempDir : jsstring) (L g L' g' : nat) :
  Merger.mergedChunkPath tempDir L g = Merger.mergedChunkPath tempDir L' g' →
  L = L' ∧ g = g'.
Proof.
  unfold Merger.mergedChunkPath, path_join. intros Hpath.
  do 3 apply app_inv_head in Hpath.
  change (js "_group") with (95%N :: js "group") in Hpath.
  rewrite <-!app_comm_cons in Hpath.
  apply digits_sep_inj in Hpath as [HL Hrest];
    [|unfold is_digit; lia|apply String_of_nat_digits..].
  apply app_inv_head in Hrest.
  change (js ".txt") with (46%N :: js "txt") in Hrest.
  apply digits_sep_inj in Hrest as [Hg _];
    [|unfold is_digit; lia|apply String_of_nat_digits..].
  split; by apply String_of_nat_inj.
Qed.

















(** ** File names *)

(** X21.  The chunk paths of a directory are distinct for distinct chunk
    indices, also beyond the six digits the index is padded to: no chunk file
    is written twice by [split]. *)
Theorem getChunkPath_distinct (tempDir : jsstring) (i j : nat) :
  Splitter._getChunkPath tempDir i = Splitter._getChunkPath tempDir j ↔ i = j.
Proof. split; [apply getChunkPath_inj | by intros ->]. Qed.

(** X22.  The intermediate files of the hierarchical merge are distinct for
    distinct pairs of level and group, and none of them is a chunk file of
    the splitter in the same directory. *)
Theorem mergedChunkPath_distinct (tempDir : jsstring) (L g L' g' i : nat) :
  (Merger.mergedChunkPath tempDir L g = Merger.mergedChunkPath tempDir L' g'
   ↔ L = L' ∧ g = g')
  ∧ Merger.mergedChunkPath tempDir L g ≠ Splitter._getChunkPath tempDir i.
Proof.
  split.
  - split; [apply mergedChunkPath_inj | by intros [-> ->]].
  - unfold Merger.mergedChunkPath, Splitter._getChunkPath, path_join.
    intros Heq. do 2 apply app_inv_head in Heq. by vm_compute in Heq.
Qed.

(** ** The files a single worker leaves *)

Lemma processNextChunk_shape (chunkFiles : list jsstring) (p : Sorter.pool) :
  Sorter.completedChunks (Sorter.processNextChunk chunkFiles p)
  = Sorter.completedChunks p
  ∧ (Sorter.threads (Sorter.processNextChunk chunkFiles p) = Sorter.threads p
     ∨ ∃ th, Sorter.threads (Sorter.processNextChunk chunkFiles p)
             = Sorter.threads p ++ [th]
             ∧ Sorter.stage th = Sorter.Spawned)
  ∧ (∀ value, Sorter.settled p = Sorter.Pending →
       Sorter.settled (Sorter.processNextChunk chunkFiles p) = Sorter.Fulfilled value →
       Sorter.completedChunks p = length chunkFiles).
Proof.
  unfold Sorter.processNextChunk.
  destruct (Nat.eqb_spec (Sorter.completedChunks p) (length chunkFiles)) as [Heq|Hne].
  { unfold Sorter.resolve. destruct (Sorter.settled p); simpl; by auto. }
  destruct (Sorter.find_free _ _) as [w|].
  - destruct (chunkFiles !! _) as [q|]; simpl.
    + split_and!; [done| |by intros ? ->]. right. by eexists.
    + split_and!; [done|by left|]. by intros ? ->.
  - split_and!; [done|by left|]. by intros ? ->.
Qed.

Lemma NoDup_chunks_sorted (chunkFiles : list jsstring) :
  NoDup (chunkFiles ++ (sorted_path <$> chunkFiles)) →
  (∀ i j a b, chunkFiles !! i = Some a → chunkFiles !! j = Some b → i ≠ j → a ≠ b)
  ∧ (∀ i j a b, chunkFiles !! i = Some a → chunkFiles !! j = Some b → i ≠ j →
       sorted_path a ≠ sorted_path b)
  ∧ (∀ i j a b, chunkFiles !! i = Some a → chunkFiles !! j = Some b →
       sorted_path a ≠ b).
Proof.
  intros (Hchunks & Hcross & Hsorted)%NoDup_app. split_and!.
  - intros i j a b Ha Hb Hij Heq. subst b. apply Hij.
    exact (NoDup_lookup chunkFiles i j a Hchunks Ha Hb).
  - intros i j a b Ha Hb Hij Heq. apply Hij.
    apply (NoDup_lookup _ i j (sorted_path a) Hsorted).
    + by rewrite list_lookup_fmap, Ha.
    + by rewrite list_lookup_fmap, Hb, Heq.
  - intros i j a b Ha Hb Heq. apply (Hcross b).
    + by eapply list_elem_of_lookup_2.
    + rewrite <-Heq. apply list_elem_of_fmap. exists a. split; [done|].
      by eapply list_elem_of_lookup_2.
Qed.

Lemma one_worker_files_step (chunkFiles : list jsstring) (fs0 : filesystem)
    (j : nat) (p p' : Sorter.pool) (fs fs' : filesystem) :
  NoDup (chunkFiles ++ (sorted_path <$> chunkFiles)) →
  one_worker_inv chunkFiles p →
  one_worker_files chunkFiles fs0 p fs →
  Sorter.worker_step chunkFiles j p fs = Done fs' p' →
  one_worker_files chunkFiles fs0 p' fs'
  ∧ (∀ value, Sorter.settled p' = Sorter.Fulfilled value →
       Sorter.completedChunks p' = length chunkFiles).
Proof.
  intros (Hdistinct & Hdistinct' & Hcross)%NoDup_chunks_sorted.
  intros (k & path & s & Hpath & Hk & Hsettled & Hpool & Hresults & Hlen & Hexited
          & Hthread & Hs) Hfiles.
  pose proof Hfiles as (Hdone & Htodo & Hheld).
  rewrite Hk in Hdone, Htodo, Hheld.
  unfold Sorter.worker_step.
  destruct (Sorter.threads p !! j) as [th|] eqn:Hth; cycle 1.
  { intros [= <- <-]. split; [exact Hfiles | by rewrite Hsettled]. }
  destruct (decide (j < k)) as [Hjk|Hjk].
  { rewrite (Hexited j th Hjk Hth). intros [= <- <-].
    split; [exact Hfiles | by rewrite Hsettled]. }
  assert (j = k) as ->.
  { apply lookup_lt_Some in Hth. lia. }
  rewrite Hthread in Hth. injection Hth as <-.
  cbn [Sorter.stage Sorter.chunkPath].
  destruct s as [|data|]; [| |done].
  - (* the read of the chunk *)
    unfold SorterWorker.sortChunk_read, SorterWorker.rethrow, readFile.
    destruct (fs !! path) as [data|] eqn:Hdata; intros [= <- <-].
    + split; [|by simpl; rewrite Hsettled].
      unfold one_worker_files. simpl. rewrite Hk. split_and!; [done..|].
      intros th d. rewrite list_lookup_alter_eq, Hthread. simpl.
      intros [= <-] [= <-]. simpl. by rewrite <-(Htodo k path).
    + unfold Sorter.reject. simpl. rewrite Hsettled. split; [|done].
      unfold one_worker_files. simpl. rewrite Hk. split_and!; [done..|].
      intros th d. rewrite list_lookup_alter_eq, Hthread. simpl. by intros [= <-].
  - (* the write, and the message to the main thread *)
    destruct (sortChunk_write_spec path data fs) as [->|[message ->]];
      intros [= <- <-]; cycle 1.
    { unfold Sorter.reject. simpl. rewrite Hsettled. split; [|done].
      unfold one_worker_files. simpl. rewrite Hk. split_and!; [done..|].
      intros th d. rewrite list_lookup_alter_eq, Hthread. simpl. by intros [= <-]. }
    unfold Sorter.on_success.
    match goal with
    | |- context [Sorter.processNextChunk chunkFiles ?q] =>
        destruct (processNextChunk_shape chunkFiles q) as (Hcount & Hthreads & Hfull);
        set (p1 := q) in *
    end.
    assert (Sorter.completedChunks p1 = S k) as Hk1 by (by simpl; rewrite Hk).
    assert (length (Sorter.threads p1) = S k) as Hlen1
      by (by simpl; rewrite length_alter).
    split; cycle 1.
    { intros value Hvalue. rewrite Hcount. eapply Hfull; [|done]. done. }
    unfold one_worker_files. rewrite Hcount, Hk1.
    specialize (Hheld _ data Hthread eq_refl). simpl in Hheld.
    split_and!.
    + intros i q Hi Hq.
      assert (path ≠ sorted_path q) as Hne1
        by (intros Heq; by apply (Hcross i k q path Hq Hpath)).
      destruct (decide (i = k)) as [->|Hik].
      * rewrite Hpath in Hq. injection Hq as <-. exists data.
        split_and!; [done|apply lookup_delete_eq|].
        rewrite lookup_delete_ne by done. apply lookup_insert_eq.
      * destruct (Hdone i q ltac:(lia) Hq) as (d & Hd & Hgone & Hsorted).
        assert (path ≠ q) as Hne2 by (by apply (Hdistinct k i)).
        assert (sorted_path path ≠ q) as Hne3 by (by apply (Hcross k i)).
        assert (sorted_path path ≠ sorted_path q) as Hne4
          by (by apply (Hdistinct' k i)).
        exists d. split_and!; [done| |].
        -- rewrite lookup_delete_ne by done. by rewrite lookup_insert_ne.
        -- rewrite lookup_delete_ne by done. by rewrite lookup_insert_ne.
    + intros i q Hi Hq.
      assert (path ≠ q) as Hne2 by (apply (Hdistinct k i); [done|done|lia]).
      assert (sorted_path path ≠ q) as Hne3 by (by apply (Hcross k i)).
      rewrite lookup_delete_ne by done. rewrite lookup_insert_ne by done.
      apply (Htodo i q); [lia|done].
    + intros th d Hth.
      destruct Hthreads as [Heq|(new & Heq & Hnew)]; rewrite Heq in Hth.
      * apply lookup_lt_Some in Hth. lia.
      * rewrite lookup_app_r, Hlen1, Nat.sub_diag in Hth by lia.
        injection Hth as <-. by rewrite Hnew.
Qed.

Lemma one_worker_files_run (chunkFiles : list jsstring) (fs0 : filesystem)
    (schedule : list nat) :
  NoDup (chunkFiles ++ (sorted_path <$> chunkFiles)) →
  ∀ (p : Sorter.pool) (fs fs' : filesystem) (result : list (option jsstring)),
    one_worker_inv chunkFiles p →
    one_worker_files chunkFiles fs0 p fs →
    Sorter.run_pool chunkFiles schedule p fs = Done fs' result →
    ∀ i q, chunkFiles !! i = Some q →
      ∃ data, fs0 !! q = Some data
              ∧ fs' !! q = None
              ∧ fs' !! sorted_path q = Some (worker_sorted_content data).
Proof.
  intros Hnodup.
  induction schedule as [|j rest IH]; intros p fs fs' result Hinv Hfiles.
  - destruct Hinv as (k & path & s & _ & _ & Hsettled & _). simpl. by rewrite Hsettled.
  - destruct (one_worker_step chunkFiles j p fs Hinv) as (fs1 & p1 & Hstep & Hp1).
    destruct (one_worker_files_step chunkFiles fs0 j p p1 fs fs1 Hnodup Hinv Hfiles
                Hstep) as [Hfiles1 Hfull].
    destruct Hinv as (k & path & s & _ & _ & Hsettled & _).
    simpl. rewrite Hsettled. unfold io_bind. rewrite Hstep.
    destruct Hp1 as [Hinv1|[Hdone|[message Hfailed]]].
    + by apply IH.
    + specialize (Hfull _ Hdone). destruct Hfiles1 as (Hsorted & _).
      rewrite Hfull in Hsorted.
      destruct rest; simpl; rewrite Hdone; intros [= <- _] i q Hq;
        (apply (Hsorted i q); [by eapply lookup_lt_Some|done]).
    + destruct rest; simpl; by rewrite Hfailed.
Qed.

Lemma one_worker_files_start (chunkFiles : list jsstring) (fs : filesystem) :
  2 ≤ length chunkFiles →
  one_worker_files chunkFiles fs (Sorter.start_pool chunkFiles 1) fs.
Proof.
  intros Hlen. destruct chunkFiles as [|first chunkFiles]; [simpl in Hlen; lia|].
  unfold Sorter.start_pool.
  replace (Nat.min 1 (length (first :: chunkFiles))) with 1 by (simpl; lia).
  rewrite (start_pool_threads (first :: chunkFiles) 1 first) by (done || lia).
  unfold one_worker_files. simpl. split_and!; [intros; lia | done |].
  by intros th data [= <-].
Qed.

Lemma sortChunks_one_worker_files
    (cpus : nat) (schedule : list nat) (chunkFiles : list jsstring)
    (opts : Sorter.options) (fs fs' : filesystem)
    (result : list (option jsstring)) :
  Sorter.maxWorkers opts = Some 1
  ∨ cpus ≤ 1 ∧ (Sorter.maxWorkers opts = None ∨ Sorter.maxWorkers opts = Some 0) →
  Sorter.useWorkers opts ≠ Some false →
  2 ≤ length chunkFiles →
  NoDup (chunkFiles ++ (sorted_path <$> chunkFiles)) →
  Sorter.sortChunks cpus schedule chunkFiles opts fs = Done fs' result →
  result = Some <$> (sorted_path <$> chunkFiles)
  ∧ ∀ i chunkPath, chunkFiles !! i = Some chunkPath →
      ∃ data, fs !! chunkPath = Some data
              ∧ fs' !! chunkPath = None
              ∧ fs' !! sorted_path chunkPath = Some (worker_sorted_content data).
Proof.
  intros Hone Hworkers Hlen Hnodup. unfold Sorter.sortChunks.
  assert (negb (default true (Sorter.useWorkers opts)) || (length chunkFiles <=? 1)
          = false) as ->.
  { apply orb_false_iff. split.
    - by destruct (Sorter.useWorkers opts) as [[]|].
    - apply Nat.leb_gt. lia. }
  assert (match Sorter.maxWorkers opts with
          | Some n => if n =? 0 then Nat.max 1 (Nat.min 4 cpus) else n
          | None => Nat.max 1 (Nat.min 4 cpus)
          end = 1) as ->.
  { destruct Hone as [->|[Hcpus [->| ->]]]; [done|lia|].
    change (0 =? 0) with true. cbv iota. lia. }
  intros Hrun. split.
  - eapply one_worker_run; [|exact Hrun]. by apply one_worker_start.
  - eapply one_worker_files_run; [done| | |exact Hrun].
    + by apply one_worker_start.
    + by apply one_worker_files_start.
Qed.

(** X24.  With one worker and two chunks or more, when the chunk paths and
    their sorted paths are all distinct and [sortChunks] returns, in whatever
    order the worker threads ran: every chunk was there and is deleted, and
    its sorted file holds what the worker's chunk sorter writes for the data
    the chunk had. *)
Theorem sortChunks_one_worker_sorts_every_chunk
    (cpus : nat) (schedule : list nat) (chunkFiles : list jsstring)
    (opts : Sorter.options) (fs fs' : filesystem)
    (result : list (option jsstring)) :
  Sorter.maxWorkers opts = Some 1
  ∨ cpus ≤ 1 ∧ (Sorter.maxWorkers opts = None ∨ Sorter.maxWorkers opts = Some 0) →
  Sorter.useWorkers opts ≠ Some false →
  2 ≤ length chunkFiles →
  NoDup (chunkFiles ++ (sorted_path <$> chunkFiles)) →
  Sorter.sortChunks cpus schedule chunkFiles opts fs = Done fs' result →
  ∀ i chunkPath, chunkFiles !! i = Some chunkPath →
    ∃ data, fs !! chunkPath = Some data
            ∧ fs' !! chunkPath = None
            ∧ fs' !! sorted_path chunkPath = Some (worker_sorted_content data).
Proof.
  intros Hone Hworkers Hlen Hnodup Hrun.
  by apply (sortChunks_one_worker_files cpus schedule chunkFiles opts fs fs' result).
Qed.

Lemma sortChunks_one_worker_sorts_every_chunk_witness :
  ∃ data, two_chunks_fs !! js "tmp/chunk_000001.txt" = Some data
          ∧ ({[ js "tmp/chunk_000000.sorted.txt" := lines_content [js "b"];
                js "tmp/chunk_000001.sorted.txt" := lines_content [js "a"] ]}
               : filesystem) !! js "tmp/chunk_000001.txt" = None
          ∧ ({[ js "tmp/chunk_000000.sorted.txt" := lines_content [js "b"];
                js "tmp/chunk_000001.sorted.txt" := lines_content [js "a"] ]}
               : filesystem) !! sorted_path (js "tmp/chunk_000001.txt")
            = Some (worker_sorted_content data).
Proof.
  refine (sortChunks_one_worker_sorts_every_chunk 1 [0; 0; 1; 1] two_chunk_files
            {| Sorter.useWorkers := None; Sorter.maxWorkers := None |}
            two_chunks_fs
            {[ js "tmp/chunk_000000.sorted.txt" := lines_content [js "b"];
               js "tmp/chunk_000001.sorted.txt" := lines_content [js "a"] ]}
            [Some (js "tmp/chunk_000000.sorted.txt");
             Some (js "tmp/chunk_000001.sorted.txt")]
            _ _ _ _ _ 1 (js "tmp/chunk_000001.txt") _).
  - right. split; [lia|]. by left.
  - done.
  - simpl. lia.
  - apply (bool_decide_unpack _). by vm_compute.
  - by vm_compute.
  - done.
Defined.

(** ** The paths of a run *)













(** ** The pipeline on a host with one processor *)












(** ** A run that needs a single chunk, from start to end *)








